(** * Financial calculator: the TVM solver, amortization and cash-flow analysis

    A shallow embedding of [src/app.js] (the TVM math, [compute],
    [computeVariable], [calculateNPV], [calculateIRR], [calculateAmort]).

    Numbers.  A JavaScript number is modelled as an extended real: a finite
    value carries a real number, and the IEEE special values NaN, +Infinity
    and -Infinity are kept, with their JavaScript arithmetic, because the
    code produces them (division by zero, logarithm of a non-positive
    number) and tests for them ([isFinite], [isNaN]).  Two arithmetics act
    on these numbers.  In the first part arithmetic on finite values is
    exact (no rounding, no overflow, a single unsigned zero).  [Binary64]
    rounds every result to the nearest binary64 value, ties to even, and
    overflows to an infinity; the TVM math is given again over an [engine],
    which is either of the two, and the statements on round trips, on the
    amortization walk and on the rates of the Newton loop are made for
    binary64.

    Dynamic typing.  [solveIY] is called by [computeVariable] with a number
    where a boolean is expected and conversely, so its last three parameters
    are JavaScript values ([jsval]) with the language's ToBoolean, ToNumber
    and strict equality. *)

From Stdlib Require Import Reals Lra Lia ZArith List Bool Ascii String.
Import ListNotations.
Open Scope R_scope.

(* ================================================================== *)
(** * JavaScript numbers in exact arithmetic *)
(* ================================================================== *)

Definition Rltb (x y : R) : bool := if Rlt_dec x y then true else false.
Definition Rleb (x y : R) : bool := if Rle_dec x y then true else false.
Definition Reqb (x y : R) : bool := if Req_dec_T x y then true else false.

Inductive num : Type :=
| Fin (r : R)
| PInf
| NInf
| NaN.

Module Num.

Definition neg (a : num) : num :=
  match a with
  | Fin x => Fin (- x)
  | PInf => NInf
  | NInf => PInf
  | NaN => NaN
  end.

Definition add (a b : num) : num :=
  match a, b with
  | Fin x, Fin y => Fin (x + y)
  | NaN, _ | _, NaN => NaN
  | PInf, NInf | NInf, PInf => NaN
  | PInf, _ | _, PInf => PInf
  | NInf, _ | _, NInf => NInf
  end.

Definition sub (a b : num) : num := add a (neg b).

(** The sign of a finite factor decides the sign of an infinite product;
    zero times infinity is NaN. *)
Definition scale_inf (positive_inf : bool) (x : R) : num :=
  if Rltb 0 x then (if positive_inf then PInf else NInf)
  else if Rltb x 0 then (if positive_inf then NInf else PInf)
  else NaN.

Definition mul (a b : num) : num :=
  match a, b with
  | Fin x, Fin y => Fin (x * y)
  | NaN, _ | _, NaN => NaN
  | Fin x, PInf | PInf, Fin x => scale_inf true x
  | Fin x, NInf | NInf, Fin x => scale_inf false x
  | PInf, PInf | NInf, NInf => PInf
  | PInf, NInf | NInf, PInf => NInf
  end.

Definition div (a b : num) : num :=
  match a, b with
  | Fin x, Fin y =>
      if Reqb y 0 then scale_inf true x else Fin (x / y)
  | NaN, _ | _, NaN => NaN
  | Fin _, PInf | Fin _, NInf => Fin 0
  | PInf, Fin y => if Rltb y 0 then NInf else PInf
  | NInf, Fin y => if Rltb y 0 then PInf else NInf
  | _, _ => NaN
  end.

(** [Math.abs] *)
Definition abs (a : num) : num :=
  match a with
  | Fin x => Fin (Rabs x)
  | PInf | NInf => PInf
  | NaN => NaN
  end.

(** [a < b]; every comparison with NaN is false. *)
Definition lt (a b : num) : bool :=
  match a, b with
  | Fin x, Fin y => Rltb x y
  | NaN, _ | _, NaN => false
  | _, NInf => false
  | NInf, _ => true
  | PInf, _ => false
  | _, PInf => true
  end.

(** [a === b] on numbers *)
Definition eq (a b : num) : bool :=
  match a, b with
  | Fin x, Fin y => Reqb x y
  | PInf, PInf | NInf, NInf => true
  | _, _ => false
  end.

Definition le (a b : num) : bool := lt a b || eq a b.
Definition gt (a b : num) : bool := lt b a.
Definition ge (a b : num) : bool := le b a.

Definition isFinite (a : num) : bool :=
  match a with Fin _ => true | _ => false end.

Definition isNaN (a : num) : bool :=
  match a with NaN => true | _ => false end.

(** ToBoolean on a number: false for 0 and NaN. *)
Definition truthy (a : num) : bool :=
  match a with
  | Fin x => negb (Reqb x 0)
  | NaN => false
  | _ => true
  end.

Definition is_int (y : R) : bool := Reqb (IZR (Int_part y)) y.
Definition odd_int (y : R) : bool := is_int y && Z.odd (Int_part y).

(** [Math.pow], following the case list of ECMAScript's
    Number::exponentiate; the generic case is the real power. *)
Definition pow (b e : num) : num :=
  match e with
  | NaN => NaN
  | Fin y =>
      if Reqb y 0 then Fin 1
      else match b with
           | NaN => NaN
           | PInf => if Rltb 0 y then PInf else Fin 0
           | NInf => if Rltb 0 y
                     then (if odd_int y then NInf else PInf)
                     else Fin 0
           | Fin x =>
               if Rltb 0 x then Fin (Rpower x y)
               else if Reqb x 0 then (if Rltb 0 y then Fin 0 else PInf)
               else if is_int y then Fin (powerRZ x (Int_part y))
               else NaN
           end
  | PInf =>
      match b with
      | NaN => NaN
      | PInf | NInf => PInf
      | Fin x => if Rltb 1 (Rabs x) then PInf
                 else if Reqb (Rabs x) 1 then NaN else Fin 0
      end
  | NInf =>
      match b with
      | NaN => NaN
      | PInf | NInf => Fin 0
      | Fin x => if Rltb 1 (Rabs x) then Fin 0
                 else if Reqb (Rabs x) 1 then NaN else PInf
      end
  end.

(** [Math.log] *)
Definition log (a : num) : num :=
  match a with
  | Fin x => if Rltb 0 x then Fin (ln x)
             else if Reqb x 0 then NInf else NaN
  | PInf => PInf
  | NInf | NaN => NaN
  end.

End Num.

Declare Scope js_scope.
Delimit Scope js_scope with js.
Bind Scope js_scope with num.
Infix "+" := Num.add : js_scope.
Infix "-" := Num.sub : js_scope.
Infix "*" := Num.mul : js_scope.
Infix "/" := Num.div : js_scope.
Notation "- x" := (Num.neg x) : js_scope.
Infix "<?" := Num.lt : js_scope.
Infix "<=?" := Num.le : js_scope.
Infix ">?" := Num.gt : js_scope.
Infix ">=?" := Num.ge : js_scope.
Infix "===" := Num.eq (at level 70, no associativity) : js_scope.
Notation "# r" := (Fin r%R) (at level 5, r at level 1, format "# r") : js_scope.

(** ** JavaScript values that reach [solveIY] *)

Inductive jsval : Type :=
| JNum (x : num)
| JBool (b : bool).

Definition toBoolean (v : jsval) : bool :=
  match v with
  | JNum x => Num.truthy x
  | JBool b => b
  end.

Definition toNumber (v : jsval) : num :=
  match v with
  | JNum x => x
  | JBool true => Fin 1
  | JBool false => Fin 0
  end.

(** [v === w]: values of different types are never strictly equal. *)
Definition strictEq (v w : jsval) : bool :=
  match v, w with
  | JNum x, JNum y => Num.eq x y
  | JBool a, JBool b => Bool.eqb a b
  | _, _ => false
  end.

(** A register holds a number or [null]; [null] converts to 0 in
    arithmetic. *)
Definition numOfReg (r : option num) : num :=
  match r with
  | Some x => x
  | None => Fin 0
  end.

Open Scope js_scope.

(* ================================================================== *)
(** * TVM math *)
(* ================================================================== *)

Definition getPeriodicRate (nominalRate cy py : num) : num :=
  let r := nominalRate / #100 in
  if cy === py then r / py
  else Num.pow (#1 + r / cy) (cy / py) - #1.

Definition annuityFactor (i n : num) (isBegin : bool) : num :=
  if Num.abs i <? #1e-10 then n
  else
    let factor := (Num.pow (#1 + i) n - #1) / i in
    if isBegin then factor * (#1 + i) else factor.

Definition solveFV (n i pv pmt : num) (isBegin : bool) : num :=
  let compoundFactor := Num.pow (#1 + i) n in
  let af := annuityFactor i n isBegin in
  pv * compoundFactor + pmt * af.

Definition solvePV (n i pmt fv : num) (isBegin : bool) : num :=
  let compoundFactor := Num.pow (#1 + i) n in
  let af := annuityFactor i n isBegin in
  (fv - pmt * af) / compoundFactor.

Definition solvePMT (n i pv fv : num) (isBegin : bool) : num :=
  let compoundFactor := Num.pow (#1 + i) n in
  let af := annuityFactor i n isBegin in
  if Num.abs af <? #1e-15 then NaN
  else (fv - pv * compoundFactor) / af.

Definition solveN_residual (i pv pmt fv : num) (isBegin : bool) (n : num) : num :=
  if n <=? #0 then fv - pv
  else
    let compoundFactor := Num.pow (#1 + i) n in
    fv - pv * compoundFactor - pmt * annuityFactor i n isBegin.

(** The probe [for (test = 1; test <= 10000; test *= 10)] of
    [solveNNumeric]: the first test point whose residual has the sign
    opposite to [fLo] replaces [hi]. *)
Fixpoint solveN_probe (f : num -> num) (fLo hi : num) (tests : list num) : num :=
  match tests with
  | [] => hi
  | test :: rest =>
      if f test * fLo <? #0 then test else solveN_probe f fLo hi rest
  end.

Fixpoint solveN_bisect (f : num -> num) (iters : nat) (lo hi : num) : num :=
  match iters with
  | O => (lo + hi) / #2
  | S k =>
      let mid := (lo + hi) / #2 in
      let fMid := f mid in
      if Num.abs fMid <? #1e-10 then mid
      else if f lo * fMid <? #0 then solveN_bisect f k lo mid
      else solveN_bisect f k mid hi
  end.

Definition solveNNumeric (i pv pmt fv : num) (isBegin : bool) : num :=
  let f := solveN_residual i pv pmt fv isBegin in
  let lo := #0.01 in
  let hi := #1000 in
  let fLo := f lo in
  let fHi := f hi in
  let hi := if fLo * fHi >? #0
            then solveN_probe f fLo hi [#1; #10; #100; #1000; #10000]
            else hi in
  solveN_bisect f 100 lo hi.

Definition solveN (i pv pmt fv : num) (isBegin : bool) : num :=
  if Num.abs i <? #1e-10 then
    if Num.abs pmt <? #1e-15 then NaN else (fv - pv) / pmt
  else if Num.abs pmt <? #1e-15 then
    if Num.abs pv <? #1e-15 then NaN
    else
      let ratio := fv / pv in
      if ratio <=? #0 then NaN
      else Num.log ratio / Num.log (#1 + i)
  else solveNNumeric i pv pmt fv isBegin.

(* ------------------------------------------------------------------ *)
(** ** The interest-rate search *)

(** Bracket of a bisection: [lo], [hi] and the residuals kept with them. *)
Record bracket : Type := mkBracket {
  b_lo : num;
  b_hi : num;
  b_fLo : num;
  b_fHi : num
}.

(** The probe of [bisectionSolveI]: only test points strictly inside the
    bracket count; the first one whose residual differs in sign from [fLo]
    becomes [hi], or else from [fHi] becomes [lo]. *)
Fixpoint solveI_probe (f : num -> num) (b : bracket) (tests : list num) : bracket :=
  match tests with
  | [] => b
  | test :: rest =>
      if (test >? b_lo b) && (test <? b_hi b) && (f test * b_fLo b <? #0)
      then mkBracket (b_lo b) test (b_fLo b) (f test)
      else if (test >? b_lo b) && (test <? b_hi b) && (f test * b_fHi b <? #0)
      then mkBracket test (b_hi b) (f test) (b_fHi b)
      else solveI_probe f b rest
  end.

(** The bisection loop shared, word for word, by [bisectionSolveI] and
    [bisectionIRR]. *)
Fixpoint bisectLoop (f : num -> num) (iters : nat) (b : bracket) : num :=
  match iters with
  | O => (b_lo b + b_hi b) / #2
  | S k =>
      let mid := (b_lo b + b_hi b) / #2 in
      let fMid := f mid in
      if Num.abs fMid <? #1e-10 then mid
      else if b_fLo b * fMid <? #0
      then bisectLoop f k (mkBracket (b_lo b) mid (b_fLo b) fMid)
      else bisectLoop f k (mkBracket mid (b_hi b) fMid (b_fHi b))
  end.

Definition solveI_tests : list num :=
  [#(-0.5); #0; #0.01; #0.1; #0.5; #1; #1.5].

Definition bisectionSolveI (f : num -> num) (lo hi : num) (maxIter : nat) : num :=
  let b := mkBracket lo hi (f lo) (f hi) in
  let b := if b_fLo b * b_fHi b >? #0 then solveI_probe f b solveI_tests else b in
  bisectLoop f maxIter b.

(** The objective [f] and its derivative [df] inside [solveIY]. *)
Definition solveIY_f (n pv pmt fv : num) (isBegin : jsval) (i : num) : num :=
  let compoundFactor := Num.pow (#1 + i) n in
  let af := annuityFactor i n (toBoolean isBegin) in
  fv - pv * compoundFactor - pmt * af.

Definition solveIY_df (n pv pmt : num) (isBegin : jsval) (i : num) : num :=
  if Num.abs i <? #1e-10 then (- pv) * n - pmt * n * (n + #1) / #2
  else
    let onePlusI := #1 + i in
    let onePlusIN := Num.pow onePlusI n in
    let dCompound := n * Num.pow onePlusI (n - #1) in
    let af := (onePlusIN - #1) / i in
    let dAf := (n * Num.pow onePlusI (n - #1) * i - (onePlusIN - #1)) / (i * i) in
    let dAfBgn := if toBoolean isBegin then dAf * onePlusI + af else dAf in
    (- pv) * dCompound - pmt * dAfBgn.

(** Loop variables of the Newton-Raphson phase. *)
Record newton : Type := mkNewton {
  nw_i : num;
  nw_bestI : num;
  nw_bestF : num
}.

(** One pass through the body of the Newton loop of [solveIY]; the boolean
    is [true] when the body leaves the loop with [break]. *)
Definition solveIY_step (f df : num -> num) (s : newton) : newton * bool :=
  let i := nw_i s in
  let fVal := f i in
  if Num.abs fVal <? #1e-10 then (mkNewton i i (nw_bestF s), true)
  else
    let s1 := if Num.abs fVal <? nw_bestF s
              then mkNewton i i (Num.abs fVal) else s in
    let dfVal := df i in
    if Num.abs dfVal <? #1e-15 then (s1, true)
    else
      let newI := i - fVal / dfVal in
      let newI := if newI <=? #(-0.99) then i / #2 else newI in
      let newI := if newI >? #10 then (i + #10) / #2 else newI in
      if Num.abs (newI - i) <? #1e-12
      then (mkNewton i newI (nw_bestF s1), true)
      else (mkNewton newI (nw_bestI s1) (nw_bestF s1), false).

Fixpoint solveIY_newton (f df : num -> num) (iters : nat) (s : newton) : newton :=
  match iters with
  | O => s
  | S k =>
      let (s', stop) := solveIY_step f df s in
      if stop then s' else solveIY_newton f df k s'
  end.

(** The periodic rate found by [solveIY], before it is converted. *)
Definition solveIY_periodic (n pv pmt fv : num) (isBegin : jsval) : num :=
  let f := solveIY_f n pv pmt fv isBegin in
  let df := solveIY_df n pv pmt isBegin in
  let i := #0.05 in
  let s := solveIY_newton f df 50 (mkNewton i i (Num.abs (f i))) in
  let bestI := nw_bestI s in
  if Num.abs (f bestI) >? #1e-6
  then bisectionSolveI f #(-0.99) #2 100
  else bestI.

(** The conversion at the end of [solveIY]. *)
Definition nominalFromPeriodic (bestI : num) (cy py : jsval) : num :=
  let nominalRate :=
    if strictEq cy py then bestI * toNumber py
    else toNumber cy * (Num.pow (#1 + bestI) (toNumber py / toNumber cy) - #1) in
  nominalRate * #100.

Definition solveIY (n pv pmt fv : num) (isBegin cy py : jsval) : num :=
  nominalFromPeriodic (solveIY_periodic n pv pmt fv isBegin) cy py.

(* ================================================================== *)
(** * Calculator state, CPT *)
(* ================================================================== *)

Inductive tvmVar : Type := VarN | VarIY | VarPV | VarPMT | VarFV.

Definition tvmVars : list tvmVar := [VarN; VarIY; VarPV; VarPMT; VarFV].

Definition varName (v : tvmVar) : string :=
  match v with
  | VarN => "N"
  | VarIY => "IY"
  | VarPV => "PV"
  | VarPMT => "PMT"
  | VarFV => "FV"
  end.

Inductive msgType : Type := info | error | success.

(** The text handed to [showMessage]: a fixed string, or the template
    [`${label} = ${formatNumber(result)}`] of a computed register. *)
Inductive msgText : Type :=
| Text (s : string)
| ResultText (v : tvmVar) (result : num).

Record message : Type := mkMessage {
  msg_text : msgText;
  msg_type : msgType
}.

(** The entry buffer: typed text, or the formatted text of a number. *)
Inductive entryBuf : Type :=
| Typed (s : string)
| Formatted (x : num).

Record state : Type := mkState {
  st_N : option num;
  st_IY : option num;
  st_PV : option num;
  st_PMT : option num;
  st_FV : option num;
  st_py : num;
  st_cy : num;
  st_BGN : bool;
  st_entry : entryBuf;
  st_isNewEntry : bool;
  st_selectedVar : option string;
  st_lastComputed : option num;
  st_lastComputedVar : option tvmVar;
  st_rclMode : bool;
  st_computeArmed : bool;
  st_message : option message
}.

Definition getReg (st : state) (v : tvmVar) : option num :=
  match v with
  | VarN => st_N st
  | VarIY => st_IY st
  | VarPV => st_PV st
  | VarPMT => st_PMT st
  | VarFV => st_FV st
  end.

(** [state[v] = x] *)
Definition setReg (v : tvmVar) (x : option num) (st : state) : state :=
  mkState
    (match v with VarN => x | _ => st_N st end)
    (match v with VarIY => x | _ => st_IY st end)
    (match v with VarPV => x | _ => st_PV st end)
    (match v with VarPMT => x | _ => st_PMT st end)
    (match v with VarFV => x | _ => st_FV st end)
    (st_py st) (st_cy st) (st_BGN st) (st_entry st) (st_isNewEntry st)
    (st_selectedVar st) (st_lastComputed st) (st_lastComputedVar st)
    (st_rclMode st) (st_computeArmed st) (st_message st).

Definition setMessage (m : option message) (st : state) : state :=
  mkState (st_N st) (st_IY st) (st_PV st) (st_PMT st) (st_FV st)
    (st_py st) (st_cy st) (st_BGN st) (st_entry st) (st_isNewEntry st)
    (st_selectedVar st) (st_lastComputed st) (st_lastComputedVar st)
    (st_rclMode st) (st_computeArmed st) m.

Definition showMessage (msg : msgText) (type : msgType) (st : state) : state :=
  setMessage (Some (mkMessage msg type)) st.

Definition clearMessage (st : state) : state := setMessage None st.

Definition setRclMode (b : bool) (st : state) : state :=
  mkState (st_N st) (st_IY st) (st_PV st) (st_PMT st) (st_FV st)
    (st_py st) (st_cy st) (st_BGN st) (st_entry st) (st_isNewEntry st)
    (st_selectedVar st) (st_lastComputed st) (st_lastComputedVar st)
    b (st_computeArmed st) (st_message st).

Definition setComputeArmed (b : bool) (st : state) : state :=
  mkState (st_N st) (st_IY st) (st_PV st) (st_PMT st) (st_FV st)
    (st_py st) (st_cy st) (st_BGN st) (st_entry st) (st_isNewEntry st)
    (st_selectedVar st) (st_lastComputed st) (st_lastComputedVar st)
    (st_rclMode st) b (st_message st).

(** The five assignments that follow a successful solve:
    [state[v] = result; lastComputed = result; lastComputedVar = v;
     entry = formatNumber(result)...; selectedVar = v; isNewEntry = true]. *)
Definition storeResult (v : tvmVar) (result : num) (st : state) : state :=
  let st := setReg v (Some result) st in
  mkState (st_N st) (st_IY st) (st_PV st) (st_PMT st) (st_FV st)
    (st_py st) (st_cy st) (st_BGN st) (Formatted result) true
    (Some (varName v)) (Some result) (Some v)
    (st_rclMode st) (st_computeArmed st) (st_message st).

(** The registers, as the five-tuple the claims speak of. *)
Definition registers (st : state) : list (option num) :=
  map (getReg st) tvmVars.

(** How the statements of a [try] block end: with a value for [result], or
    with an exception caught by the [catch] clause. *)
Inductive completion : Type :=
| Returns (result : num)
| Throws.

(** The [switch] of [compute]: the register values are read as numbers. *)
Definition compute_switch (solveFor : tvmVar) (st : state) : num :=
  let n := numOfReg (st_N st) in
  let iy := numOfReg (st_IY st) in
  let pv := numOfReg (st_PV st) in
  let pmt := numOfReg (st_PMT st) in
  let fv := numOfReg (st_FV st) in
  let cy := st_cy st in
  let py := st_py st in
  let isBegin := st_BGN st in
  match solveFor with
  | VarFV => solveFV n (getPeriodicRate iy cy py) pv pmt isBegin
  | VarPV => solvePV n (getPeriodicRate iy cy py) pmt fv isBegin
  | VarPMT => solvePMT n (getPeriodicRate iy cy py) pv fv isBegin
  | VarN => solveN (getPeriodicRate iy cy py) pv pmt fv isBegin
  | VarIY => solveIY n pv pmt fv (JBool isBegin) (JNum cy) (JNum py)
  end.

(** What [compute] does once the [switch] has completed. *)
Definition compute_finish (solveFor : tvmVar) (c : completion) (st : state) : state :=
  match c with
  | Throws => showMessage (Text "Calculation error") error st
  | Returns result =>
      if negb (Num.isFinite result) || Num.isNaN result
      then showMessage (Text "No solution found") error st
      else showMessage (ResultText solveFor result) success
             (storeResult solveFor result st)
  end.

(** The [switch] of [computeVariable]; note the order of the last three
    arguments of [solveIY]. *)
Definition computeVariable_switch (v : tvmVar) (st : state) : num :=
  let n := numOfReg (st_N st) in
  let iy := numOfReg (st_IY st) in
  let pv := numOfReg (st_PV st) in
  let pmt := numOfReg (st_PMT st) in
  let fv := numOfReg (st_FV st) in
  let cy := st_cy st in
  let py := st_py st in
  let isBegin := st_BGN st in
  match v with
  | VarFV => solveFV n (getPeriodicRate iy cy py) pv pmt isBegin
  | VarPV => solvePV n (getPeriodicRate iy cy py) pmt fv isBegin
  | VarPMT => solvePMT n (getPeriodicRate iy cy py) pv fv isBegin
  | VarN => solveN (getPeriodicRate iy cy py) pv pmt fv isBegin
  | VarIY => solveIY n pv pmt fv (JNum cy) (JNum py) (JBool isBegin)
  end.

Definition computeVariable_finish (v : tvmVar) (originalValue : option num)
    (c : completion) (st : state) : state :=
  match c with
  | Throws =>
      showMessage (Text "Calculation error") error (setReg v originalValue st)
  | Returns result =>
      if negb (Num.isFinite result)
      then showMessage (Text "No solution found") error
             (setReg v originalValue st)
      else showMessage (ResultText v result) success (storeResult v result st)
  end.

Definition computeVariable (v : tvmVar) (st : state) : state :=
  let st := setComputeArmed false st in
  let st := clearMessage st in
  if (st_py st <=? #0) || (st_cy st <=? #0)
  then showMessage (Text "SET P/Y AND C/Y") error st
  else
    let originalValue := getReg st v in
    let st := setReg v None st in
    computeVariable_finish v originalValue
      (Returns (computeVariable_switch v st)) st.

Definition isNull (r : option num) : bool :=
  match r with None => true | Some _ => false end.

(** [tvmVars.filter(v => state[v] === null)] *)
Definition blankVarsOf (st : state) : list tvmVar :=
  filter (fun v => isNull (getReg st v)) tvmVars.

Definition compute (st : state) : state :=
  let st := clearMessage st in
  let st := setRclMode false st in
  if (st_py st <=? #0) || (st_cy st <=? #0)
  then showMessage (Text "SET P/Y AND C/Y") error st
  else
    let blankVars := blankVarsOf st in
    if Nat.eqb (List.length blankVars) 0 then
      match st_lastComputedVar st with
      | Some v => computeVariable v st
      | None =>
          showMessage (Text "CPT → PRESS VARIABLE TO SOLVE") info
            (setComputeArmed true st)
      end
    else if Nat.ltb 1 (List.length blankVars) then
      showMessage (Text "CLEAR ONE VARIABLE TO SOLVE") error st
    else
      match blankVars with
      | solveFor :: _ =>
          compute_finish solveFor (Returns (compute_switch solveFor st)) st
      | [] => st
      end.

(* ================================================================== *)
(** * Cash flows: NPV and IRR *)
(* ================================================================== *)

(** The loop [for (t = 0; t < cashFlows.length; t++)
      npv += cashFlows[t] / Math.pow(1 + r, t)],
    entered at index [t] with the rest of the series. *)
Fixpoint npvLoop (r : num) (cashFlows : list num) (t : nat) (npv : num) : num :=
  match cashFlows with
  | [] => npv
  | c :: rest =>
      npvLoop r rest (S t) (npv + c / Num.pow (#1 + r) #(INR t))
  end.

Definition npvFunc (cashFlows : list num) (r : num) : num :=
  npvLoop r cashFlows 0 #0.

(** [for (t = 1; ...) deriv -= t * cashFlows[t] / Math.pow(1 + r, t + 1)] *)
Fixpoint derivLoop (r : num) (cashFlows : list num) (t : nat) (deriv : num) : num :=
  match cashFlows with
  | [] => deriv
  | c :: rest =>
      derivLoop r rest (S t)
        (deriv - #(INR t) * c / Num.pow (#1 + r) (#(INR t) + #1))
  end.

Definition npvDerivative (cashFlows : list num) (r : num) : num :=
  derivLoop r (tl cashFlows) 1 #0.


Fixpoint irr_probe (f : num -> num) (b : bracket) (tests : list num) : bracket :=
  match tests with
  | [] => b
  | test :: rest =>
      if f test * b_fLo b <? #0
      then mkBracket (b_lo b) test (b_fLo b) (f test)
      else if f test * b_fHi b <? #0
      then mkBracket test (b_hi b) (f test) (b_fHi b)
      else irr_probe f b rest
  end.

Definition irr_tests : list num := [#(-0.5); #0; #0.01; #0.1; #0.5; #1].

Definition bisectionIRR (f : num -> num) (lo hi : num) (maxIter : nat) : num :=
  let b := mkBracket lo hi (f lo) (f hi) in
  let b := if b_fLo b * b_fHi b >? #0 then irr_probe f b irr_tests else b in
  bisectLoop f maxIter b.

(** One pass through the Newton loop of [calculateIRR]
    ([nw_bestF] is [bestNPV]). *)
Definition irr_step (f df : num -> num) (s : newton) : newton * bool :=
  let r := nw_i s in
  let npv := f r in
  if Num.abs npv <? #1e-10 then (mkNewton r r (nw_bestF s), true)
  else
    let s1 := if Num.abs npv <? nw_bestF s
              then mkNewton r r (Num.abs npv) else s in
    let deriv := df r in
    if Num.abs deriv <? #1e-15 then (s1, true)
    else
      let newR := r - npv / deriv in
      let newR := if newR <=? #(-0.99) then (r - #0.99) / #2 else newR in
      let newR := if newR >? #10 then (r + #10) / #2 else newR in
      if Num.abs (newR - r) <? #1e-10
      then (mkNewton r newR (nw_bestF s1), true)
      else (mkNewton newR (nw_bestI s1) (nw_bestF s1), false).

Fixpoint irr_newton (f df : num -> num) (iters : nat) (s : newton) : newton :=
  match iters with
  | O => s
  | S k =>
      let (s', stop) := irr_step f df s in
      if stop then s' else irr_newton f df k s'
  end.

(** [bestR] after the Newton phase of [calculateIRR]. *)
Definition irr_newtonBest (cashFlows : list num) : num :=
  let r := #0.1 in
  nw_bestI (irr_newton (npvFunc cashFlows) (npvDerivative cashFlows) 100
              (mkNewton r r (Num.abs (npvFunc cashFlows r)))).

(** [bestR] when [calculateIRR] converts it. *)
Definition irr_periodic (cashFlows : list num) : num :=
  let bestR := irr_newtonBest cashFlows in
  if Num.abs (npvFunc cashFlows bestR) >? #1e-6
  then bisectionIRR (npvFunc cashFlows) #(-0.99) #2 100
  else bestR.

Definition hasPositive (cashFlows : list num) : bool :=
  existsb (fun c => c >? #0) cashFlows.

Definition hasNegative (cashFlows : list num) : bool :=
  existsb (fun c => c <? #0) cashFlows.

(** [calculateIRR]: [None] stands for the three error returns, [Some] holds
    [irrAnnual], the value stored into I/Y. *)
Definition calculateIRR (cashFlows : list num) (py : num) : option num :=
  if Nat.ltb (List.length cashFlows) 2 then None
  else if py <=? #0 then None
  else if negb (hasPositive cashFlows) || negb (hasNegative cashFlows) then None
  else Some (irr_periodic cashFlows * py * #100).

(* ================================================================== *)
(** * Amortization *)
(* ================================================================== *)

Record amortResult : Type := mkAmort {
  principal : num;
  interest : num;
  balance : num
}.

(** The body of the loop of [calculateAmort] for one [period]. *)
Definition amortPeriod (i pmt : num) (isBegin : bool) (p1 period : nat)
    (a : amortResult) : amortResult :=
  if isBegin then
    let principalPayment := - pmt in
    let balance1 := balance a + principalPayment in
    let interestPayment := balance1 * i in
    let balance2 := balance1 + interestPayment in
    if Nat.leb p1 period
    then mkAmort (principal a + principalPayment) (interest a + interestPayment) balance2
    else mkAmort (principal a) (interest a) balance2
  else
    let interestPayment := balance a * i in
    let principalPayment := - pmt - interestPayment in
    let balance1 := balance a + (interestPayment + pmt) in
    if Nat.leb p1 period
    then mkAmort (principal a + principalPayment) (interest a + interestPayment) balance1
    else mkAmort (principal a) (interest a) balance1.

(** [count] more passes of the loop, the next one for [period]. *)
Fixpoint amortLoop (i pmt : num) (isBegin : bool) (p1 : nat)
    (count period : nat) (a : amortResult) : amortResult :=
  match count with
  | O => a
  | S k => amortLoop i pmt isBegin p1 k (S period)
             (amortPeriod i pmt isBegin p1 period a)
  end.

(** [for (period = 1; period <= p2; period++)] from
    [balance = pv, totalPrincipal = 0, totalInterest = 0]. *)
Definition amortize (i pv pmt : num) (isBegin : bool) (p1 p2 : nat) : amortResult :=
  amortLoop i pmt isBegin p1 p2 1 (mkAmort #0 #0 pv).

(** [calculateAmort] for the window [p1..p2] ([state.amortP1],
    [state.amortP2]); [None] is [amortResults = null]. *)
Definition calculateAmort (st : state) (p1 p2 : nat) : option amortResult :=
  if isNull (st_N st) || isNull (st_IY st) || isNull (st_PV st) || isNull (st_PMT st)
  then None
  else if (st_py st <=? #0) || (st_cy st <=? #0) then None
  else
    let pv := numOfReg (st_PV st) in
    let pmt := numOfReg (st_PMT st) in
    let i := getPeriodicRate (numOfReg (st_IY st)) (st_cy st) (st_py st) in
    Some (amortize i pv pmt (st_BGN st) p1 p2).

(* ================================================================== *)
(** * Specification-side definitions *)
(* ================================================================== *)

(* ------------------------------------------------------------------ *)
(** ** The formulas in the specification's words *)

(** The annuity factor in the specification's words: [n] when
    [|i| < 1e-10], otherwise [((1+i)^n - 1)/i], multiplied by [(1+i)] when
    payments fall at the beginning of a period. *)
Definition af_spec (i n : num) (begin : bool) : num :=
  if Num.abs i <? #1e-10 then n
  else if begin then (Num.pow (#1 + i) n - #1) / i * (#1 + i)
  else (Num.pow (#1 + i) n - #1) / i.

(** The amortization step in the specification's words.
    END: [interest = balance*i; principal = -pmt - interest;
          balance += interest + pmt].
    BEGIN: [principal = -pmt; balance += principal;
            interest = balance*i; balance += interest]. *)
Definition spec_interest_at (begin : bool) (i pmt bal : num) : num :=
  if begin then (bal + - pmt) * i else bal * i.

Definition spec_principal_at (begin : bool) (i pmt bal : num) : num :=
  if begin then - pmt else - pmt - bal * i.

Definition spec_balance_after (begin : bool) (i pmt bal : num) : num :=
  if begin then (bal + - pmt) + (bal + - pmt) * i
  else bal + (bal * i + pmt).

(** The running balance after [k] periods, starting from [pv]. *)
Fixpoint spec_balance (begin : bool) (i pv pmt : num) (k : nat) : num :=
  match k with
  | O => pv
  | S k' => spec_balance_after begin i pmt (spec_balance begin i pv pmt k')
  end.

(** The principal and interest portions of period [k] (from 1). *)
Definition spec_principal (begin : bool) (i pv pmt : num) (k : nat) : num :=
  spec_principal_at begin i pmt (spec_balance begin i pv pmt (k - 1)).

Definition spec_interest (begin : bool) (i pv pmt : num) (k : nat) : num :=
  spec_interest_at begin i pmt (spec_balance begin i pv pmt (k - 1)).

(** The sum of the portions of the periods [p1..p2], added in order to 0. *)
Definition spec_window_sum (portion : nat -> num) (p1 p2 : nat) : num :=
  fold_left Num.add (map portion (seq p1 (S p2 - p1))) #0.

(* ------------------------------------------------------------------ *)
(** ** Outcomes and preconditions of CPT *)

(** A call has failed when it leaves an error message. *)
Definition failed (st : state) : bool :=
  match st_message st with
  | Some (mkMessage _ error) => true
  | _ => false
  end.

(** A call has solved for a register when it leaves a success message. *)
Definition solved (st : state) : bool :=
  match st_message st with
  | Some (mkMessage _ success) => true
  | _ => false
  end.

(** The frequencies are set: [py > 0] and [cy > 0]. *)
Definition validFrequencies (st : state) : bool :=
  (st_py st >? #0) && (st_cy st >? #0).

(* ------------------------------------------------------------------ *)
(** ** The solvers on real numbers *)

(** The annuity factor on reals, given the value [c] of [(1+i)^n]. *)
Definition afR (i n c : R) (begin : bool) : R :=
  if Rltb (Rabs i) 1e-10 then n
  else if begin then ((c - 1) / i * (1 + i))%R
  else ((c - 1) / i)%R.

(** The residual of the rate search and its derivative on reals, for a
    rate [i > -1]. *)
Definition fR (n pv pmt fv : R) (begin : bool) (i : R) : R :=
  (fv - pv * Rpower (1 + i) n
   - pmt * afR i n (Rpower (1 + i) n) begin)%R.

Definition dfR (n pv pmt : R) (begin : bool) (i : R) : R :=
  if Rltb (Rabs i) 1e-10 then (- pv * n - pmt * n * (n + 1) / 2)%R
  else
    let c := Rpower (1 + i) n in
    let d := Rpower (1 + i) (n - 1) in
    let af := ((c - 1) / i)%R in
    let dAf := ((n * d * i - (c - 1)) / (i * i))%R in
    (- pv * (n * d) - pmt * (if begin then dAf * (1 + i) + af else dAf))%R.

(** END timing on reals: the balance after [k] more periods, and the sum
    [1 + x + ... + x^(k-1)] of the growth factors. *)
Fixpoint endBalance (i pmt : R) (k : nat) (b : R) : R :=
  match k with
  | O => b
  | S k' => endBalance i pmt k' (b + (b * i + pmt))
  end.

Fixpoint geomSum (x : R) (k : nat) : R :=
  match k with
  | O => 0
  | S k' => (geomSum x k' + x ^ k')%R
  end.

(** The NPV loop on reals, with [y = 1 + r] non-zero. *)
Fixpoint npvR (y : R) (cashFlows : list R) (t : nat) (npv : R) : R :=
  match cashFlows with
  | [] => npv
  | c :: rest => npvR y rest (S t) (npv + c / y ^ t)
  end.

(* ------------------------------------------------------------------ *)
(** ** Invariants of the rate search *)

(** The range the Newton phase of [solveIY] keeps its rates in, and the
    states of the loop whose current and best rates are numbers in it. *)
Definition inRange (x : R) : Prop := (-0.99 < x <= 10)%R.

Definition newton_ok (s : newton) : Prop :=
  exists x y : R,
    nw_i s = #x /\ nw_bestI s = #y /\ inRange x /\ inRange y.

(** A bracket whose ends are numbers [lo <= hi] inside [[L, H]]. *)
Definition bracket_ok (L H : R) (b : bracket) : Prop :=
  exists lo hi : R,
    b_lo b = #lo /\ b_hi b = #hi /\ (L <= lo)%R /\ (lo <= hi)%R /\ (hi <= H)%R.

(* ------------------------------------------------------------------ *)
(** ** Sample inputs *)

(** A state with every register set, FV computed last. *)
Definition all_set_state : state :=
  mkState (Some #1) (Some #0) (Some #1) (Some #0) (Some #5)
    #1 #1 false (Typed "0") true None None (Some VarFV) false false None.

(** A state with two registers unset. *)
Definition two_blank_state : state :=
  mkState None None (Some #1) (Some #0) (Some #5)
    #1 #1 false (Typed "0") true None None None false false None.

(** A state whose frequencies were never set. *)
Definition unset_frequency_state : state :=
  mkState (Some #1) None (Some #1) (Some #0) (Some #5)
    #0 #0 false (Typed "0") true None None None false false None.

(** A state with I/Y unset: 100 growing to 110 over one period. *)
Definition rate_state : state :=
  mkState (Some #1) None (Some #100) (Some #0) (Some #110)
    #1 #1 false (Typed "0") true None None None false false None.


(** An outlay of 1 returning 1.1 after one period. *)
Definition one_return_flows : list num := [#(-1); #1.1].

(* ================================================================== *)
(** * Further operations on the calculator state *)
(* ================================================================== *)

Definition setSelectedVar (v : option string) (st : state) : state :=
  mkState (st_N st) (st_IY st) (st_PV st) (st_PMT st) (st_FV st)
    (st_py st) (st_cy st) (st_BGN st) (st_entry st) (st_isNewEntry st)
    v (st_lastComputed st) (st_lastComputedVar st)
    (st_rclMode st) (st_computeArmed st) (st_message st).

Definition setLastComputedVar (v : option tvmVar) (st : state) : state :=
  mkState (st_N st) (st_IY st) (st_PV st) (st_PMT st) (st_FV st)
    (st_py st) (st_cy st) (st_BGN st) (st_entry st) (st_isNewEntry st)
    (st_selectedVar st) (st_lastComputed st) v
    (st_rclMode st) (st_computeArmed st) (st_message st).

Definition setEntry (e : entryBuf) (isNewEntry : bool) (st : state) : state :=
  mkState (st_N st) (st_IY st) (st_PV st) (st_PMT st) (st_FV st)
    (st_py st) (st_cy st) (st_BGN st) e isNewEntry
    (st_selectedVar st) (st_lastComputed st) (st_lastComputedVar st)
    (st_rclMode st) (st_computeArmed st) (st_message st).

Definition setPyField (x : num) (st : state) : state :=
  mkState (st_N st) (st_IY st) (st_PV st) (st_PMT st) (st_FV st)
    x (st_cy st) (st_BGN st) (st_entry st) (st_isNewEntry st)
    (st_selectedVar st) (st_lastComputed st) (st_lastComputedVar st)
    (st_rclMode st) (st_computeArmed st) (st_message st).

Definition setCyField (x : num) (st : state) : state :=
  mkState (st_N st) (st_IY st) (st_PV st) (st_PMT st) (st_FV st)
    (st_py st) x (st_BGN st) (st_entry st) (st_isNewEntry st)
    (st_selectedVar st) (st_lastComputed st) (st_lastComputedVar st)
    (st_rclMode st) (st_computeArmed st) (st_message st).

Definition tvmVar_eqb (a b : tvmVar) : bool :=
  match a, b with
  | VarN, VarN | VarIY, VarIY | VarPV, VarPV
  | VarPMT, VarPMT | VarFV, VarFV => true
  | _, _ => false
  end.

(** [varName === 'IY' ? 'I/Y' : varName] *)
Definition varLabel (v : tvmVar) : string :=
  match v with
  | VarIY => "I/Y"
  | _ => varName v
  end.

(** [clearRegister(varName)] for one of the five TVM keys (the only
    arguments [handleKeyClick] passes). *)
Definition clearRegister (v : tvmVar) (st : state) : state :=
  let st := clearMessage st in
  let st := setRclMode false st in
  let st := setComputeArmed false st in
  let st := setReg v None st in
  let st := setSelectedVar (Some (varName v)) st in
  let st := match st_lastComputedVar st with
            | Some w => if tvmVar_eqb w v then setLastComputedVar None st else st
            | None => st
            end in
  let st := showMessage (Text (varLabel v ++ " cleared")) info st in
  setEntry (Typed "0") true st.

(** [Number.isInteger] *)
Definition isInteger (a : num) : bool :=
  match a with
  | Fin x => Num.is_int x
  | _ => false
  end.

(** [setPY(value)] and [setCY(value)]: the new state and the boolean
    returned. *)
Definition setPY (value : num) (st : state) : state * bool :=
  if negb (isInteger value)
  then (showMessage (Text "P/Y must be integer") error st, false)
  else if (value <? #1) || (value >? #999)
  then (showMessage (Text "P/Y must be 1-999") error st, false)
  else (setPyField value st, true).

Definition setCY (value : num) (st : state) : state * bool :=
  if negb (isInteger value)
  then (showMessage (Text "C/Y must be integer") error st, false)
  else if (value <? #1) || (value >? #999)
  then (showMessage (Text "C/Y must be 1-999") error st, false)
  else (setCyField value st, true).

(** [vars.indexOf(x)] from position [i]: the first position of [x], or -1. *)
Fixpoint indexOfFrom (x : option string) (l : list string) (i : Z) : Z :=
  match l with
  | [] => (-1)%Z
  | y :: rest =>
      match x with
      | Some s => if String.eqb s y then i else indexOfFrom x rest (i + 1)%Z
      | None => indexOfFrom x rest (i + 1)%Z
      end
  end.

Definition navVars : list string :=
  ["N"%string; "IY"%string; "PV"%string; "PMT"%string; "FV"%string].

(** [vars[k]] for an index inside the array. *)
Definition navVar (k : Z) : option string :=
  nth_error navVars (Z.to_nat k).

Definition selectVariable (varName : option string) (st : state) : state :=
  setSelectedVar varName st.

Definition navigateUp (st : state) : state :=
  let currentIdx := indexOfFrom (st_selectedVar st) navVars 0 in
  if (0 <? currentIdx)%Z
  then selectVariable (navVar (currentIdx - 1)) st
  else selectVariable (navVar (Z.of_nat (List.length navVars) - 1)) st.

Definition navigateDown (st : state) : state :=
  let currentIdx := indexOfFrom (st_selectedVar st) navVars 0 in
  if ((currentIdx <? Z.of_nat (List.length navVars) - 1)
      && (0 <=? currentIdx))%Z
  then selectVariable (navVar (currentIdx + 1)) st
  else selectVariable (navVar 0) st.

(** No register holds NaN or an infinity. *)
Definition registersFinite (st : state) : Prop :=
  forall (v : tvmVar) (x : num), getReg st v = Some x -> Num.isFinite x = true.

(* ------------------------------------------------------------------ *)
(** ** The cash-flow worksheet *)

(** [state.mode]: ['tvm'], ['cf'] or ['amort']. *)
Inductive mode : Type := ModeTvm | ModeCf | ModeAmort.

(** A JavaScript array of numbers; [None] is a hole, which reads as
    [undefined]. *)
Definition jsArray : Type := list (option num).

(** [a[i]] *)
Definition arrayGet (a : jsArray) (i : nat) : option num :=
  match nth_error a i with
  | Some x => x
  | None => None
  end.

(** [a[i] = v]: past the end the array grows, leaving holes. *)
Fixpoint arraySet (a : jsArray) (i : nat) (v : num) : jsArray :=
  match a, i with
  | [], O => [Some v]
  | [], S k => None :: arraySet [] k v
  | _ :: rest, O => Some v :: rest
  | x :: rest, S k => x :: arraySet rest k v
  end.

(** [a.splice(start, 1)]; a [start] past the end removes nothing. *)
Definition spliceDelete (a : jsArray) (start : nat) : jsArray :=
  firstn start a ++ skipn (S start) a.

(** [a.splice(start, 0, v)]; a [start] past the end appends. *)
Definition spliceInsert (a : jsArray) (start : nat) (v : num) : jsArray :=
  firstn start a ++ Some v :: skipn start a.

(** The texts the worksheet shows: a fixed string, or the template
    [`CF${cfIndex} = ${formatNumber(value)}`]. *)
Inductive cfText : Type :=
| CfText (s : string)
| CfStored (cfIndex : nat) (value : num).

(** The entry buffer in the worksheet: typed text, or [String(x)] of an
    array element. *)
Inductive cfEntry : Type :=
| CfTyped (s : string)
| StringOf (x : option num).

(** The fields of [state] the worksheet functions read and write.
    [cfIndex] starts at 0 and is only ever incremented, decremented when
    positive, or set to the last position of a non-empty array, so it is
    a natural number. *)
Record worksheet : Type := mkWorksheet {
  ws_mode : mode;
  ws_cashFlows : jsArray;
  ws_cfIndex : nat;
  ws_entry : cfEntry;
  ws_isNewEntry : bool;
  ws_message : option (cfText * msgType)
}.

Definition wsShowMessage (msg : cfText) (type : msgType) (w : worksheet)
    : worksheet :=
  mkWorksheet (ws_mode w) (ws_cashFlows w) (ws_cfIndex w) (ws_entry w)
    (ws_isNewEntry w) (Some (msg, type)).

Definition wsSetMode (newMode : mode) (w : worksheet) : worksheet :=
  mkWorksheet newMode (ws_cashFlows w) (ws_cfIndex w) (ws_entry w)
    (ws_isNewEntry w) (ws_message w).

Definition wsSetFlows (a : jsArray) (cfIndex : nat) (w : worksheet) : worksheet :=
  mkWorksheet (ws_mode w) a cfIndex (ws_entry w) (ws_isNewEntry w)
    (ws_message w).

Definition wsSetEntry (e : cfEntry) (isNewEntry : bool) (w : worksheet)
    : worksheet :=
  mkWorksheet (ws_mode w) (ws_cashFlows w) (ws_cfIndex w) e isNewEntry
    (ws_message w).

(** [cashFlows.length - 1], as a position. *)
Definition lastIndex (a : jsArray) : nat :=
  Z.to_nat (Z.of_nat (List.length a) - 1).

(** The worksheet of a freshly loaded page: [cashFlows: [0], cfIndex: 0]. *)
Definition initialWorksheet : worksheet :=
  mkWorksheet ModeTvm [Some #0] 0 (CfTyped "0") true None.

Definition enterCFMode (w : worksheet) : worksheet :=
  match ws_mode w with
  | ModeCf =>
      wsShowMessage (CfText "Exited Cash Flow mode") info (wsSetMode ModeTvm w)
  | _ =>
      wsShowMessage (CfText "Cash Flow mode - Enter CF0") info
        (wsSetFlows (ws_cashFlows w) 0 (wsSetMode ModeCf w))
  end.

Definition navigateCF (direction : string) (w : worksheet) : worksheet :=
  match ws_mode w with
  | ModeCf =>
      let w :=
        if String.eqb direction "up" && Nat.ltb 0 (ws_cfIndex w)
        then wsSetFlows (ws_cashFlows w) (ws_cfIndex w - 1) w
        else if String.eqb direction "down" then
          if (Z.of_nat (ws_cfIndex w)
              <? Z.of_nat (List.length (ws_cashFlows w)) - 1)%Z
          then wsSetFlows (ws_cashFlows w) (ws_cfIndex w + 1) w
          else
            let a := ws_cashFlows w ++ [Some #0] in
            wsSetFlows a (lastIndex a) w
        else w in
      wsSetEntry (StringOf (arrayGet (ws_cashFlows w) (ws_cfIndex w))) true w
  | _ => w
  end.

(** [storeCashFlow], with [value] the number [getEntryValue()] returns. *)
Definition storeCashFlow (value : num) (w : worksheet) : worksheet :=
  match ws_mode w with
  | ModeCf =>
      let w := wsSetFlows (arraySet (ws_cashFlows w) (ws_cfIndex w) value)
                 (ws_cfIndex w) w in
      let w := wsShowMessage (CfStored (ws_cfIndex w) value) success w in
      wsSetEntry (ws_entry w) true w
  | _ => w
  end.

Definition deleteCashFlow (w : worksheet) : worksheet :=
  match ws_mode w with
  | ModeCf =>
      let w :=
        if Nat.leb (List.length (ws_cashFlows w)) 1
        then wsShowMessage (CfText "CF0 reset to 0") info
               (wsSetFlows (arraySet (ws_cashFlows w) 0 #0) (ws_cfIndex w) w)
        else if Nat.ltb 0 (ws_cfIndex w) then
          let a := spliceDelete (ws_cashFlows w) (ws_cfIndex w) in
          let cfIndex := if Nat.leb (List.length a) (ws_cfIndex w)
                         then lastIndex a else ws_cfIndex w in
          wsShowMessage (CfText "Cash flow deleted") info (wsSetFlows a cfIndex w)
        else wsShowMessage (CfText "Cannot delete CF0") error w in
      wsSetEntry (StringOf (arrayGet (ws_cashFlows w) (ws_cfIndex w))) true w
  | _ => w
  end.

(** The [INS] case of [handleKeyClick]. *)
Definition handleKeyClick_INS (w : worksheet) : worksheet :=
  match ws_mode w with
  | ModeCf =>
      let w := wsSetFlows (spliceInsert (ws_cashFlows w) (ws_cfIndex w + 1) #0)
                 (ws_cfIndex w + 1) w in
      let w := wsSetEntry (CfTyped "0") true w in
      wsShowMessage (CfText "Cash flow inserted") info w
  | _ => w
  end.

(** Every element of the series is a number and the selected position
    lies inside it. *)
Definition isNumber (x : option num) : bool :=
  match x with Some _ => true | None => false end.

Definition wsWellFormed (w : worksheet) : bool :=
  forallb isNumber (ws_cashFlows w)
  && Nat.ltb (ws_cfIndex w) (List.length (ws_cashFlows w)).

(* ------------------------------------------------------------------ *)
(** ** Storing a register and resetting *)

(** [storeVariable(varName)] for one of the five TVM keys, with [value]
    the number [getEntryValue()] returns. *)
Definition storeVariable (v : tvmVar) (value : num) (st : state) : state :=
  let st := clearMessage st in
  let st := setRclMode false st in
  let st := setComputeArmed false st in
  let st := setReg v (Some value) st in
  let st := setSelectedVar (Some (varName v)) st in
  let st := match st_lastComputedVar st with
            | Some w => if tvmVar_eqb w v then setLastComputedVar None st else st
            | None => st
            end in
  let st := showMessage (ResultText v value) success st in
  setEntry (Typed "0") true st.

(** [reset], on the fields of [state] that the TVM functions use. *)
Definition reset (st : state) : state :=
  mkState None None None None None
    #0 #0 false (Typed "0") true None None None false (st_computeArmed st)
    (Some (mkMessage (Text "Calculator reset") info)).

(** The keys [value N], [value I/Y], [value PV], [value PMT], then [FV]
    with nothing typed. *)
Definition keyInForFV (n iy pv pmt : num) (st : state) : state :=
  clearRegister VarFV
    (storeVariable VarPMT pmt
       (storeVariable VarPV pv
          (storeVariable VarIY iy
             (storeVariable VarN n st)))).

(* ------------------------------------------------------------------ *)
(** ** Moving through the amortization schedule *)

(** [Math.floor] *)
Definition floorNum (a : num) : num :=
  match a with
  | Fin x => Fin (IZR (Int_part x))
  | _ => a
  end.

(** The fields of [state] that belong to the amortization view.  The
    window bounds start at 1 and move by one, so they are natural
    numbers. *)
Record amortView : Type := mkAmortView {
  av_mode : mode;
  av_amortP1 : nat;
  av_amortP2 : nat;
  av_amortResults : option amortResult
}.

(** [calculateAmort()] as a step on the state and the view: the results
    of the window, and the entry buffer showing the balance when there
    are results. *)
Definition calculateAmortStep (st : state) (a : amortView)
    : state * amortView :=
  let results := calculateAmort st (av_amortP1 a) (av_amortP2 a) in
  (match results with
   | Some r => setEntry (Formatted (balance r)) true st
   | None => st
   end,
   mkAmortView (av_mode a) (av_amortP1 a) (av_amortP2 a) results).

Definition navigateAmort (direction : string) (st : state) (a : amortView)
    : state * amortView :=
  match av_mode a with
  | ModeAmort =>
      let maxN := floorNum (numOfReg (st_N st)) in
      let a :=
        if String.eqb direction "up" then
          if Nat.ltb 1 (av_amortP1 a)
          then mkAmortView (av_mode a) (av_amortP1 a - 1) (av_amortP1 a - 1)
                 (av_amortResults a)
          else a
        else if String.eqb direction "down" then
          if #(INR (av_amortP2 a)) <? maxN
          then mkAmortView (av_mode a) (av_amortP2 a + 1) (av_amortP2 a + 1)
                 (av_amortResults a)
          else a
        else a in
      calculateAmortStep st a
  | _ => (st, a)
  end.

(** The window is a single period, from 1 up to [Math.floor(N)] (or
    period 1 when N is below 1). *)
Definition singlePeriod (st : state) (a : amortView) : Prop :=
  av_amortP1 a = av_amortP2 a
  /\ (1 <= av_amortP1 a)%nat
  /\ (av_amortP1 a = 1%nat
      \/ (#(INR (av_amortP1 a)) <=? floorNum (numOfReg (st_N st))) = true).

(* ------------------------------------------------------------------ *)
(** ** The entry buffer *)

(** The fields of [state] the digit, sign and backspace keys work on;
    here the entry is the text itself. *)
Record keypad : Type := mkKeypad {
  kp_entry : string;
  kp_isNewEntry : bool;
  kp_rclMode : bool;
  kp_computeArmed : bool;
  kp_message : option message
}.

Definition isDigit (c : ascii) : bool :=
  (Nat.leb 48 (nat_of_ascii c)) && (Nat.leb (nat_of_ascii c) 57).

Definition isDot (c : ascii) : bool := Ascii.eqb c "."%char.

(** The number of characters of [s] that satisfy [p]. *)
Fixpoint countChars (p : ascii -> bool) (s : string) : nat :=
  match s with
  | EmptyString => 0
  | String c rest => (if p c then 1 else 0) + countChars p rest
  end.

(** [s.includes('.')] *)
Definition includesDot (s : string) : bool := Nat.ltb 0 (countChars isDot s).

(** [s.replace(/[^0-9]/g, '').length] *)
Definition digitCount (s : string) : nat := countChars isDigit s.

(** [s.startsWith('-')] *)
Definition startsWithMinus (s : string) : bool :=
  match s with
  | String c _ => Ascii.eqb c "-"%char
  | EmptyString => false
  end.

(** [s.substring(1)] *)
Definition substring1 (s : string) : string :=
  match s with
  | String _ rest => rest
  | EmptyString => EmptyString
  end.

(** [s.slice(0, -1)] *)
Fixpoint sliceLast (s : string) : string :=
  match s with
  | EmptyString => EmptyString
  | String c rest =>
      match rest with
      | EmptyString => EmptyString
      | _ => String c (sliceLast rest)
      end
  end.

Definition kpSetEntry (e : string) (isNewEntry : bool) (k : keypad) : keypad :=
  mkKeypad e isNewEntry (kp_rclMode k) (kp_computeArmed k) (kp_message k).

Definition appendDigit (digit : string) (k : keypad) : keypad :=
  let k := mkKeypad (kp_entry k) (kp_isNewEntry k) false false None in
  if kp_isNewEntry k
  then kpSetEntry (if String.eqb digit "." then "0." else digit) false k
  else if String.eqb digit "." && includesDot (kp_entry k) then k
  else if Nat.leb 12 (digitCount (kp_entry k)) then k
  else if String.eqb (kp_entry k) "-" && String.eqb digit "."
  then kpSetEntry "-0." (kp_isNewEntry k) k
  else kpSetEntry (kp_entry k ++ digit) (kp_isNewEntry k) k.

Definition negateEntry (k : keypad) : keypad :=
  let k := mkKeypad (kp_entry k) (kp_isNewEntry k) false (kp_computeArmed k)
             None in
  if kp_isNewEntry k && String.eqb (kp_entry k) "0"
  then kpSetEntry "-" false k
  else if String.eqb (kp_entry k) "-"
  then kpSetEntry "0" true k
  else if startsWithMinus (kp_entry k)
  then kpSetEntry (substring1 (kp_entry k)) (kp_isNewEntry k) k
  else kpSetEntry (String "-" (kp_entry k)) (kp_isNewEntry k) k.

Definition deleteLastChar (k : keypad) : keypad :=
  let k := mkKeypad (kp_entry k) (kp_isNewEntry k) false false (kp_message k) in
  if kp_isNewEntry k && String.eqb (kp_entry k) "0"
  then k
  else if Nat.leb (String.length (kp_entry k)) 1
          || (Nat.eqb (String.length (kp_entry k)) 2
              && startsWithMinus (kp_entry k))
  then kpSetEntry "0" true k
  else kpSetEntry (sliceLast (kp_entry k)) (kp_isNewEntry k) k.

Definition hasEntryValue (k : keypad) : bool :=
  if kp_isNewEntry k then false
  else if String.eqb (kp_entry k) "-" then false
  else true.

(** What a digit key or the decimal-point key passes to [appendDigit]. *)
Definition keyText (digit : string) : bool :=
  match digit with
  | String c EmptyString => isDigit c || isDot c
  | _ => false
  end.

(** At most one decimal point and at most twelve digits. *)
Definition entryInBounds (k : keypad) : bool :=
  Nat.leb (countChars isDot (kp_entry k)) 1
  && Nat.leb (digitCount (kp_entry k)) 12.

(* ================================================================== *)
(** * JavaScript numbers in binary64 arithmetic *)
(* ================================================================== *)

(** The numbers of JavaScript are IEEE 754 binary64 values: the result of
    an arithmetic operation is the exact result rounded to the nearest
    representable value, ties to even, and a result of magnitude
    [2^1024] or more after rounding is an infinity.  [Binary64.round]
    is that rounding on the reals; the operations round the result of
    the exact ones, whose special cases they keep.  Zero is unsigned, as
    in the exact model. *)
Module Binary64.

(** The binade of a non-zero [x]: the [k] with [2^k <= |x| < 2^(k+1)]. *)
Definition ilog2 (x : R) : Z := Int_part (ln (Rabs x) / ln 2).

(** The exponent of the spacing of the representable values around [x]:
    53 significant bits, and nothing finer than [2^-1074]. *)
Definition ulpExp (x : R) : Z := Z.max (ilog2 x - 52) (-1074).

(** The integer nearest to [y], the even one of two equally near. *)
Definition nearestEven (y : R) : Z :=
  let n := Int_part y in
  if Rltb (y - IZR n) (/ 2) then n
  else if Rltb (/ 2) (y - IZR n) then (n + 1)%Z
  else if Z.even n then n else (n + 1)%Z.

Definition round (x : R) : num :=
  if Reqb x 0 then Fin 0
  else
    let e := ulpExp x in
    let y := (IZR (nearestEven (x * powerRZ 2 (- e))) * powerRZ 2 e)%R in
    if Rleb (powerRZ 2 1024) (Rabs y)
    then (if Rltb 0 x then PInf else NInf)
    else Fin y.

(** Rounding of a result of the exact model. *)
Definition rounded (a : num) : num :=
  match a with
  | Fin x => round x
  | _ => a
  end.

Definition add (a b : num) : num := rounded (Num.add a b).
Definition mul (a b : num) : num := rounded (Num.mul a b).
Definition div (a b : num) : num := rounded (Num.div a b).

(** [Math.pow] is implementation-approximated in ECMAScript; this is the
    correctly rounded one.  Statements that hold for every [Math.pow] are
    made for an arbitrary function in its place. *)
Definition pow (a b : num) : num := rounded (Num.pow a b).

(** The unit roundoff and half the smallest positive value. *)
Definition u : R := powerRZ 2 (-53).
Definition eta : R := powerRZ 2 (-1075).

(** The bound on the rounding error of a finite result [z]. *)
Definition eps (z : R) : R := (u * Rabs z + eta)%R.

End Binary64.

(* ================================================================== *)
(** * The TVM math over the arithmetic of an engine *)
(* ================================================================== *)

(** What the code takes from the JavaScript engine: the value of a
    decimal literal, [+], [*], [/] and [Math.pow].  Subtraction is the
    addition of the opposite; negation, [Math.abs] and the comparisons
    are exact in every engine. *)
Record engine : Type := mkEngine {
  e_lit : R -> num;
  e_add : num -> num -> num;
  e_mul : num -> num -> num;
  e_div : num -> num -> num;
  e_pow : num -> num -> num
}.

(** The exact arithmetic of the first part of this file. *)
Definition exactEngine : engine :=
  mkEngine Fin Num.add Num.mul Num.div Num.pow.

(** Binary64 arithmetic with a given [Math.pow]. *)
Definition binary64 (pow : num -> num -> num) : engine :=
  mkEngine Binary64.round Binary64.add Binary64.mul Binary64.div pow.

(** The functions of [src/app.js] again, word for word as above, over the
    arithmetic of an engine [E]. *)
Module Engine.
Section Functions.

Variable E : engine.

Local Notation "a +. b" := (e_add E a b) (at level 50, left associativity).
Local Notation "a -. b" := (e_add E a (Num.neg b))
  (at level 50, left associativity).
Local Notation "a *. b" := (e_mul E a b) (at level 40, left associativity).
Local Notation "a /. b" := (e_div E a b) (at level 40, left associativity).

Definition annuityFactor (i n : num) (isBegin : bool) : num :=
  if Num.abs i <? e_lit E 1e-10 then n
  else
    let factor := (e_pow E (e_lit E 1 +. i) n -. e_lit E 1) /. i in
    if isBegin then factor *. (e_lit E 1 +. i) else factor.

Definition solveFV (n i pv pmt : num) (isBegin : bool) : num :=
  let compoundFactor := e_pow E (e_lit E 1 +. i) n in
  let af := annuityFactor i n isBegin in
  pv *. compoundFactor +. pmt *. af.

Definition solvePV (n i pmt fv : num) (isBegin : bool) : num :=
  let compoundFactor := e_pow E (e_lit E 1 +. i) n in
  let af := annuityFactor i n isBegin in
  (fv -. pmt *. af) /. compoundFactor.

Definition solvePMT (n i pv fv : num) (isBegin : bool) : num :=
  let compoundFactor := e_pow E (e_lit E 1 +. i) n in
  let af := annuityFactor i n isBegin in
  if Num.abs af <? e_lit E 1e-15 then NaN
  else (fv -. pv *. compoundFactor) /. af.

Definition solveIY_f (n pv pmt fv : num) (isBegin : jsval) (i : num) : num :=
  let compoundFactor := e_pow E (e_lit E 1 +. i) n in
  let af := annuityFactor i n (toBoolean isBegin) in
  fv -. pv *. compoundFactor -. pmt *. af.

Definition solveIY_df (n pv pmt : num) (isBegin : jsval) (i : num) : num :=
  if Num.abs i <? e_lit E 1e-10
  then (Num.neg pv) *. n -. pmt *. n *. (n +. e_lit E 1) /. e_lit E 2
  else
    let onePlusI := e_lit E 1 +. i in
    let onePlusIN := e_pow E onePlusI n in
    let dCompound := n *. e_pow E onePlusI (n -. e_lit E 1) in
    let af := (onePlusIN -. e_lit E 1) /. i in
    let dAf := (n *. e_pow E onePlusI (n -. e_lit E 1) *. i
                -. (onePlusIN -. e_lit E 1))
               /. (i *. i) in
    let dAfBgn := if toBoolean isBegin then dAf *. onePlusI +. af else dAf in
    (Num.neg pv) *. dCompound -. pmt *. dAfBgn.

Definition solveIY_step (f df : num -> num) (s : newton) : newton * bool :=
  let i := nw_i s in
  let fVal := f i in
  if Num.abs fVal <? e_lit E 1e-10 then (mkNewton i i (nw_bestF s), true)
  else
    let s1 := if Num.abs fVal <? nw_bestF s
              then mkNewton i i (Num.abs fVal) else s in
    let dfVal := df i in
    if Num.abs dfVal <? e_lit E 1e-15 then (s1, true)
    else
      let newI := i -. fVal /. dfVal in
      let newI := if newI <=? Num.neg (e_lit E 0.99)
                  then i /. e_lit E 2 else newI in
      let newI := if newI >? e_lit E 10
                  then (i +. e_lit E 10) /. e_lit E 2 else newI in
      if Num.abs (newI -. i) <? e_lit E 1e-12
      then (mkNewton i newI (nw_bestF s1), true)
      else (mkNewton newI (nw_bestI s1) (nw_bestF s1), false).

Definition amortPeriod (i pmt : num) (isBegin : bool) (p1 period : nat)
    (a : amortResult) : amortResult :=
  if isBegin then
    let principalPayment := Num.neg pmt in
    let balance1 := balance a +. principalPayment in
    let interestPayment := balance1 *. i in
    let balance2 := balance1 +. interestPayment in
    if Nat.leb p1 period
    then mkAmort (principal a +. principalPayment)
           (interest a +. interestPayment) balance2
    else mkAmort (principal a) (interest a) balance2
  else
    let interestPayment := balance a *. i in
    let principalPayment := Num.neg pmt -. interestPayment in
    let balance1 := balance a +. (interestPayment +. pmt) in
    if Nat.leb p1 period
    then mkAmort (principal a +. principalPayment)
           (interest a +. interestPayment) balance1
    else mkAmort (principal a) (interest a) balance1.

Fixpoint amortLoop (i pmt : num) (isBegin : bool) (p1 : nat)
    (count period : nat) (a : amortResult) : amortResult :=
  match count with
  | O => a
  | S k => amortLoop i pmt isBegin p1 k (S period)
             (amortPeriod i pmt isBegin p1 period a)
  end.

Definition amortize (i pv pmt : num) (isBegin : bool) (p1 p2 : nat)
    : amortResult :=
  amortLoop i pmt isBegin p1 p2 1 (mkAmort (e_lit E 0) (e_lit E 0) pv).

End Functions.
End Engine.

(* ------------------------------------------------------------------ *)
(** ** The rate searches in the specification's words *)

(** "Clamping each step to keep i within (-0.99, 10] (a step outside this
    range is rejected/averaged back toward the current estimate)": a step
    at or below -0.99 is replaced by [low], and what results, when above
    10, by the average of the current estimate and 10. *)
Definition clamped (low i step : num) : num :=
  let a := if step <=? #(-0.99) then low else step in
  if a >? #10 then (i + #10) / #2 else a.

(** "Tracking the best (lowest |residual|) iterate seen": the loop
    variables once the residual [fVal] at the current rate has been
    compared with the lowest one so far. *)
Definition tracked (s : newton) (fVal : num) : newton :=
  if Num.abs fVal <? nw_bestF s
  then mkNewton (nw_i s) (nw_i s) (Num.abs fVal)
  else s.

(** A rate inside (-0.99, 10], or NaN. *)
Definition rateOrNaN (a : num) : Prop :=
  a = NaN \/ exists x : R, a = #x /\ inRange x.

(** A rate inside [-0.99, 10], or NaN. *)
Definition boundedRateOrNaN (a : num) : Prop :=
  a = NaN \/ exists x : R, a = #x /\ (-0.99 <= x <= 10)%R.

(** The inputs of the counterexample of C5: 15000 periods, PV = -100,
    PMT = 10, FV = 200, payments at the end of the period; the residual
    and its derivative as binary64 computes them. *)
Definition long_term_f : num -> num :=
  Engine.solveIY_f (binary64 Binary64.pow) #15000 #(-100) #10 #200
    (JBool false).

Definition long_term_df : num -> num :=
  Engine.solveIY_df (binary64 Binary64.pow) #15000 #(-100) #10 (JBool false).

(** An outlay of 100 followed by two returns of 60. *)
Definition loan_flows : list num := [#(-100); #60; #60].

(* ------------------------------------------------------------------ *)
(** ** Rounding along the amortization walk *)

(** The value of a number, 0 for NaN and the infinities. *)
Definition numR (a : num) : R :=
  match a with
  | Fin x => x
  | _ => 0%R
  end.

(** What the END branch of the loop computes in one period, in binary64:
    the interest, the principal portion, the change of the balance, the
    new balance and the new sum of principal portions. *)
Definition end_interest (i : num) (a : amortResult) : num :=
  Binary64.mul (balance a) i.

Definition end_portion (i pmt : num) (a : amortResult) : num :=
  Binary64.add (Num.neg pmt) (Num.neg (end_interest i a)).

Definition end_change (i pmt : num) (a : amortResult) : num :=
  Binary64.add (end_interest i a) pmt.

Definition end_balance (i pmt : num) (a : amortResult) : num :=
  Binary64.add (balance a) (end_change i pmt a).

Definition end_principal (i pmt : num) (a : amortResult) : num :=
  Binary64.add (principal a) (end_portion i pmt a).

(** The roundings of one period that reach the balance: one rounding unit
    [eps] for each of interest, change and new balance. *)
Definition balance_rounding (i pmt : num) (a : amortResult) : R :=
  (Binary64.eps (numR (end_interest i a))
   + Binary64.eps (numR (end_change i pmt a))
   + Binary64.eps (numR (end_balance i pmt a)))%R.

(** The roundings of one period that reach the sum of principal and
    balance. *)
Definition ledger_rounding (i pmt : num) (a : amortResult) : R :=
  (Binary64.eps (numR (end_portion i pmt a))
   + Binary64.eps (numR (end_change i pmt a))
   + Binary64.eps (numR (end_balance i pmt a))
   + Binary64.eps (numR (end_principal i pmt a)))%R.

(** The roundings of [count] periods from the state [a]: those of a
    period grow with the balance, by [|1 + i|] in each period that
    follows. *)
Fixpoint walk_rounding (i pmt : num) (count period : nat) (a : amortResult)
    : R :=
  match count with
  | O => 0%R
  | S k =>
      (Rabs (1 + numR i) ^ k * balance_rounding i pmt a
       + walk_rounding i pmt k (S period)
           (Engine.amortPeriod (binary64 Binary64.pow) i pmt false 1 period a))%R
  end.

Fixpoint walk_ledger_rounding (i pmt : num) (count period : nat)
    (a : amortResult) : R :=
  match count with
  | O => 0%R
  | S k =>
      (ledger_rounding i pmt a
       + walk_ledger_rounding i pmt k (S period)
           (Engine.amortPeriod (binary64 Binary64.pow) i pmt false 1 period a))%R
  end.

(* ================================================================== *)
(** * Arithmetic lemmas *)
(* ================================================================== *)

Section Comparisons.

Variables x y : R.

Lemma Rltb_true : x < y -> Rltb x y = true.
Proof. unfold Rltb; destruct (Rlt_dec x y); intuition. Qed.

Lemma Rltb_false : ~ x < y -> Rltb x y = false.
Proof. unfold Rltb; destruct (Rlt_dec x y); intuition. Qed.

Lemma Rltb_spec : Rltb x y = true <-> x < y.
Proof. unfold Rltb; destruct (Rlt_dec x y); intuition discriminate. Qed.

Lemma Rleb_true : x <= y -> Rleb x y = true.
Proof. unfold Rleb; destruct (Rle_dec x y); intuition. Qed.

Lemma Rleb_false : ~ x <= y -> Rleb x y = false.
Proof. unfold Rleb; destruct (Rle_dec x y); intuition. Qed.

Lemma Reqb_true : x = y -> Reqb x y = true.
Proof. unfold Reqb; destruct (Req_dec_T x y); intuition. Qed.

Lemma Reqb_false : x <> y -> Reqb x y = false.
Proof. unfold Reqb; destruct (Req_dec_T x y); intuition. Qed.

Lemma Reqb_spec : Reqb x y = true <-> x = y.
Proof. unfold Reqb; destruct (Req_dec_T x y); intuition discriminate. Qed.

End Comparisons.

Lemma le_fin (x y : R) : (#x <=? #y) = Rleb x y.
Proof.
  unfold Num.le, Num.lt, Num.eq, Rltb, Rleb, Reqb.
  destruct (Rlt_dec x y), (Req_dec_T x y), (Rle_dec x y);
    simpl; try reflexivity; exfalso; lra.
Qed.

Lemma div_fin (x y : R) : y <> 0%R -> #x / #y = #(x / y).
Proof. intros H; unfold Num.div; now rewrite (Reqb_false _ _ H). Qed.

(** Decide the comparisons of the goal whose outcome [lra] can settle. *)
Ltac rcompare :=
  repeat match goal with
  | |- context [Rltb ?a ?b] =>
      first [ rewrite (Rltb_true a b) by lra | rewrite (Rltb_false a b) by lra ]
  | |- context [Rleb ?a ?b] =>
      first [ rewrite (Rleb_true a b) by lra | rewrite (Rleb_false a b) by lra ]
  | |- context [Reqb ?a ?b] =>
      first [ rewrite (Reqb_true a b) by lra | rewrite (Reqb_false a b) by lra ]
  | |- context [Rabs ?a] =>
      first [ rewrite (Rabs_pos_eq a) by lra | rewrite (Rabs_left a) by lra ]
  end.

Lemma Int_part_IZR (z : Z) : Int_part (IZR z) = z.
Proof. symmetry; apply Int_part_spec; lra. Qed.

Lemma is_int_INR (k : nat) : Num.is_int (INR k) = true.
Proof.
  unfold Num.is_int. rewrite INR_IZR_INZ, Int_part_IZR. now apply Reqb_true.
Qed.

(** [Math.pow] at a whole exponent is the iterated product, for every
    finite base. *)
Lemma pow_nat (x : R) (k : nat) : Num.pow #x #(INR k) = #(x ^ k).
Proof.
  unfold Num.pow.
  destruct k as [|k].
  - simpl INR. rewrite Reqb_true by reflexivity. reflexivity.
  - assert (Hk : (0 < INR (S k))%R) by (apply lt_0_INR; lia).
    rewrite (Reqb_false (INR (S k)) 0) by lra.
    destruct (Rlt_dec 0 x) as [Hx|Hx].
    + rewrite (Rltb_true 0 x Hx). now rewrite Rpower_pow.
    + rewrite (Rltb_false 0 x Hx).
      destruct (Req_dec_T x 0) as [->|Hx0].
      * rewrite Reqb_true by reflexivity. rewrite (Rltb_true _ _ Hk).
        now rewrite pow_i by lia.
      * rewrite (Reqb_false _ _ Hx0), is_int_INR.
        now rewrite INR_IZR_INZ, Int_part_IZR, <- pow_powerRZ.
Qed.

Lemma pow_pos_base (x y : R) : (0 < x)%R -> Num.pow #x #y = #(Rpower x y).
Proof.
  intros Hx. unfold Num.pow. rewrite (Rltb_true 0 x Hx).
  unfold Reqb. destruct (Req_dec_T y 0) as [->|]; [|reflexivity].
  now rewrite Rpower_O.
Qed.

Lemma ln_zero_iff (x : R) : (0 < x)%R -> ln x = 0%R -> x = 1%R.
Proof.
  intros Hx H. apply ln_inv; [assumption | lra |]. now rewrite ln_1.
Qed.

Lemma Rabs_small_nonzero (x eps : R) :
  (0 < eps)%R -> ~ (Rabs x < eps)%R -> x <> 0%R.
Proof. intros He H ->. rewrite Rabs_R0 in H. lra. Qed.

Section FiniteSolvers.

Variables (n i c : R) (isBegin : bool).
Hypothesis Hc : Num.pow #(1 + i) #n = #c.

Lemma annuityFactor_fin : annuityFactor #i #n isBegin = #(afR i n c isBegin).
Proof.
  unfold annuityFactor, afR. cbn [Num.abs Num.lt Num.add]. rewrite Hc.
  destruct (Rlt_dec (Rabs i) 1e-10) as [H|H].
  - now rewrite (Rltb_true _ _ H).
  - rewrite (Rltb_false _ _ H).
    assert (i <> 0)%R by (apply (Rabs_small_nonzero i 1e-10); [lra|assumption]).
    cbn [Num.sub Num.add Num.neg]. rewrite div_fin by assumption.
    destruct isBegin; reflexivity.
Qed.

Lemma solveFV_fin (pv pmt : R) :
  solveFV #n #i #pv #pmt isBegin = #(pv * c + pmt * afR i n c isBegin).
Proof.
  unfold solveFV. rewrite annuityFactor_fin. cbn [Num.add]. now rewrite Hc.
Qed.

Lemma solvePV_fin (pmt fv : R) :
  c <> 0%R ->
  solvePV #n #i #pmt #fv isBegin = #((fv - pmt * afR i n c isBegin) / c).
Proof.
  intros H. unfold solvePV. rewrite annuityFactor_fin.
  cbn [Num.add]. rewrite Hc. cbn [Num.mul Num.sub Num.neg Num.add].
  now rewrite div_fin.
Qed.

Lemma solvePMT_fin (pv fv : R) :
  ~ (Rabs (afR i n c isBegin) < 1e-15)%R ->
  solvePMT #n #i #pv #fv isBegin = #((fv - pv * c) / afR i n c isBegin).
Proof.
  intros H. unfold solvePMT. rewrite annuityFactor_fin.
  cbn [Num.add Num.abs Num.lt]. rewrite Hc, (Rltb_false _ _ H).
  cbn [Num.mul Num.sub Num.neg Num.add].
  rewrite div_fin; [reflexivity|].
  apply (Rabs_small_nonzero _ 1e-15); [lra|assumption].
Qed.

End FiniteSolvers.

Lemma getPeriodicRate_same (iy py : R) :
  py <> 0%R -> getPeriodicRate #iy #py #py = #(iy / 100 / py).
Proof.
  intros H. unfold getPeriodicRate. cbn [Num.eq].
  rewrite Reqb_true by reflexivity.
  rewrite (div_fin iy 100) by lra. now rewrite div_fin.
Qed.

Lemma gt_zero_not_le (a : num) : (a >? #0) = true -> (a <=? #0) = false.
Proof.
  destruct a as [x| | |]; try discriminate; [|reflexivity].
  unfold Num.gt. cbn [Num.lt]. rewrite le_fin. intros H.
  apply Rltb_spec in H. apply Rleb_false. lra.
Qed.

(* ================================================================== *)
(** * Closed-form solvers *)
(* ================================================================== *)

(** C1.  For all periods [n], periodic rate [i], present value [pv],
    payment [pmt] and timing flag, [solveFV] is
    [pv * (1+i)^n + pmt * af(i, n, begin)], with [af] the annuity factor of
    the specification. *)
Theorem solveFV_formula (n i pv pmt : num) (begin : bool) :
  solveFV n i pv pmt begin
  = pv * Num.pow (#1 + i) n + pmt * af_spec i n begin.
Proof.
  unfold solveFV, annuityFactor, af_spec.
  destruct (Num.abs i <? #1e-10); [reflexivity|].
  destruct begin; reflexivity.
Qed.

(* ------------------------------------------------------------------ *)
(** ** The cases of [solveN] *)

Lemma log_pos (x : R) : (0 < x)%R -> Num.log #x = #(ln x).
Proof. intros H; unfold Num.log; now rewrite (Rltb_true _ _ H). Qed.

Lemma isNaN_div_log (r i : R) :
  (0 < r)%R -> (i <> 0)%R ->
  Num.isNaN (Num.log #r / Num.log #(1 + i)) = Rltb i (-1).
Proof.
  intros Hr Hi. rewrite (log_pos r Hr). unfold Num.log.
  destruct (Rlt_dec 0 (1 + i)) as [H|H].
  - rewrite (Rltb_true _ _ H), div_fin.
    + simpl. symmetry; apply Rltb_false; lra.
    + intros E. apply ln_zero_iff in E; lra.
  - rewrite (Rltb_false _ _ H).
    destruct (Req_dec_T (1 + i) 0) as [E|E].
    + rewrite (Reqb_true _ _ E). simpl. symmetry; apply Rltb_false; lra.
    + rewrite (Reqb_false _ _ E). simpl. symmetry; apply Rltb_true; lra.
Qed.

(** C8, as the code has it.  For finite [i], [pv], [pmt], [fv]:
    (1) when [|i| < 1e-10], [solveN] returns [(fv - pv)/pmt] and yields NaN
    exactly when [|pmt| < 1e-15];
    (2) when [|i| >= 1e-10] and [|pmt| < 1e-15], it returns
    [ln(fv/pv)/ln(1+i)] and yields NaN exactly when [|pv| < 1e-15], or
    [fv/pv <= 0], or [i < -1] (the logarithm of the negative base [1+i]);
    (3) otherwise it is [solveNNumeric]. *)
Theorem solveN_cases (i pv pmt fv : R) (isBegin : bool) :
  solveN #i #pv #pmt #fv isBegin
  = (if Rltb (Rabs i) 1e-10 then
       if Rltb (Rabs pmt) 1e-15 then NaN else #((fv - pv) / pmt)
     else if Rltb (Rabs pmt) 1e-15 then
       if Rltb (Rabs pv) 1e-15 || Rleb (fv / pv) 0 then NaN
       else Num.log #(fv / pv) / Num.log #(1 + i)
     else solveNNumeric #i #pv #pmt #fv isBegin)
  /\ Num.isNaN (solveN #i #pv #pmt #fv isBegin)
     = (if Rltb (Rabs i) 1e-10 then Rltb (Rabs pmt) 1e-15
        else if Rltb (Rabs pmt) 1e-15 then
          Rltb (Rabs pv) 1e-15 || Rleb (fv / pv) 0 || Rltb i (-1)
        else Num.isNaN (solveNNumeric #i #pv #pmt #fv isBegin)).
Proof.
  unfold solveN. cbn [Num.abs Num.lt].
  destruct (Rlt_dec (Rabs i) 1e-10) as [Hi|Hi].
  - rewrite (Rltb_true _ _ Hi).
    destruct (Rlt_dec (Rabs pmt) 1e-15) as [Hp|Hp].
    + rewrite (Rltb_true _ _ Hp). split; reflexivity.
    + rewrite (Rltb_false _ _ Hp).
      assert (pmt <> 0)%R.
      { intros ->. rewrite Rabs_R0 in Hp. lra. }
      cbn [Num.sub Num.neg Num.add]. rewrite div_fin by assumption.
      split; reflexivity.
  - rewrite (Rltb_false _ _ Hi).
    assert (Hi0 : (i <> 0)%R).
    { intros ->. rewrite Rabs_R0 in Hi. lra. }
    destruct (Rlt_dec (Rabs pmt) 1e-15) as [Hp|Hp].
    + rewrite (Rltb_true _ _ Hp).
      destruct (Rlt_dec (Rabs pv) 1e-15) as [Hv|Hv].
      * rewrite (Rltb_true _ _ Hv). split; reflexivity.
      * rewrite (Rltb_false _ _ Hv).
        assert (pv <> 0)%R.
        { intros ->. rewrite Rabs_R0 in Hv. lra. }
        rewrite div_fin by assumption. rewrite le_fin. cbn [orb].
        destruct (Rle_dec (fv / pv) 0) as [Hr|Hr].
        -- rewrite (Rleb_true _ _ Hr). split; reflexivity.
        -- rewrite (Rleb_false _ _ Hr). cbn [Num.add orb].
           split; [reflexivity|].
           apply isNaN_div_log; lra.
    + rewrite (Rltb_false _ _ Hp). split; reflexivity.
Qed.

(** C8, the case the claim misses: with [i = -3], [pv = 1], [pmt = 0],
    [fv = 2] the payment is zero, neither [|pv| < 1e-15] nor
    [fv/pv <= 0] holds, and [solveN] still yields NaN. *)
Lemma solveN_nan_negative_base :
  (Num.abs #(-3) <? #1e-10) = false
  /\ (Num.abs #0 <? #1e-15) = true
  /\ (Num.abs #1 <? #1e-15) = false
  /\ (#2 / #1 <=? #0) = false
  /\ solveN #(-3) #1 #0 #2 false = NaN.
Proof.
  unfold solveN. rewrite (div_fin 2 1) by lra. rewrite le_fin.
  cbn [Num.abs Num.lt Num.add].
  rewrite Rabs_R0. rcompare.
  repeat split; try reflexivity.
  rewrite log_pos by lra. unfold Num.log. rcompare. reflexivity.
Qed.

(* ================================================================== *)
(** * Amortization: the step and the window *)
(* ================================================================== *)

Section AmortWindow.

Variables (i pv pmt : num) (isBegin : bool) (p1 : nat).

Let bal := spec_balance isBegin i pv pmt.
Let princ := spec_principal isBegin i pv pmt.
Let intr := spec_interest isBegin i pv pmt.

Lemma amortPeriod_balance (period : nat) (a : amortResult) :
  balance (amortPeriod i pmt isBegin p1 period a)
  = spec_balance_after isBegin i pmt (balance a).
Proof.
  unfold amortPeriod, spec_balance_after.
  destruct isBegin, (Nat.leb p1 period); reflexivity.
Qed.

(** Periods before the window move the balance only. *)
Lemma amortLoop_before (count period : nat) (a : amortResult) :
  (1 <= period)%nat -> (period + count <= p1)%nat ->
  balance a = bal (period - 1)%nat ->
  amortLoop i pmt isBegin p1 count period a
  = mkAmort (principal a) (interest a) (bal (period + count - 1)%nat).
Proof.
  revert period a. induction count as [|c IH]; intros period a H1 Hp Hb.
  - rewrite Nat.add_0_r, <- Hb. now destruct a.
  - cbn [amortLoop]. rewrite IH; try lia.
    + replace (S period + c - 1)%nat with (period + S c - 1)%nat by lia.
      unfold amortPeriod.
      replace (Nat.leb p1 period) with false
        by (symmetry; apply Nat.leb_gt; lia).
      now destruct isBegin.
    + rewrite amortPeriod_balance, Hb.
      replace (S period - 1)%nat with (S (period - 1)) by lia. reflexivity.
Qed.

(** Periods inside the window add their portions to the totals. *)
Lemma amortLoop_inside (count period : nat) (a : amortResult) :
  (1 <= period)%nat -> (p1 <= period)%nat ->
  balance a = bal (period - 1)%nat ->
  amortLoop i pmt isBegin p1 count period a
  = mkAmort
      (fold_left Num.add (map princ (seq period count)) (principal a))
      (fold_left Num.add (map intr (seq period count)) (interest a))
      (bal (period + count - 1)%nat).
Proof.
  revert period a. induction count as [|c IH]; intros period a H1 Hp Hb.
  - rewrite Nat.add_0_r, <- Hb. now destruct a.
  - cbn [amortLoop seq map fold_left]. rewrite IH; try lia.
    + replace (S period + c - 1)%nat with (period + S c - 1)%nat by lia.
      unfold amortPeriod.
      replace (Nat.leb p1 period) with true
        by (symmetry; apply Nat.leb_le; lia).
      unfold princ, intr, spec_principal, spec_interest,
        spec_principal_at, spec_interest_at.
      fold bal. rewrite <- Hb.
      now destruct isBegin.
    + rewrite amortPeriod_balance, Hb.
      replace (S period - 1)%nat with (S (period - 1)) by lia. reflexivity.
Qed.

Lemma amortLoop_split (c1 c2 period : nat) (a : amortResult) :
  amortLoop i pmt isBegin p1 (c1 + c2) period a
  = amortLoop i pmt isBegin p1 c2 (period + c1)
      (amortLoop i pmt isBegin p1 c1 period a).
Proof.
  revert period a. induction c1 as [|c IH]; intros period a.
  - now rewrite Nat.add_0_r.
  - cbn [Nat.add amortLoop]. rewrite IH.
    now replace (S period + c)%nat with (period + S c)%nat by lia.
Qed.

End AmortWindow.

(** C4.  For a window [1 <= p1 <= p2], [calculateAmort]'s loop walks the
    balance from [pv] through the periods [1..p2] with the END or BEGIN
    step of the specification; the principal and the interest it reports
    are the portions of the periods [p1..p2] only, and the balance it
    reports is the running balance after period [p2], whatever [p1] is. *)
Theorem amortize_window (i pv pmt : num) (isBegin : bool) (p1 p2 : nat) :
  (1 <= p1)%nat -> (p1 <= p2)%nat ->
  amortize i pv pmt isBegin p1 p2
  = mkAmort
      (spec_window_sum (spec_principal isBegin i pv pmt) p1 p2)
      (spec_window_sum (spec_interest isBegin i pv pmt) p1 p2)
      (spec_balance isBegin i pv pmt p2).
Proof.
  intros H1 H12. unfold amortize, spec_window_sum.
  replace p2 with ((p1 - 1) + (S p2 - p1))%nat at 1 by lia.
  rewrite amortLoop_split.
  rewrite (amortLoop_before i pv pmt isBegin p1 (p1 - 1) 1).
  - rewrite (amortLoop_inside i pv pmt isBegin p1).
    + cbn [principal interest balance].
      replace (1 + (p1 - 1))%nat with p1 by lia.
      now replace (p1 + (S p2 - p1) - 1)%nat with p2 by lia.
    + lia.
    + lia.
    + reflexivity.
  - lia.
  - lia.
  - reflexivity.
Qed.

Lemma amortize_window_witness :
  amortize #0.01 #1000 #(-100) false 2 3
  = mkAmort
      (spec_window_sum (spec_principal false #0.01 #1000 #(-100)) 2 3)
      (spec_window_sum (spec_interest false #0.01 #1000 #(-100)) 2 3)
      (spec_balance false #0.01 #1000 #(-100) 3).
Proof. apply amortize_window; lia. Defined.

(* ================================================================== *)
(** * CPT: which states are solved, and what a failure leaves behind *)
(* ================================================================== *)

Lemma validFrequencies_check (st : state) :
  validFrequencies st = true ->
  (st_py st <=? #0) || (st_cy st <=? #0) = false.
Proof.
  unfold validFrequencies. intros H. apply andb_prop in H as [Hp Hc].
  now rewrite (gt_zero_not_le _ Hp), (gt_zero_not_le _ Hc).
Qed.

(** Evaluate the state accessors and updates on a given state. *)
Ltac st_eval :=
  cbn [blankVarsOf setRclMode clearMessage setMessage setComputeArmed setReg
       showMessage storeResult
       st_N st_IY st_PV st_PMT st_FV st_py st_cy st_BGN st_entry st_isNewEntry
       st_selectedVar st_lastComputed st_lastComputedVar st_rclMode
       st_computeArmed st_message getReg tvmVars filter isNull List.length
       Nat.eqb Nat.ltb Nat.leb numOfReg registers map failed msg_type msg_text].

Ltac valid_frequencies :=
  unfold validFrequencies, Num.gt;
  cbv delta [all_set_state two_blank_state unset_frequency_state rate_state];
  st_eval; cbn [Num.lt]; rcompare; reflexivity.

Lemma registers_setMessage (m : option message) (st : state) :
  registers (setMessage m st) = registers st.
Proof. reflexivity. Qed.

Lemma registers_setRclMode (b : bool) (st : state) :
  registers (setRclMode b st) = registers st.
Proof. reflexivity. Qed.

Lemma registers_setComputeArmed (b : bool) (st : state) :
  registers (setComputeArmed b st) = registers st.
Proof. reflexivity. Qed.

(** Nulling a register and writing its old value back restores all five. *)
Lemma registers_restore (v : tvmVar) (st : state) :
  registers (setReg v (getReg st v) (setReg v None st)) = registers st.
Proof. destruct v; reflexivity. Qed.

Lemma failed_not_solved (st : state) : failed st = true -> solved st = false.
Proof.
  unfold failed, solved.
  destruct (st_message st) as [[t []]|]; (reflexivity || discriminate).
Qed.

Lemma computeVariable_finish_unsolved (v : tvmVar) (c : completion) (st : state) :
  solved (computeVariable_finish v (getReg st v) c (setReg v None st)) = false ->
  registers (computeVariable_finish v (getReg st v) c (setReg v None st))
  = registers st.
Proof.
  destruct c as [result|]; cbn [computeVariable_finish].
  - destruct (negb (Num.isFinite result)).
    + intros _. unfold showMessage.
      now rewrite registers_setMessage, registers_restore.
    + discriminate.
  - intros _. unfold showMessage.
    now rewrite registers_setMessage, registers_restore.
Qed.

Lemma computeVariable_unsolved (v : tvmVar) (st : state) :
  solved (computeVariable v st) = false ->
  registers (computeVariable v st) = registers st.
Proof.
  unfold computeVariable.
  set (st1 := clearMessage (setComputeArmed false st)).
  assert (E : registers st1 = registers st) by reflexivity.
  destruct ((st_py st1 <=? #0) || (st_cy st1 <=? #0)).
  - intros _. exact E.
  - intros H. rewrite <- E. now apply computeVariable_finish_unsolved.
Qed.

Lemma compute_finish_unsolved (v : tvmVar) (c : completion) (st : state) :
  solved (compute_finish v c st) = false ->
  registers (compute_finish v c st) = registers st.
Proof.
  destruct c as [result|]; cbn [compute_finish].
  - destruct (negb (Num.isFinite result) || Num.isNaN result).
    + reflexivity.
    + discriminate.
  - reflexivity.
Qed.

Lemma compute_unsolved (st : state) :
  solved (compute st) = false -> registers (compute st) = registers st.
Proof.
  unfold compute.
  set (st1 := setRclMode false (clearMessage st)).
  assert (E : registers st1 = registers st) by reflexivity.
  destruct ((st_py st1 <=? #0) || (st_cy st1 <=? #0)); [intros _; exact E|].
  destruct (Nat.eqb (List.length (blankVarsOf st1)) 0).
  - destruct (st_lastComputedVar st1) as [v|].
    + intros H. rewrite <- E. now apply computeVariable_unsolved.
    + intros _. exact E.
  - destruct (Nat.ltb 1 (List.length (blankVarsOf st1))); [intros _; exact E|].
    destruct (blankVarsOf st1) as [|solveFor rest]; [intros _; exact E|].
    intros H. rewrite <- E. now apply compute_finish_unsolved.
Qed.

(** C10.  Whenever [compute] or [computeVariable] ends in failure
    (frequencies not set, wrong count of unset fields, a non-finite or NaN
    result), the five registers hold what they held before the call, and
    more generally whenever the call does not end in a solve; the [catch]
    clause of either function, reached by an exception in the [switch],
    leaves them so too: [computeVariable] writes the saved value back into
    the register it had nulled, as it does after a non-finite result. *)
Theorem failure_keeps_registers (st : state) (v : tvmVar) :
  (failed (compute st) = true -> registers (compute st) = registers st)
  /\ (failed (computeVariable v st) = true ->
      registers (computeVariable v st) = registers st)
  /\ (solved (compute st) = false -> registers (compute st) = registers st)
  /\ (solved (computeVariable v st) = false ->
      registers (computeVariable v st) = registers st)
  /\ (failed (compute_finish v Throws st) = true
      /\ registers (compute_finish v Throws st) = registers st)
  /\ (failed (computeVariable_finish v (getReg st v) Throws (setReg v None st))
      = true
      /\ registers
           (computeVariable_finish v (getReg st v) Throws (setReg v None st))
         = registers st)
  /\ (forall result, Num.isFinite result = false ->
      getReg (computeVariable_finish v (getReg st v) (Returns result)
                (setReg v None st)) v
      = getReg st v).
Proof.
  split; [intros H; apply compute_unsolved, failed_not_solved, H|].
  split; [intros H; apply computeVariable_unsolved, failed_not_solved, H|].
  split; [apply compute_unsolved|].
  split; [apply computeVariable_unsolved|].
  split; [split; reflexivity|].
  split.
  - split; [reflexivity|]. now apply computeVariable_finish_unsolved.
  - intros result H. cbn [computeVariable_finish]. rewrite H.
    destruct v; reflexivity.
Qed.

Lemma failure_keeps_registers_witness :
  registers (compute unset_frequency_state) = registers unset_frequency_state.
Proof.
  apply (proj1 (failure_keeps_registers unset_frequency_state VarN)).
  unfold compute, unset_frequency_state. st_eval.
  rewrite le_fin. rcompare. reflexivity.
Defined.

(* ------------------------------------------------------------------ *)
(** ** The count of unset fields *)

(** C7, as the code has it.  With valid frequencies: more than one unset
    field is an error and no register changes; exactly one unset field is
    solved for; with no unset field CPT is not an error: the variable
    computed last, if there is one, is computed again from the other four,
    and otherwise CPT is armed with an informational message and no
    register changes. *)
Theorem compute_by_blank_count (st : state) :
  validFrequencies st = true ->
  let st1 := setRclMode false (clearMessage st) in
  match blankVarsOf st with
  | [] =>
      match st_lastComputedVar st with
      | Some v => compute st = computeVariable v st1
      | None =>
          compute st
          = showMessage (Text "CPT → PRESS VARIABLE TO SOLVE") info
              (setComputeArmed true st1)
          /\ failed (compute st) = false
          /\ registers (compute st) = registers st
      end
  | [solveFor] =>
      compute st
      = compute_finish solveFor (Returns (compute_switch solveFor st1)) st1
  | _ :: _ :: _ =>
      failed (compute st) = true /\ registers (compute st) = registers st
  end.
Proof.
  intros Hv st1. unfold compute. fold st1.
  rewrite (validFrequencies_check st1 Hv).
  change (blankVarsOf st1) with (blankVarsOf st).
  change (st_lastComputedVar st1) with (st_lastComputedVar st).
  destruct (blankVarsOf st) as [|v1 [|v2 rest]]; cbn [List.length Nat.eqb Nat.ltb Nat.leb].
  - destruct (st_lastComputedVar st); [reflexivity|].
    repeat split.
  - reflexivity.
  - repeat split.
Qed.

Lemma compute_by_blank_count_witness :
  failed (compute two_blank_state) = true
  /\ registers (compute two_blank_state) = registers two_blank_state.
Proof.
  apply (compute_by_blank_count two_blank_state). valid_frequencies.
Defined.

(** C7, the case the claim gets wrong: every register is set, the
    frequencies are valid and FV was computed last; CPT does not fail, it
    computes FV again and stores 1 where 5 was. *)
Lemma compute_all_set_recomputes :
  validFrequencies all_set_state = true
  /\ blankVarsOf all_set_state = []
  /\ st_FV all_set_state = Some #5
  /\ failed (compute all_set_state) = false
  /\ st_FV (compute all_set_state) = Some #1.
Proof.
  split; [valid_frequencies|].
  split; [reflexivity|]. split; [reflexivity|].
  assert (E : compute all_set_state
              = showMessage (ResultText VarFV #1) success
                  (storeResult VarFV #1
                     (setReg VarFV None
                        (clearMessage (setComputeArmed false
                           (setRclMode false (clearMessage all_set_state))))))).
  { unfold compute.
    rewrite validFrequencies_check by valid_frequencies.
    unfold all_set_state. st_eval.
    unfold computeVariable.
    rewrite validFrequencies_check by valid_frequencies.
    st_eval. unfold computeVariable_switch. st_eval.
    rewrite getPeriodicRate_same by lra.
    rewrite (solveFV_fin 1 _ ((1 + 0 / 100 / 1) ^ 1)) by apply (pow_nat _ 1).
    unfold afR. rcompare.
    replace (1 * (1 + 0 / 100 / 1) ^ 1 + 0 * 1)%R with 1%R by (simpl; lra).
    reflexivity. }
  rewrite E. split; reflexivity.
Qed.

(* ================================================================== *)
(** * The rate search *)
(* ================================================================== *)

Section RateResidual.

Variables (n pv pmt fv : R) (isBegin : jsval).

Lemma solveIY_f_pos (i : R) :
  (0 < 1 + i)%R ->
  solveIY_f #n #pv #pmt #fv isBegin #i
  = #(fR n pv pmt fv (toBoolean isBegin) i).
Proof.
  intros Hi. unfold solveIY_f, fR.
  rewrite (annuityFactor_fin n i (Rpower (1 + i) n))
    by now apply pow_pos_base.
  cbn [Num.add]. rewrite pow_pos_base by assumption.
  cbn [Num.mul Num.sub Num.add Num.neg]. f_equal; lra.
Qed.

Lemma solveIY_df_pos (i : R) :
  (0 < 1 + i)%R ->
  solveIY_df #n #pv #pmt isBegin #i = #(dfR n pv pmt (toBoolean isBegin) i).
Proof.
  intros Hi. unfold solveIY_df, dfR. cbn [Num.abs Num.lt].
  destruct (Rlt_dec (Rabs i) 1e-10) as [H|H].
  - rewrite (Rltb_true _ _ H).
    cbn [Num.mul Num.sub Num.add Num.neg]. rewrite div_fin by lra.
    cbn [Num.mul Num.sub Num.add Num.neg]. f_equal; lra.
  - rewrite (Rltb_false _ _ H).
    assert (Hi0 : (i <> 0)%R)
      by (apply (Rabs_small_nonzero i 1e-10); [lra|assumption]).
    assert (Hii : (i * i <> 0)%R) by now apply Rmult_integral_contrapositive.
    cbn [Num.sub Num.add Num.neg].
    rewrite !pow_pos_base by assumption.
    cbn [Num.mul Num.sub Num.add Num.neg].
    rewrite !div_fin by assumption.
    destruct (toBoolean isBegin);
      cbn [Num.mul Num.sub Num.add Num.neg]; f_equal;
      unfold Rminus; lra.
Qed.

End RateResidual.

(* ------------------------------------------------------------------ *)
(** ** A run of the rate search: 100 growing to 110 in one period *)

Lemma solveIY_newton_S (f df : num -> num) (k : nat) (s : newton) :
  solveIY_newton f df (S k) s
  = (let (s', stop) := solveIY_step f df s in
     if stop then s' else solveIY_newton f df k s').
Proof. reflexivity. Qed.

Section OnePeriodRun.

Variable isBegin : jsval.

Let f := solveIY_f #1 #100 #0 #110 isBegin.
Let df := solveIY_df #1 #100 #0 isBegin.

Lemma run_f (x : R) : (0 < 1 + x)%R -> f #x = #(110 - 100 * (1 + x)).
Proof.
  intros Hx. unfold f. rewrite solveIY_f_pos by assumption.
  unfold fR. rewrite Rpower_1 by assumption. f_equal; lra.
Qed.

Lemma run_df (x : R) :
  (0 < 1 + x)%R -> ~ (Rabs x < 1e-10)%R -> df #x = #(-100).
Proof.
  intros Hx Hs. unfold df. rewrite solveIY_df_pos by assumption.
  unfold dfR. rewrite (Rltb_false _ _ Hs).
  replace (1 - 1)%R with 0%R by lra.
  rewrite Rpower_O by assumption.
  destruct (toBoolean isBegin); f_equal; lra.
Qed.

Lemma run_step1 :
  solveIY_step f df (mkNewton #0.05 #0.05 #5)
  = (mkNewton #0.1 #0.05 #5, false).
Proof.
  unfold solveIY_step. cbn [nw_i nw_bestI nw_bestF].
  rewrite run_f by lra. rewrite run_df by (rcompare; lra).
  cbn [Num.abs Num.lt]. rcompare.
  rewrite div_fin by lra. cbn [Num.sub Num.add Num.neg].
  rewrite le_fin. rcompare.
  unfold Num.gt. cbn [Num.lt]. rcompare.
  cbn [Num.sub Num.add Num.neg Num.abs Num.lt nw_bestI nw_bestF]. rcompare.
  do 2 f_equal. f_equal. lra.
Qed.

Lemma run_step2 :
  solveIY_step f df (mkNewton #0.1 #0.05 #5) = (mkNewton #0.1 #0.1 #5, true).
Proof.
  unfold solveIY_step. cbn [nw_i nw_bestI nw_bestF].
  rewrite run_f by lra. cbn [Num.abs Num.lt]. rcompare. reflexivity.
Qed.

Lemma run_newton :
  nw_bestI (solveIY_newton f df 50 (mkNewton #0.05 #0.05 (Num.abs (f #0.05))))
  = #0.1.
Proof.
  rewrite run_f by lra. cbn [Num.abs]. rcompare.
  replace (110 - 100 * (1 + 0.05))%R with 5%R by lra.
  rewrite solveIY_newton_S, run_step1.
  rewrite solveIY_newton_S, run_step2. reflexivity.
Qed.

Lemma run_periodic : solveIY_periodic #1 #100 #0 #110 isBegin = #0.1.
Proof.
  unfold solveIY_periodic. cbv zeta.
  change (solveIY_f #1 #100 #0 #110 isBegin) with f.
  change (solveIY_df #1 #100 #0 isBegin) with df.
  rewrite run_newton.
  rewrite run_f by lra. unfold Num.gt. cbn [Num.abs Num.lt]. rcompare.
  reflexivity.
Qed.

End OnePeriodRun.

Lemma rate_state_compute : st_IY (compute rate_state) = Some #10.
Proof.
  unfold compute.
  rewrite validFrequencies_check by valid_frequencies.
  unfold rate_state. st_eval.
  unfold compute_switch, solveIY. st_eval.
  rewrite run_periodic.
  unfold nominalFromPeriodic. cbn [strictEq Num.eq toNumber].
  rcompare. cbn [Num.mul compute_finish Num.isFinite Num.isNaN negb orb].
  st_eval. do 2 f_equal. lra.
Qed.

Lemma rate_state_computeVariable :
  st_IY (computeVariable VarIY rate_state) = Some #0.
Proof.
  unfold computeVariable.
  rewrite validFrequencies_check by valid_frequencies.
  unfold rate_state. st_eval.
  unfold computeVariable_switch, solveIY. st_eval.
  rewrite run_periodic.
  unfold nominalFromPeriodic. cbn [strictEq toNumber].
  rewrite div_fin by lra. cbn [Num.add]. unfold Num.pow.
  rcompare. cbn [Num.mul Num.sub Num.add Num.neg].
  cbn [computeVariable_finish Num.isFinite negb]. st_eval.
  do 2 f_equal. lra.
Qed.

(** C9.  [compute] calls [solveIY] with the timing flag before the two
    frequencies, as the signature has them; [computeVariable] calls it
    with the frequencies first.  The two calls are not equivalent: on a
    state with valid frequencies (100 growing to 110 over one period,
    C/Y = P/Y = 1, END) [compute] stores I/Y = 10 and [computeVariable]
    stores I/Y = 0. *)
Theorem solveIY_paths_differ :
  (forall st : state,
     compute_switch VarIY st
     = solveIY (numOfReg (st_N st)) (numOfReg (st_PV st))
         (numOfReg (st_PMT st)) (numOfReg (st_FV st))
         (JBool (st_BGN st)) (JNum (st_cy st)) (JNum (st_py st))
     /\ computeVariable_switch VarIY st
        = solveIY (numOfReg (st_N st)) (numOfReg (st_PV st))
            (numOfReg (st_PMT st)) (numOfReg (st_FV st))
            (JNum (st_cy st)) (JNum (st_py st)) (JBool (st_BGN st)))
  /\ exists st : state,
       validFrequencies st = true
       /\ st_IY (compute st) = Some #10
       /\ st_IY (computeVariable VarIY st) = Some #0
       /\ st_IY (compute st) <> st_IY (computeVariable VarIY st).
Proof.
  split; [intros st; split; reflexivity|].
  exists rate_state.
  split; [valid_frequencies|].
  split; [apply rate_state_compute|].
  split; [apply rate_state_computeVariable|].
  rewrite rate_state_compute, rate_state_computeVariable.
  intros E. injection E as E. lra.
Qed.

(* ================================================================== *)
(** * Amortization against [solvePMT] *)
(* ================================================================== *)

Section EndTiming.

Variables i pmt : R.

Lemma amortLoop_end (count period : nat) (p q b : R) :
  (1 <= period)%nat ->
  exists q' : R,
    amortLoop #i #pmt false 1 count period (mkAmort #p #q #b)
    = mkAmort #(p + b - endBalance i pmt count b) #q'
        #(endBalance i pmt count b).
Proof.
  revert period p q b. induction count as [|k IH]; intros period p q b Hp.
  - exists q. cbn [amortLoop endBalance]. do 2 f_equal. lra.
  - cbn [amortLoop endBalance]. unfold amortPeriod.
    replace (Nat.leb 1 period) with true by (symmetry; apply Nat.leb_le; lia).
    cbn [principal interest balance Num.mul Num.add Num.sub Num.neg].
    destruct (IH (S period) (p + (- pmt + - (b * i)))%R (q + b * i)%R
                (b + (b * i + pmt))%R) as [q' E]; [lia|].
    exists q'. rewrite E. do 2 f_equal. lra.
Qed.

Lemma endBalance_closed (k : nat) (b : R) :
  endBalance i pmt k b = (b * (1 + i) ^ k + pmt * geomSum (1 + i) k)%R.
Proof.
  revert b. induction k as [|k IH]; intros b.
  - simpl. lra.
  - cbn [endBalance geomSum]. rewrite IH. simpl pow. ring.
Qed.

Lemma geomSum_closed (x : R) (k : nat) :
  ((x - 1) * geomSum x k = x ^ k - 1)%R.
Proof.
  induction k as [|k IH].
  - simpl. lra.
  - cbn [geomSum]. simpl pow. nra.
Qed.

Lemma geomSum_one (k : nat) : geomSum 1 k = INR k.
Proof.
  induction k as [|k IH].
  - reflexivity.
  - cbn [geomSum]. rewrite IH, pow1, S_INR. reflexivity.
Qed.

End EndTiming.

Lemma endBalance_solvePMT (n : nat) (i pv fv pmt : R) :
  (1 <= n)%nat -> (i = 0 \/ ~ Rabs i < 1e-10)%R ->
  solvePMT #(INR n) #i #pv #fv false = #pmt ->
  endBalance i pmt n pv = fv.
Proof.
  intros Hn Hi Hpmt.
  pose proof (pow_nat (1 + i) n) as Hc.
  revert Hpmt. unfold solvePMT.
  rewrite (annuityFactor_fin (INR n) i ((1 + i) ^ n) false) by exact Hc.
  cbn [Num.add Num.abs Num.lt]. rewrite Hc.
  destruct (Rlt_dec (Rabs (afR i (INR n) ((1 + i) ^ n) false)) 1e-15)
    as [Ha|Ha].
  { rewrite (Rltb_true _ _ Ha). discriminate. }
  rewrite (Rltb_false _ _ Ha).
  assert (Ha0 : afR i (INR n) ((1 + i) ^ n) false <> 0%R)
    by (apply (Rabs_small_nonzero _ 1e-15); [lra|assumption]).
  cbn [Num.mul Num.sub Num.add Num.neg]. rewrite div_fin by assumption.
  intros E. injection E as E. subst pmt.
  rewrite endBalance_closed.
  assert (G : geomSum (1 + i) n = afR i (INR n) ((1 + i) ^ n) false).
  { unfold afR. destruct Hi as [->|Hi].
    - rewrite Rabs_R0. rcompare.
      replace (1 + 0)%R with 1%R by lra. apply geomSum_one.
    - rewrite (Rltb_false _ _ Hi).
      assert (i <> 0)%R
        by (apply (Rabs_small_nonzero i 1e-10); [lra|assumption]).
      pose proof (geomSum_closed (1 + i) n) as Hg.
      apply (Rmult_eq_reg_l i); [|assumption].
      replace (1 + i - 1)%R with i in Hg by lra. rewrite Hg. field.
      assumption. }
  rewrite G. field. assumption.
Qed.

Lemma solvePMT_one_period : solvePMT #(INR 1) #0 #100 #0 false = #(-100).
Proof.
  rewrite (solvePMT_fin (INR 1) 0 ((1 + 0) ^ 1) false).
  - unfold afR. rewrite Rabs_R0. rcompare. f_equal. simpl. lra.
  - apply pow_nat.
  - unfold afR. rewrite Rabs_R0. rcompare. simpl INR. rcompare. lra.
Qed.

(** C3, where the claim fails: one period at rate 0 on [PV = 100],
    [FV = 0], END timing.  The payment is the finite [-100], and the
    principal portions sum to [+100], not to [-PV = -100]. *)
Lemma amortize_principal_sign :
  solvePMT #1 #0 #100 #0 false = #(-100)
  /\ Num.isFinite (solvePMT #1 #0 #100 #0 false) = true
  /\ principal (amortize #0 #100 #(-100) false 1 1) = #100
  /\ principal (amortize #0 #100 #(-100) false 1 1) <> - #100.
Proof.
  assert (P : solvePMT #1 #0 #100 #0 false = #(-100))
    by exact solvePMT_one_period.
  assert (A : principal (amortize #0 #100 #(-100) false 1 1) = #100).
  { unfold amortize. cbn [amortLoop amortPeriod Nat.leb principal balance
      Num.mul Num.add Num.sub Num.neg]. f_equal. lra. }
  split; [exact P|]. split; [now rewrite P|]. split; [exact A|].
  rewrite A. cbn [Num.neg]. intros E. injection E as E. lra.
Qed.

(* ================================================================== *)
(** * NPV at the IRR *)
(* ================================================================== *)

Lemma npvLoop_fin (r : R) (cashFlows : list R) (t : nat) (npv : R) :
  (1 + r <> 0)%R ->
  npvLoop #r (map Fin cashFlows) t #npv = #(npvR (1 + r) cashFlows t npv).
Proof.
  intros Hy. revert t npv. induction cashFlows as [|c rest IH]; intros t npv.
  - reflexivity.
  - cbn [map npvLoop npvR Num.add]. rewrite pow_nat.
    rewrite div_fin by now apply pow_nonzero.
    cbn [Num.add]. apply IH.
Qed.





Lemma one_return_npv : npvFunc one_return_flows #0.1 = #0.
Proof.
  unfold npvFunc, one_return_flows.
  change [#(-1); #1.1] with (map Fin [-1; 1.1]%R).
  rewrite npvLoop_fin by lra. cbn [npvR pow]. f_equal.
  replace ((1 + 0.1) * 1)%R with 1.1%R by lra. lra.
Qed.

Lemma one_return_newton : irr_newtonBest one_return_flows = #0.1.
Proof.
  unfold irr_newtonBest. cbv zeta.
  change 100%nat with (S 99). cbn [irr_newton].
  unfold irr_step. cbn [nw_i]. rewrite one_return_npv.
  cbn [Num.abs Num.lt]. rcompare. reflexivity.
Qed.

(* ================================================================== *)
(** * The strategy of the rate search *)
(* ================================================================== *)

Section Bisection.

Variables (f : num -> num) (L H : R).

Lemma bisectLoop_in_bracket (iters : nat) (b : bracket) :
  bracket_ok L H b ->
  exists z : R, bisectLoop f iters b = #z /\ (L <= z <= H)%R.
Proof.
  revert b. induction iters as [|k IH];
    intros b (lo & hi & Hlo & Hhi & H1 & H2 & H3);
    cbn [bisectLoop]; rewrite Hlo, Hhi; cbn [Num.add];
    rewrite div_fin by lra.
  - exists ((lo + hi) / 2)%R. split; [reflexivity | lra].
  - destruct (Num.abs (f #((lo + hi) / 2)) <? #1e-10).
    + exists ((lo + hi) / 2)%R. split; [reflexivity | lra].
    + destruct (b_fLo b * f #((lo + hi) / 2) <? #0); apply IH.
      * exists lo, ((lo + hi) / 2)%R. cbn [b_lo b_hi]. repeat split; lra.
      * exists ((lo + hi) / 2)%R, hi. cbn [b_lo b_hi]. repeat split; lra.
Qed.


End Bisection.


(* ================================================================== *)
(** * BEGIN timing in the amortization loop *)
(* ================================================================== *)

(** With payments at the beginning of a period the loop adds [-pmt] to the
    balance, where the END branch adds [pmt]: on one period at rate 0 with
    [PV = 100], [FV = 0] the payment is [-100] and the balance ends on 200,
    not on [FV]. *)
Lemma amortize_begin_balance :
  solvePMT #(INR 1) #0 #100 #0 true = #(-100)
  /\ balance (amortize #0 #100 #(-100) true 1 1) = #200.
Proof.
  split.
  - rewrite (solvePMT_fin (INR 1) 0 ((1 + 0) ^ 1) true).
    + unfold afR. rewrite Rabs_R0. rcompare. f_equal. simpl. lra.
    + apply pow_nat.
    + unfold afR. rewrite Rabs_R0. rcompare. simpl INR. rcompare. lra.
  - unfold amortize. cbn [amortLoop amortPeriod Nat.leb principal balance
      Num.mul Num.add Num.sub Num.neg]. f_equal. lra.
Qed.

(* ================================================================== *)
(** * The round trip when the compound factor vanishes *)
(* ================================================================== *)

(** At [i = -1] and [n = 1] the factor [(1+i)^n] is zero: [solvePV]
    divides [0] by [0] and returns NaN, so the condition of the round trip
    cannot be dropped. *)
Lemma solvePV_zero_factor :
  Num.pow #(1 + -1) #1 = #0
  /\ solvePV #1 #(-1) #10 (solveFV #1 #(-1) #100 #10 false) false = NaN.
Proof.
  assert (Hc : Num.pow #(1 + -1) #1 = #0).
  { change (Num.pow #(1 + -1) #1) with (Num.pow #(1 + -1) #(INR 1)).
    rewrite pow_nat. f_equal. simpl. lra. }
  split; [exact Hc|].
  rewrite (solveFV_fin 1 (-1) 0 false Hc).
  unfold solvePV. rewrite (annuityFactor_fin 1 (-1) 0 false Hc).
  cbn [Num.add]. rewrite Hc. unfold afR. rcompare.
  cbn [Num.mul Num.sub Num.add Num.neg]. unfold Num.div, Num.scale_inf.
  rcompare. reflexivity.
Qed.

(* ================================================================== *)
(** * Further properties of the closed-form solvers *)
(* ================================================================== *)

Lemma Rpower_one_base (y : R) : Rpower 1 y = 1%R.
Proof. unfold Rpower. now rewrite ln_1, Rmult_0_r, exp_0. Qed.

Lemma pow_zero_rate (n : R) : Num.pow #(1 + 0) #n = #1.
Proof.
  rewrite pow_pos_base by lra.
  replace (1 + 0)%R with 1%R by lra. now rewrite Rpower_one_base.
Qed.

Lemma afR_zero_rate (n c : R) (isBegin : bool) : afR 0 n c isBegin = n.
Proof. unfold afR. rewrite Rabs_R0. now rcompare. Qed.

(** At rate zero compounding disappears and the timing flag is
    irrelevant: [FV = PV + PMT*n], [PV = FV - PMT*n], and [solvePMT]
    returns [(FV - PV)/n] unless [|n| < 1e-15], where it returns NaN. *)
Theorem zero_rate_solvers (n pv pmt fv : R) (isBegin : bool) :
  solveFV #n #0 #pv #pmt isBegin = #(pv + pmt * n)
  /\ solvePV #n #0 #pmt #fv isBegin = #(fv - pmt * n)
  /\ solvePMT #n #0 #pv #fv isBegin
     = (if Rltb (Rabs n) 1e-15 then NaN else #((fv - pv) / n)).
Proof.
  pose proof (pow_zero_rate n) as Hc.
  split; [|split].
  - rewrite (solveFV_fin n 0 1 isBegin Hc), afR_zero_rate. f_equal. lra.
  - rewrite (solvePV_fin n 0 1 isBegin Hc) by lra.
    rewrite afR_zero_rate. f_equal. field.
  - destruct (Rlt_dec (Rabs n) 1e-15) as [H|H].
    + rewrite (Rltb_true _ _ H). unfold solvePMT.
      rewrite (annuityFactor_fin n 0 1 isBegin Hc), afR_zero_rate.
      cbn [Num.abs Num.lt]. now rewrite (Rltb_true _ _ H).
    + rewrite (Rltb_false _ _ H).
      rewrite (solvePMT_fin n 0 1 isBegin Hc) by now rewrite afR_zero_rate.
      rewrite afR_zero_rate. f_equal. lra.
Qed.

(* ================================================================== *)
(** * Where the numeric searches can end *)
(* ================================================================== *)

Section NumericN.

Variable f : num -> num.

Lemma solveN_bisect_in_bracket (iters : nat) (lo hi : R) :
  (lo <= hi)%R ->
  exists z : R, solveN_bisect f iters #lo #hi = #z /\ (lo <= z <= hi)%R.
Proof.
  revert lo hi. induction iters as [|k IH]; intros lo hi Hle;
    cbn [solveN_bisect Num.add]; rewrite div_fin by lra.
  - exists ((lo + hi) / 2)%R. split; [reflexivity | lra].
  - destruct (Num.abs (f #((lo + hi) / 2)) <? #1e-10).
    + exists ((lo + hi) / 2)%R. split; [reflexivity | lra].
    + destruct (f #lo * f #((lo + hi) / 2) <? #0).
      * destruct (IH lo ((lo + hi) / 2)%R) as (z & Hz & Hr); [lra|].
        exists z. split; [assumption | lra].
      * destruct (IH ((lo + hi) / 2)%R hi) as (z & Hz & Hr); [lra|].
        exists z. split; [assumption | lra].
Qed.

Lemma solveN_probe_in_range (fLo : num) (hi : R) (tests : list R) (a b : R) :
  (a <= hi <= b)%R -> Forall (fun t => a <= t <= b)%R tests ->
  exists h : R,
    solveN_probe f fLo #hi (map Fin tests) = #h /\ (a <= h <= b)%R.
Proof.
  intros Hhi Ht. induction Ht as [|t rest H1 _ IH]; cbn [map solveN_probe].
  - now exists hi.
  - destruct (f #t * fLo <? #0); [now exists t | exact IH].
Qed.

End NumericN.

(** Whatever its arguments, the numeric search for N returns a number of
    periods between 0.01 and 10000. *)
Theorem solveNNumeric_range (i pv pmt fv : num) (isBegin : bool) :
  exists z : R,
    solveNNumeric i pv pmt fv isBegin = #z /\ (0.01 <= z <= 10000)%R.
Proof.
  unfold solveNNumeric. cbv zeta.
  set (f := solveN_residual i pv pmt fv isBegin).
  assert (Hh : exists h : R,
            (if f #0.01 * f #1000 >? #0
             then solveN_probe f (f #0.01) #1000 [#1; #10; #100; #1000; #10000]
             else #1000) = #h /\ (1 <= h <= 10000)%R).
  { destruct (f #0.01 * f #1000 >? #0).
    - change [#1; #10; #100; #1000; #10000]
        with (map Fin [1; 10; 100; 1000; 10000]%R).
      apply solveN_probe_in_range; [lra|].
      repeat constructor; lra.
    - exists 1000%R. split; [reflexivity | lra]. }
  destruct Hh as (h & -> & Hh).
  destruct (solveN_bisect_in_bracket f 100 0.01 h) as (z & Hz & Hr); [lra|].
  exists z. split; [assumption | lra].
Qed.

Lemma derivLoop_finite (r : R) (cashFlows : list R) (t : nat) (deriv : R) :
  (1 + r <> 0)%R ->
  exists d : R, derivLoop #r (map Fin cashFlows) t #deriv = #d.
Proof.
  intros Hy. revert t deriv.
  induction cashFlows as [|c rest IH]; intros t deriv.
  - now exists deriv.
  - cbn [map derivLoop Num.add Num.mul].
    replace (INR t + 1)%R with (INR (S t)) by now rewrite S_INR.
    rewrite pow_nat. rewrite div_fin by now apply pow_nonzero.
    cbn [Num.sub Num.add Num.neg]. apply IH.
Qed.

Section IrrRange.

Variable cashFlows : list R.

Let f := npvFunc (map Fin cashFlows).
Let df := npvDerivative (map Fin cashFlows).

Lemma irr_f_finite (x : R) : (-0.99 < x)%R -> exists v : R, f #x = #v.
Proof.
  intros Hx. unfold f, npvFunc. rewrite npvLoop_fin by lra. eauto.
Qed.

Lemma irr_df_finite (x : R) : (-0.99 < x)%R -> exists d : R, df #x = #d.
Proof.
  intros Hx. unfold df, npvDerivative.
  replace (tl (map Fin cashFlows)) with (map Fin (tl cashFlows))
    by now destruct cashFlows.
  apply derivLoop_finite. lra.
Qed.

(** One pass of the Newton loop of [calculateIRR] keeps the current and
    the best rate in [(-0.99, 10]]. *)
Lemma irr_step_ok (s : newton) :
  newton_ok s -> newton_ok (fst (irr_step f df s)).
Proof.
  intros (x & y & Hi & Hb & Hx & Hy). unfold inRange in Hx, Hy.
  unfold irr_step. rewrite Hi.
  destruct (irr_f_finite x) as (v & ->); [lra|].
  destruct (irr_df_finite x) as (d & ->); [lra|]. cbv zeta.
  set (s1 := if Num.abs #v <? nw_bestF s
             then mkNewton #x #x (Num.abs #v) else s).
  assert (H1 : exists y1 : R, nw_bestI s1 = #y1 /\ inRange y1).
  { unfold s1. destruct (Num.abs #v <? nw_bestF s).
    - exists x. split; [reflexivity | unfold inRange; lra].
    - exists y. split; [assumption | unfold inRange; lra]. }
  assert (H1i : nw_i s1 = #x).
  { unfold s1. now destruct (Num.abs #v <? nw_bestF s). }
  destruct H1 as (y1 & Hb1 & Hy1). clearbody s1.
  cbn [Num.abs Num.lt].
  destruct (Rltb (Rabs v) 1e-10).
  { exists x, x. cbn [fst nw_i nw_bestI]. unfold inRange. repeat split; lra. }
  destruct (Rlt_dec (Rabs d) 1e-15) as [Hd|Hd].
  { rewrite (Rltb_true _ _ Hd). cbn [fst]. exists x, y1.
    unfold inRange in *. repeat split; (assumption || lra). }
  rewrite (Rltb_false _ _ Hd).
  assert (Hd0 : d <> 0%R)
    by (apply (Rabs_small_nonzero d 1e-15); [lra|assumption]).
  rewrite div_fin by assumption. cbn [Num.sub Num.add Num.neg].
  rewrite le_fin, div_fin by lra.
  set (w0 := (x + - (v / d))%R).
  assert (Hw1 : exists w1 : R,
            (if Rleb w0 (-0.99) then #((x + - (0.99)) / 2) else #w0) = #w1
            /\ (-0.99 < w1)%R).
  { destruct (Rle_dec w0 (-0.99)) as [Hw|Hw].
    - rewrite (Rleb_true _ _ Hw). exists ((x + - (0.99)) / 2)%R.
      split; [reflexivity|lra].
    - rewrite (Rleb_false _ _ Hw). exists w0. split; [reflexivity|lra]. }
  destruct Hw1 as (w1 & -> & Hw1).
  unfold Num.gt. cbn [Num.lt]. rewrite div_fin by lra.
  assert (Hw2 : exists w2 : R,
            (if Rltb 10 w1 then #((x + 10) / 2) else #w1) = #w2
            /\ inRange w2).
  { unfold inRange. destruct (Rlt_dec 10 w1) as [Hw|Hw].
    - rewrite (Rltb_true _ _ Hw). exists ((x + 10) / 2)%R.
      split; [reflexivity|lra].
    - rewrite (Rltb_false _ _ Hw). exists w1. split; [reflexivity|lra]. }
  destruct Hw2 as (w2 & -> & Hw2).
  cbn [Num.sub Num.add Num.neg Num.abs Num.lt].
  destruct (Rltb (Rabs (w2 + - x)) 1e-10); cbn [fst].
  - exists x, w2. cbn [nw_i nw_bestI]. unfold inRange in *.
    repeat split; lra.
  - exists w2, y1. cbn [nw_i nw_bestI]. unfold inRange in *.
    repeat split; (assumption || lra).
Qed.

Lemma irr_newton_ok (k : nat) (s : newton) :
  newton_ok s -> newton_ok (irr_newton f df k s).
Proof.
  revert s. induction k as [|k IH]; intros s Hs; [exact Hs|].
  cbn [irr_newton].
  pose proof (irr_step_ok s Hs) as H.
  destruct (irr_step f df s) as [s' stop]. cbn [fst] in H.
  destruct stop; [exact H | now apply IH].
Qed.

End IrrRange.

(** The probe of [bisectionIRR] does not ask whether a test point lies
    inside the bracket; its six test points do lie inside [[-0.99, 2]]. *)
Lemma irr_probe_ok (f : num -> num) (L H : R) (b : bracket) (tests : list R) :
  (L <= H)%R -> b_lo b = #L -> b_hi b = #H ->
  Forall (fun t => L <= t <= H)%R tests ->
  bracket_ok L H (irr_probe f b (map Fin tests)).
Proof.
  intros HLH Hlo Hhi Ht.
  induction Ht as [|t rest H1 _ IH]; cbn [map irr_probe].
  - exists L, H. repeat split; (assumption || lra).
  - destruct (f #t * b_fLo b <? #0).
    + exists L, t. cbn [b_lo b_hi]. repeat split; (assumption || lra).
    + destruct (f #t * b_fHi b <? #0); [|exact IH].
      exists t, H. cbn [b_lo b_hi]. repeat split; (assumption || lra).
Qed.

Lemma bisectionIRR_in_bracket (f : num -> num) (maxIter : nat) :
  exists z : R,
    bisectionIRR f #(-0.99) #2 maxIter = #z /\ (-0.99 <= z <= 2)%R.
Proof.
  unfold bisectionIRR. cbv zeta. apply bisectLoop_in_bracket.
  set (b := mkBracket #(-0.99) #2 (f #(-0.99)) (f #2)).
  destruct (b_fLo b * b_fHi b >? #0).
  - change irr_tests with (map Fin [-0.5; 0; 0.01; 0.1; 0.5; 1]%R).
    apply irr_probe_ok; try reflexivity; [lra|].
    repeat constructor; lra.
  - exists (-0.99)%R, 2%R. cbn [b b_lo b_hi]. repeat split; lra.
Qed.

(** For a finite series, the periodic rate behind every IRR that
    [calculateIRR] returns lies in [[-0.99, 10]]: the IRR is between
    [-99 * py] and [1000 * py] percent. *)
Theorem calculateIRR_range (cashFlows : list R) (py : R) (rate : num) :
  calculateIRR (map Fin cashFlows) #py = Some rate ->
  exists z : R,
    rate = #(z * py * 100) /\ (-0.99 <= z <= 10)%R /\ (0 < py)%R.
Proof.
  unfold calculateIRR.
  destruct (Nat.ltb (List.length (map Fin cashFlows)) 2); [discriminate|].
  rewrite le_fin.
  destruct (Rle_dec py 0) as [Hpy|Hpy].
  { rewrite (Rleb_true _ _ Hpy). discriminate. }
  rewrite (Rleb_false _ _ Hpy).
  destruct (negb (hasPositive (map Fin cashFlows))
            || negb (hasNegative (map Fin cashFlows))); [discriminate|].
  intros E. injection E as E. subst rate.
  assert (Hz : exists z : R,
            irr_periodic (map Fin cashFlows) = #z /\ (-0.99 <= z <= 10)%R).
  { unfold irr_periodic, irr_newtonBest. cbv zeta.
    assert (H0 : newton_ok
                   (mkNewton #0.1 #0.1
                      (Num.abs (npvFunc (map Fin cashFlows) #0.1)))).
    { exists 0.1%R, 0.1%R. unfold inRange. repeat split; lra. }
    destruct (irr_newton_ok cashFlows 100 _ H0) as (x & y & _ & Hb & _ & Hy).
    rewrite Hb. unfold inRange in Hy.
    destruct (Num.abs (npvFunc (map Fin cashFlows) #y) >? #1e-6).
    - destruct (bisectionIRR_in_bracket (npvFunc (map Fin cashFlows)) 100)
        as (z & -> & Hz).
      exists z. split; [reflexivity | lra].
    - exists y. split; [reflexivity | lra]. }
  destruct Hz as (z & -> & Hz). exists z. cbn [Num.mul].
  repeat split; lra.
Qed.

Lemma one_return_irr :
  calculateIRR one_return_flows #1 = Some #(0.1 * 1 * 100).
Proof.
  unfold calculateIRR, one_return_flows.
  cbn [List.length Nat.ltb Nat.leb hasPositive hasNegative existsb].
  rewrite le_fin. unfold Num.gt. cbn [Num.lt]. rcompare. cbn [negb orb].
  unfold irr_periodic. fold one_return_flows.
  rewrite one_return_newton, one_return_npv.
  unfold Num.gt. cbn [Num.abs Num.lt]. rcompare. reflexivity.
Qed.

Lemma calculateIRR_range_witness :
  exists z : R,
    #(0.1 * 1 * 100) = #(z * 1 * 100) /\ (-0.99 <= z <= 10)%R /\ (0 < 1)%R.
Proof.
  apply (calculateIRR_range [-1; 1.1]%R 1 #(0.1 * 1 * 100)).
  exact one_return_irr.
Defined.

(* ================================================================== *)
(** * CPT and the registers *)
(* ================================================================== *)

Lemma registersFinite_same (st st' : state) :
  registers st' = registers st -> registersFinite st -> registersFinite st'.
Proof.
  unfold registers, registersFinite. cbn [map tvmVars].
  intros E H v x Hv. apply (H v).
  injection E as E1 E2 E3 E4 E5. destruct v; cbn [getReg] in *; congruence.
Qed.

Lemma registersFinite_storeResult (v : tvmVar) (result : num) (st : state) :
  Num.isFinite result = true -> registersFinite st ->
  registersFinite (storeResult v result st).
Proof.
  intros Hr H w x. destruct v, w; cbn; intros E;
    try (injection E as <-; exact Hr);
    first [ apply (H VarN x E) | apply (H VarIY x E) | apply (H VarPV x E)
          | apply (H VarPMT x E) | apply (H VarFV x E) ].
Qed.

Lemma registersFinite_setNull (v : tvmVar) (st : state) :
  registersFinite st -> registersFinite (setReg v None st).
Proof.
  intros H w x. destruct v, w; cbn; intros E; try discriminate;
    first [ apply (H VarN x E) | apply (H VarIY x E) | apply (H VarPV x E)
          | apply (H VarPMT x E) | apply (H VarFV x E) ].
Qed.

Lemma computeVariable_registersFinite (v : tvmVar) (st : state) :
  registersFinite st -> registersFinite (computeVariable v st).
Proof.
  intros H. destruct (solved (computeVariable v st)) eqn:Hs.
  - revert Hs. unfold computeVariable.
    set (st1 := clearMessage (setComputeArmed false st)).
    destruct ((st_py st1 <=? #0) || (st_cy st1 <=? #0)); [discriminate|].
    cbn [computeVariable_finish].
    destruct (Num.isFinite (computeVariable_switch v (setReg v None st1)))
      eqn:Hf; cbn [negb]; [|discriminate].
    intros _.
    apply (registersFinite_same
             (storeResult v (computeVariable_switch v (setReg v None st1))
                (setReg v None st1))); [reflexivity|].
    apply registersFinite_storeResult; [exact Hf|].
    apply registersFinite_setNull.
    apply (registersFinite_same st); [reflexivity | exact H].
  - apply (registersFinite_same st); [|exact H].
    now apply computeVariable_unsolved.
Qed.

(** CPT never stores NaN or an infinity: if every register that is set
    holds a finite number before [compute] or [computeVariable], the same
    is true after it. *)
Theorem compute_registersFinite (st : state) (v : tvmVar) :
  registersFinite st ->
  registersFinite (compute st) /\ registersFinite (computeVariable v st).
Proof.
  intros H. split; [|now apply computeVariable_registersFinite].
  destruct (solved (compute st)) eqn:Hs.
  - revert Hs. unfold compute.
    set (st1 := setRclMode false (clearMessage st)).
    assert (H1 : registersFinite st1)
      by (apply (registersFinite_same st); [reflexivity | exact H]).
    destruct ((st_py st1 <=? #0) || (st_cy st1 <=? #0)); [discriminate|].
    destruct (Nat.eqb (List.length (blankVarsOf st1)) 0).
    + destruct (st_lastComputedVar st1) as [w|]; [|discriminate].
      intros _. now apply computeVariable_registersFinite.
    + destruct (Nat.ltb 1 (List.length (blankVarsOf st1))); [discriminate|].
      destruct (blankVarsOf st1) as [|solveFor rest]; [discriminate|].
      cbn [compute_finish].
      destruct (Num.isFinite (compute_switch solveFor st1)) eqn:Hf;
        cbn [negb orb]; [|discriminate].
      destruct (Num.isNaN (compute_switch solveFor st1)); [discriminate|].
      intros _.
      apply (registersFinite_same
               (storeResult solveFor (compute_switch solveFor st1) st1));
        [reflexivity|].
      now apply registersFinite_storeResult.
  - apply (registersFinite_same st); [|exact H].
    now apply compute_unsolved.
Qed.

Lemma all_set_registersFinite : registersFinite all_set_state.
Proof. intros v x. destruct v; cbn; intros E; injection E as <-; reflexivity. Qed.

Lemma compute_registersFinite_witness :
  registersFinite (compute all_set_state)
  /\ registersFinite (computeVariable VarFV all_set_state).
Proof.
  apply (compute_registersFinite all_set_state VarFV).
  exact all_set_registersFinite.
Defined.

Lemma blankVars_after_store (v : tvmVar) (result : num) (st : state) :
  blankVarsOf st = [v] -> blankVarsOf (storeResult v result st) = [].
Proof.
  destruct st as [rn ri rv rp rf ? ? ? ? ? ? ? ? ? ? ?].
  unfold blankVarsOf; cbn.
  destruct rn, ri, rv, rp, rf, v; cbn; intros E;
    (reflexivity || discriminate).
Qed.

(** After a CPT that solved for the one unset register [v], a second CPT
    finds every register set and computes [v] again, this time through
    [computeVariable]. *)
Theorem compute_again (st : state) (v : tvmVar) :
  validFrequencies st = true ->
  blankVarsOf st = [v] ->
  solved (compute st) = true ->
  blankVarsOf (compute st) = []
  /\ st_lastComputedVar (compute st) = Some v
  /\ compute (compute st)
     = computeVariable v (setRclMode false (clearMessage (compute st))).
Proof.
  intros Hv Hb.
  assert (E : compute st
              = compute_finish v
                  (Returns (compute_switch v (setRclMode false (clearMessage st))))
                  (setRclMode false (clearMessage st))).
  { unfold compute.
    rewrite (validFrequencies_check (setRclMode false (clearMessage st)) Hv).
    change (blankVarsOf (setRclMode false (clearMessage st)))
      with (blankVarsOf st).
    rewrite Hb. reflexivity. }
  rewrite E. cbn [compute_finish].
  set (st1 := setRclMode false (clearMessage st)).
  set (r := compute_switch v st1).
  destruct (negb (Num.isFinite r) || Num.isNaN r); [discriminate|].
  intros _.
  set (st2 := showMessage (ResultText v r) success (storeResult v r st1)).
  assert (B : blankVarsOf st2 = []).
  { change (blankVarsOf st2) with (blankVarsOf (storeResult v r st1)).
    apply blankVars_after_store. exact Hb. }
  split; [exact B|]. split; [reflexivity|].
  unfold compute.
  rewrite (validFrequencies_check (setRclMode false (clearMessage st2)) Hv).
  change (blankVarsOf (setRclMode false (clearMessage st2)))
    with (blankVarsOf st2).
  rewrite B. reflexivity.
Qed.

Lemma rate_state_solved : solved (compute rate_state) = true.
Proof.
  unfold compute.
  rewrite validFrequencies_check by valid_frequencies.
  unfold rate_state. st_eval.
  unfold compute_switch, solveIY. st_eval.
  rewrite run_periodic.
  unfold nominalFromPeriodic. cbn [strictEq Num.eq toNumber].
  rcompare. reflexivity.
Qed.

Lemma compute_again_witness :
  blankVarsOf (compute rate_state) = []
  /\ st_lastComputedVar (compute rate_state) = Some VarIY
  /\ compute (compute rate_state)
     = computeVariable VarIY
         (setRclMode false (clearMessage (compute rate_state))).
Proof.
  apply (compute_again rate_state VarIY).
  - valid_frequencies.
  - reflexivity.
  - exact rate_state_solved.
Defined.

(* ================================================================== *)
(** * Setting the frequencies *)
(* ================================================================== *)

Lemma isInteger_spec (value : num) :
  isInteger value = true <-> exists k : Z, value = #(IZR k).
Proof.
  destruct value as [x| | |]; cbn [isInteger];
    try (split; [discriminate | intros (k & E); discriminate]).
  unfold Num.is_int. rewrite Reqb_spec. split.
  - intros E. exists (Int_part x). now rewrite E.
  - intros (k & E). injection E as ->. now rewrite Int_part_IZR.
Qed.

Lemma frequency_ok_spec (value : num) :
  (negb (isInteger value) = false /\ (value <? #1) || (value >? #999) = false)
  <-> exists k : Z, value = #(IZR k) /\ (1 <= k <= 999)%Z.
Proof.
  split.
  - intros [Hi Hr]. apply negb_false_iff, isInteger_spec in Hi.
    destruct Hi as (k & ->). exists k. split; [reflexivity|].
    apply orb_false_elim in Hr as [H1 H2].
    unfold Num.gt in H2. cbn [Num.lt] in H1, H2.
    unfold Rltb in H1, H2.
    destruct (Rlt_dec (IZR k) 1) as [|Ha]; [discriminate|].
    destruct (Rlt_dec 999 (IZR k)) as [|Hb]; [discriminate|].
    split; apply le_IZR; lra.
  - intros (k & -> & Hk).
    assert (1 <= IZR k <= 999)%R by (split; apply IZR_le; lia).
    split.
    + apply negb_false_iff, isInteger_spec. now exists k.
    + unfold Num.gt. cbn [Num.lt]. now rcompare.
Qed.

Lemma frequency_setters_spec (value : num) (st : state) :
  (snd (setPY value st) = true
   <-> exists k : Z, value = #(IZR k) /\ (1 <= k <= 999)%Z)
  /\ (snd (setCY value st) = true
      <-> exists k : Z, value = #(IZR k) /\ (1 <= k <= 999)%Z)
  /\ (snd (setPY value st) = true -> fst (setPY value st) = setPyField value st)
  /\ (snd (setCY value st) = true -> fst (setCY value st) = setCyField value st)
  /\ (snd (setPY value st) = false ->
      failed (fst (setPY value st)) = true
      /\ exists m, fst (setPY value st) = setMessage m st)
  /\ (snd (setCY value st) = false ->
      failed (fst (setCY value st)) = true
      /\ exists m, fst (setCY value st) = setMessage m st).
Proof.
  pose proof (frequency_ok_spec value) as S.
  unfold setPY, setCY.
  destruct (negb (isInteger value)); cbn [fst snd].
  - assert (N : ~ exists k : Z, value = #(IZR k) /\ (1 <= k <= 999)%Z).
    { intros Hk. apply S in Hk. destruct Hk. discriminate. }
    repeat split; try discriminate; try (intros Hk; now apply N in Hk);
      eexists; reflexivity.
  - destruct ((value <? #1) || (value >? #999)); cbn [fst snd].
    + assert (N : ~ exists k : Z, value = #(IZR k) /\ (1 <= k <= 999)%Z).
      { intros Hk. apply S in Hk. destruct Hk. discriminate. }
      repeat split; try discriminate; try (intros Hk; now apply N in Hk);
        eexists; reflexivity.
    + assert (Y : exists k : Z, value = #(IZR k) /\ (1 <= k <= 999)%Z).
      { apply S. split; reflexivity. }
      repeat split; try discriminate; try reflexivity; intros _; exact Y.
Qed.

(** [setPY] and [setCY] accept exactly the whole numbers 1 to 999: an
    accepted value becomes the frequency and nothing else changes; a
    rejected one leaves an error message and changes no other field. *)
Theorem frequency_setters (value : num) (st : state) :
  (snd (setPY value st) = true
   <-> exists k : Z, value = #(IZR k) /\ (1 <= k <= 999)%Z)
  /\ (snd (setCY value st) = true
      <-> exists k : Z, value = #(IZR k) /\ (1 <= k <= 999)%Z)
  /\ (snd (setPY value st) = true -> fst (setPY value st) = setPyField value st)
  /\ (snd (setCY value st) = true -> fst (setCY value st) = setCyField value st)
  /\ (snd (setPY value st) = false ->
      failed (fst (setPY value st)) = true
      /\ exists m, fst (setPY value st) = setMessage m st)
  /\ (snd (setCY value st) = false ->
      failed (fst (setCY value st)) = true
      /\ exists m, fst (setCY value st) = setMessage m st).
Proof. exact (frequency_setters_spec value st). Qed.

Lemma frequency_setters_witness :
  snd (setPY #(IZR 12) unset_frequency_state) = true
  /\ fst (setPY #(IZR 12) unset_frequency_state)
     = setPyField #(IZR 12) unset_frequency_state.
Proof.
  destruct (frequency_setters #(IZR 12) unset_frequency_state)
    as (Sp & _ & Ep & _).
  assert (H : snd (setPY #(IZR 12) unset_frequency_state) = true).
  { apply Sp. exists 12%Z. split; [reflexivity | lia]. }
  split; [exact H | exact (Ep H)].
Defined.

(** Once [setPY] and [setCY] have both accepted a value, the frequency
    check of CPT passes. *)
Theorem frequencies_set_then_valid (p c : num) (st : state) :
  snd (setPY p st) = true ->
  snd (setCY c (fst (setPY p st))) = true ->
  validFrequencies (fst (setCY c (fst (setPY p st)))) = true.
Proof.
  intros Hp Hc.
  destruct (frequency_setters_spec p st) as (Sp & _ & Ep & _).
  destruct (frequency_setters_spec c (fst (setPY p st)))
    as (_ & Sc & _ & Ec & _).
  rewrite (Ec Hc), (Ep Hp).
  apply Sp in Hp as (k & -> & Hk). apply Sc in Hc as (j & -> & Hj).
  assert (1 <= IZR k)%R by (apply IZR_le; lia).
  assert (1 <= IZR j)%R by (apply IZR_le; lia).
  unfold validFrequencies, Num.gt. cbn. now rcompare.
Qed.

Lemma frequencies_set_then_valid_witness :
  validFrequencies (fst (setCY #(IZR 4) (fst (setPY #(IZR 12) unset_frequency_state))))
  = true.
Proof.
  assert (H : forall st k, (1 <= k <= 999)%Z -> snd (setPY #(IZR k) st) = true).
  { intros st k Hk. apply (proj1 (frequency_setters_spec _ st)). now exists k. }
  assert (G : forall st k, (1 <= k <= 999)%Z -> snd (setCY #(IZR k) st) = true).
  { intros st k Hk. apply (proj1 (proj2 (frequency_setters_spec _ st))). now exists k. }
  apply frequencies_set_then_valid; [apply H | apply G]; lia.
Defined.

(* ================================================================== *)
(** * Moving the selection and clearing a register *)
(* ================================================================== *)

(** From one of the five register rows, an up-arrow followed by a
    down-arrow, or a down-arrow followed by an up-arrow, comes back to the
    state it started from: the selection wraps around at both ends and no
    other field is touched. *)
Theorem navigate_round_trip (st : state) (s : string) :
  st_selectedVar st = Some s ->
  In s navVars ->
  navigateDown (navigateUp st) = st /\ navigateUp (navigateDown st) = st.
Proof.
  destruct st as [? ? ? ? ? ? ? ? ? ? sel ? ? ? ? ?].
  cbn [st_selectedVar]. intros -> Hin.
  unfold navVars in Hin. cbn [In] in Hin.
  destruct Hin as [<-|[<-|[<-|[<-|[<-|[]]]]]]; split; reflexivity.
Qed.

Lemma navigate_round_trip_witness :
  navigateDown (navigateUp (setSelectedVar (Some "N"%string) all_set_state))
  = setSelectedVar (Some "N"%string) all_set_state
  /\ navigateUp (navigateDown (setSelectedVar (Some "N"%string) all_set_state))
     = setSelectedVar (Some "N"%string) all_set_state.
Proof.
  apply (navigate_round_trip _ "N"%string).
  - reflexivity.
  - simpl. left. reflexivity.
Defined.

(** Whatever is selected (a register row, nothing, or anything else), an
    arrow key selects one of the five register rows and changes nothing
    but the selection. *)
Theorem navigate_lands_on_register (st : state) :
  exists up down : string,
    In up navVars /\ In down navVars
    /\ navigateUp st = setSelectedVar (Some up) st
    /\ navigateDown st = setSelectedVar (Some down) st.
Proof.
  unfold navigateUp, navigateDown, selectVariable.
  destruct (st_selectedVar st) as [s|].
  - cbn [indexOfFrom navVars].
    destruct (String.eqb s "N");
      [exists "FV"%string, "IY"%string; cbn; tauto|].
    destruct (String.eqb s "IY");
      [exists "N"%string, "PV"%string; cbn; tauto|].
    destruct (String.eqb s "PV");
      [exists "IY"%string, "PMT"%string; cbn; tauto|].
    destruct (String.eqb s "PMT");
      [exists "PV"%string, "FV"%string; cbn; tauto|].
    destruct (String.eqb s "FV");
      [exists "PMT"%string, "N"%string; cbn; tauto|].
    exists "FV"%string, "N"%string; cbn; tauto.
  - exists "FV"%string, "N"%string; cbn; tauto.
Qed.

Lemma getReg_clearRegister (v w : tvmVar) (st : state) :
  getReg (clearRegister v st) w = if tvmVar_eqb w v then None else getReg st w.
Proof.
  unfold clearRegister.
  destruct st as [? ? ? ? ? ? ? ? ? ? ? ? lc ? ? ?].
  destruct lc as [u|]; cbn;
    [destruct (tvmVar_eqb u v)|]; destruct v, w; reflexivity.
Qed.

Lemma tvmVar_eqb_neq (w v : tvmVar) : w <> v -> tvmVar_eqb w v = false.
Proof. destruct w, v; (reflexivity || congruence). Qed.

Lemma blankVars_clearRegister (v : tvmVar) (st : state) :
  (forall w, w <> v -> getReg st w <> None) ->
  blankVarsOf (clearRegister v st) = [v].
Proof.
  intros H. unfold blankVarsOf, tvmVars. cbn [filter].
  rewrite !getReg_clearRegister.
  destruct v; cbn [tvmVar_eqb isNull];
    repeat match goal with
    | |- context [getReg st ?w] =>
        let E := fresh in
        destruct (getReg st w) eqn:E;
        [|exfalso; apply (H w); [discriminate | exact E]]
    end; reflexivity.
Qed.

Lemma validFrequencies_clearRegister (v : tvmVar) (st : state) :
  validFrequencies (clearRegister v st) = validFrequencies st.
Proof.
  unfold clearRegister.
  destruct st as [? ? ? ? ? ? ? ? ? ? ? ? lc ? ? ?].
  destruct lc as [u|]; cbn; [destruct (tvmVar_eqb u v)|]; reflexivity.
Qed.

Lemma compute_one_blank (st0 : state) (v : tvmVar) :
  validFrequencies st0 = true ->
  blankVarsOf st0 = [v] ->
  (forall w, w <> v -> getReg (compute st0) w = getReg st0 w)
  /\ (solved (compute st0) = true ->
      st_lastComputedVar (compute st0) = Some v
      /\ exists r, Num.isFinite r = true
                   /\ getReg (compute st0) v = Some r)
  /\ (solved (compute st0) = false ->
      failed (compute st0) = true
      /\ getReg (compute st0) v = getReg st0 v).
Proof.
  intros Hv0 Hb.
  set (st1 := setRclMode false (clearMessage st0)).
  assert (E : compute st0
              = compute_finish v (Returns (compute_switch v st1)) st1).
  { unfold compute.
    rewrite (validFrequencies_check (setRclMode false (clearMessage st0)) Hv0).
    change (blankVarsOf (setRclMode false (clearMessage st0)))
      with (blankVarsOf st0).
    rewrite Hb. reflexivity. }
  assert (R1 : forall w, getReg st1 w = getReg st0 w)
    by (intros w; destruct w; reflexivity).
  rewrite E. cbn [compute_finish]. clear E.
  set (r := compute_switch v st1). clearbody r. clearbody st1.
  destruct (Num.isFinite r) eqn:Fr; cbn [negb orb].
  - destruct (Num.isNaN r) eqn:Nr.
    + repeat split; try discriminate.
      * intros w Hw. change (getReg st1 w = getReg st0 w). apply R1.
      * change (getReg st1 v = getReg st0 v). apply R1.
    + repeat split; try discriminate.
      * intros w Hw. rewrite <- R1.
        destruct v, w; (reflexivity || congruence).
      * exists r. split; [exact Fr|]. destruct v; reflexivity.
  - repeat split; try discriminate.
    + intros w Hw. change (getReg st1 w = getReg st0 w). apply R1.
    + change (getReg st1 v = getReg st0 v). apply R1.
Qed.

(** Pressing a register key with nothing typed clears that register.  When
    the other four registers are set and the frequencies are valid, the
    next CPT solves for exactly the cleared register: the other four keep
    their values, and the cleared one ends up holding a finite result (and
    is marked as the computed one) or, when no solution is found, stays
    unset. *)
Theorem clearRegister_then_compute (st : state) (v : tvmVar) :
  validFrequencies st = true ->
  (forall w, w <> v -> getReg st w <> None) ->
  blankVarsOf (clearRegister v st) = [v]
  /\ (forall w, w <> v ->
      getReg (compute (clearRegister v st)) w = getReg st w)
  /\ (solved (compute (clearRegister v st)) = true ->
      st_lastComputedVar (compute (clearRegister v st)) = Some v
      /\ exists r, Num.isFinite r = true
                   /\ getReg (compute (clearRegister v st)) v = Some r)
  /\ (solved (compute (clearRegister v st)) = false ->
      failed (compute (clearRegister v st)) = true
      /\ getReg (compute (clearRegister v st)) v = None).
Proof.
  intros Hv Hset.
  pose proof (blankVars_clearRegister v st Hset) as Hb.
  split; [exact Hb|].
  assert (Hv0 : validFrequencies (clearRegister v st) = true)
    by now rewrite validFrequencies_clearRegister.
  destruct (compute_one_blank (clearRegister v st) v Hv0 Hb) as (K & S & U).
  split; [|split].
  - intros w Hw. rewrite (K w Hw), getReg_clearRegister.
    now rewrite (tvmVar_eqb_neq w v Hw).
  - exact S.
  - intros H. destruct (U H) as [F G]. split; [exact F|].
    rewrite G, getReg_clearRegister. now destruct v.
Qed.

Lemma clearRegister_then_compute_witness :
  blankVarsOf (clearRegister VarFV all_set_state) = [VarFV]
  /\ forall w, w <> VarFV ->
     getReg (compute (clearRegister VarFV all_set_state)) w
     = getReg all_set_state w.
Proof.
  assert (Hv : validFrequencies all_set_state = true) by valid_frequencies.
  assert (Hs : forall w, w <> VarFV -> getReg all_set_state w <> None).
  { intros w Hw. destruct w; discriminate. }
  destruct (clearRegister_then_compute all_set_state VarFV Hv Hs)
    as (H1 & H2 & _).
  split; [exact H1 | exact H2].
Defined.

(* ================================================================== *)
(** * The cash-flow worksheet *)
(* ================================================================== *)

Lemma arraySet_length (a : jsArray) (i : nat) (v : num) :
  (i < List.length a)%nat -> List.length (arraySet a i v) = List.length a.
Proof.
  revert i. induction a as [|x a IH]; intros [|i] H; cbn in *; try lia.
  rewrite IH; lia.
Qed.

Lemma arraySet_numbers (a : jsArray) (i : nat) (v : num) :
  (i < List.length a)%nat ->
  forallb isNumber a = true -> forallb isNumber (arraySet a i v) = true.
Proof.
  revert i. induction a as [|x a IH]; intros [|i] H; cbn in *; try lia.
  - intros F. apply andb_prop in F as [_ F]. exact F.
  - intros F. apply andb_prop in F as [Fx F]. rewrite Fx. cbn.
    apply IH; [lia | exact F].
Qed.

Lemma arrayGet_arraySet_same (a : jsArray) (i : nat) (v : num) :
  arrayGet (arraySet a i v) i = Some v.
Proof.
  revert a. unfold arrayGet.
  induction i as [|i IH]; intros [|x a]; cbn; try reflexivity.
  - apply (IH []).
  - apply IH.
Qed.

Lemma arrayGet_arraySet_other (a : jsArray) (i j : nat) (v : num) :
  i <> j -> arrayGet (arraySet a i v) j = arrayGet a j.
Proof.
  revert a j. unfold arrayGet.
  induction i as [|i IH]; intros [|x a] [|j] H; cbn; try reflexivity;
    try congruence.
  - now destruct j.
  - rewrite (IH [] j) by congruence. now destruct j.
  - apply IH. congruence.
Qed.

Lemma numbers_firstn (a : jsArray) (k : nat) :
  forallb isNumber a = true -> forallb isNumber (firstn k a) = true.
Proof.
  revert k. induction a as [|x a IH]; intros [|k] F; cbn in *; try reflexivity.
  apply andb_prop in F as [Fx F]. rewrite Fx. cbn. now apply IH.
Qed.

Lemma numbers_skipn (a : jsArray) (k : nat) :
  forallb isNumber a = true -> forallb isNumber (skipn k a) = true.
Proof.
  revert k. induction a as [|x a IH]; intros [|k] F; cbn in *;
    try reflexivity; try exact F.
  apply andb_prop in F as [_ F]. now apply IH.
Qed.

Lemma spliceDelete_length (a : jsArray) (k : nat) :
  (k < List.length a)%nat ->
  S (List.length (spliceDelete a k)) = List.length a.
Proof.
  intros H. unfold spliceDelete.
  rewrite length_app, length_firstn, length_skipn. lia.
Qed.

Lemma spliceDelete_past_end (a : jsArray) (k : nat) :
  (List.length a <= k)%nat -> spliceDelete a k = a.
Proof.
  intros H. unfold spliceDelete.
  rewrite firstn_all2 by lia. rewrite skipn_all2 by lia. apply app_nil_r.
Qed.

Lemma spliceDelete_spliceInsert (a : jsArray) (k : nat) (v : num) :
  (k <= List.length a)%nat -> spliceDelete (spliceInsert a k v) k = a.
Proof.
  revert k. unfold spliceDelete, spliceInsert.
  induction a as [|x a IH]; intros [|k] H; cbn in *; try reflexivity; try lia.
  f_equal. apply IH. lia.
Qed.

Lemma spliceDelete_last (a : jsArray) (x : option num) :
  spliceDelete (a ++ [x]) (List.length a) = a.
Proof.
  unfold spliceDelete. induction a as [|y a IH]; cbn; [reflexivity|].
  f_equal. exact IH.
Qed.

Lemma spliceDelete_first (a : jsArray) (k : nat) :
  (0 < k)%nat -> arrayGet (spliceDelete a k) 0 = arrayGet a 0.
Proof.
  intros H. destruct k as [|k]; [lia|]. now destruct a.
Qed.

Lemma wsWellFormed_spec (w : worksheet) :
  wsWellFormed w = true
  <-> forallb isNumber (ws_cashFlows w) = true
      /\ (ws_cfIndex w < List.length (ws_cashFlows w))%nat.
Proof.
  unfold wsWellFormed. rewrite andb_true_iff, Nat.ltb_lt. reflexivity.
Qed.

Lemma wellFormed_selected (w : worksheet) :
  wsWellFormed w = true ->
  exists x, arrayGet (ws_cashFlows w) (ws_cfIndex w) = Some x.
Proof.
  intros H. apply wsWellFormed_spec in H as [F L].
  unfold arrayGet.
  destruct (nth_error (ws_cashFlows w) (ws_cfIndex w)) as [x|] eqn:E.
  - assert (Hx : isNumber x = true).
    { rewrite forallb_forall in F. apply F. eapply nth_error_In; eauto. }
    destruct x as [x|]; [now exists x | discriminate].
  - apply nth_error_None in E. lia.
Qed.

Lemma lastIndex_S (a : jsArray) (x : option num) :
  lastIndex (a ++ [x]) = List.length a.
Proof. unfold lastIndex. rewrite length_app. cbn. lia. Qed.

Lemma enterCFMode_wellFormed (w : worksheet) :
  wsWellFormed w = true -> wsWellFormed (enterCFMode w) = true.
Proof.
  intros H. apply wsWellFormed_spec in H as [F L].
  apply wsWellFormed_spec. unfold enterCFMode.
  destruct (ws_mode w); cbn; split; (assumption || lia).
Qed.

Lemma navigateCF_wellFormed (direction : string) (w : worksheet) :
  wsWellFormed w = true -> wsWellFormed (navigateCF direction w) = true.
Proof.
  intros H. pose proof H as H0. apply wsWellFormed_spec in H as [F L].
  unfold navigateCF. destruct (ws_mode w); try exact H0.
  apply wsWellFormed_spec. cbn [wsSetEntry ws_cashFlows ws_cfIndex].
  destruct (String.eqb direction "up" && Nat.ltb 0 (ws_cfIndex w)).
  { cbn. split; [assumption | lia]. }
  destruct (String.eqb direction "down"); [|split; assumption].
  destruct (Z.of_nat (ws_cfIndex w)
            <? Z.of_nat (List.length (ws_cashFlows w)) - 1)%Z eqn:E.
  - apply Z.ltb_lt in E. cbn. split; [assumption | lia].
  - cbn [wsSetFlows ws_cashFlows ws_cfIndex]. rewrite lastIndex_S. split.
    + rewrite forallb_app, F. reflexivity.
    + rewrite length_app. cbn. lia.
Qed.

Lemma storeCashFlow_wellFormed (value : num) (w : worksheet) :
  wsWellFormed w = true -> wsWellFormed (storeCashFlow value w) = true.
Proof.
  intros H. pose proof H as H0. apply wsWellFormed_spec in H as [F L].
  unfold storeCashFlow. destruct (ws_mode w); try exact H0.
  apply wsWellFormed_spec. cbn. split.
  - now apply arraySet_numbers.
  - now rewrite arraySet_length.
Qed.

Lemma deleteCashFlow_wellFormed (w : worksheet) :
  wsWellFormed w = true -> wsWellFormed (deleteCashFlow w) = true.
Proof.
  intros H. pose proof H as H0. apply wsWellFormed_spec in H as [F L].
  unfold deleteCashFlow. destruct (ws_mode w); try exact H0.
  apply wsWellFormed_spec. cbn [wsSetEntry ws_cashFlows ws_cfIndex].
  destruct (Nat.leb (List.length (ws_cashFlows w)) 1) eqn:E1.
  { cbn [wsShowMessage wsSetFlows ws_cashFlows ws_cfIndex]. split.
    - apply arraySet_numbers; [lia | exact F].
    - rewrite arraySet_length; lia. }
  apply Nat.leb_gt in E1.
  destruct (Nat.ltb 0 (ws_cfIndex w)) eqn:E2; [|split; assumption].
  cbn [wsShowMessage wsSetFlows ws_cashFlows ws_cfIndex].
  pose proof (spliceDelete_length (ws_cashFlows w) (ws_cfIndex w) L) as Hl.
  split.
  - unfold spliceDelete. rewrite forallb_app.
    now rewrite numbers_firstn, numbers_skipn.
  - destruct (Nat.leb (List.length (spliceDelete (ws_cashFlows w) (ws_cfIndex w)))
                (ws_cfIndex w)) eqn:E3.
    + unfold lastIndex. lia.
    + apply Nat.leb_gt in E3. exact E3.
Qed.

Lemma INS_wellFormed (w : worksheet) :
  wsWellFormed w = true -> wsWellFormed (handleKeyClick_INS w) = true.
Proof.
  intros H. pose proof H as H0. apply wsWellFormed_spec in H as [F L].
  unfold handleKeyClick_INS. destruct (ws_mode w); try exact H0.
  apply wsWellFormed_spec. cbn. unfold spliceInsert. split.
  - rewrite forallb_app. cbn [forallb isNumber].
    now rewrite numbers_firstn, numbers_skipn.
  - rewrite length_app, length_firstn. cbn [List.length].
    rewrite length_skipn. lia.
Qed.

(** The worksheet keeps its series well formed: starting from a series of
    numbers with the selection inside it (as on a freshly loaded page),
    the CF key, the arrows, storing, DEL and INS all leave a series of
    numbers, with no hole, and a selection inside it. *)
Theorem worksheet_wellFormed_kept (w : worksheet) (direction : string)
    (value : num) :
  wsWellFormed w = true ->
  wsWellFormed (enterCFMode w) = true
  /\ wsWellFormed (navigateCF direction w) = true
  /\ wsWellFormed (storeCashFlow value w) = true
  /\ wsWellFormed (deleteCashFlow w) = true
  /\ wsWellFormed (handleKeyClick_INS w) = true.
Proof.
  intros H. repeat split.
  - now apply enterCFMode_wellFormed.
  - now apply navigateCF_wellFormed.
  - now apply storeCashFlow_wellFormed.
  - now apply deleteCashFlow_wellFormed.
  - now apply INS_wellFormed.
Qed.

Lemma worksheet_wellFormed_kept_witness :
  wsWellFormed initialWorksheet = true
  /\ wsWellFormed (navigateCF "down" (enterCFMode initialWorksheet)) = true.
Proof.
  split; [reflexivity|].
  apply (worksheet_wellFormed_kept (enterCFMode initialWorksheet) "down" #0).
  reflexivity.
Defined.

(** INS followed by DEL gives back the series: the zero flow inserted
    after the selected one is the one deleted.  The selection ends one
    place further on, or on the last flow when it started there. *)
Theorem insert_then_delete (w : worksheet) :
  ws_mode w = ModeCf ->
  wsWellFormed w = true ->
  ws_cashFlows (deleteCashFlow (handleKeyClick_INS w)) = ws_cashFlows w
  /\ ws_cfIndex (deleteCashFlow (handleKeyClick_INS w))
     = Nat.min (ws_cfIndex w + 1) (List.length (ws_cashFlows w) - 1)
  /\ ws_mode (deleteCashFlow (handleKeyClick_INS w)) = ModeCf.
Proof.
  intros M H. apply wsWellFormed_spec in H as [F L].
  unfold handleKeyClick_INS. rewrite M.
  cbn [wsShowMessage wsSetEntry wsSetFlows ws_mode ws_cashFlows ws_cfIndex
       ws_entry ws_isNewEntry ws_message].
  set (a := ws_cashFlows w) in *. set (i := ws_cfIndex w) in *.
  unfold deleteCashFlow.
  cbn [wsShowMessage wsSetEntry wsSetFlows ws_mode ws_cashFlows ws_cfIndex
       ws_entry ws_isNewEntry ws_message].
  rewrite M.
  assert (La : List.length (spliceInsert a (i + 1) #0) = S (List.length a)).
  { unfold spliceInsert. rewrite length_app, length_firstn. cbn [List.length].
    rewrite length_skipn. lia. }
  rewrite La.
  replace (Nat.leb (S (List.length a)) 1) with false
    by (symmetry; apply Nat.leb_gt; lia).
  replace (Nat.ltb 0 (i + 1)) with true
    by (symmetry; apply Nat.ltb_lt; lia).
  cbn [wsShowMessage wsSetEntry wsSetFlows ws_mode ws_cashFlows ws_cfIndex
       ws_entry ws_isNewEntry ws_message].
  rewrite spliceDelete_spliceInsert by lia.
  split; [reflexivity|]. split; [|exact M].
  destruct (Nat.leb (List.length a) (i + 1)) eqn:E.
  - apply Nat.leb_le in E. unfold lastIndex. lia.
  - apply Nat.leb_gt in E. lia.
Qed.

Lemma insert_then_delete_witness :
  ws_cashFlows
    (deleteCashFlow (handleKeyClick_INS (enterCFMode initialWorksheet)))
  = [Some #0].
Proof.
  apply (insert_then_delete (enterCFMode initialWorksheet)); reflexivity.
Defined.

(** A down-arrow on the last flow appends a zero flow and selects it;
    deleting that flow gives back the series and the selection. *)
Theorem append_then_delete (w : worksheet) :
  ws_mode w = ModeCf ->
  wsWellFormed w = true ->
  S (ws_cfIndex w) = List.length (ws_cashFlows w) ->
  ws_cashFlows (navigateCF "down" w) = ws_cashFlows w ++ [Some #0]
  /\ ws_cfIndex (navigateCF "down" w) = List.length (ws_cashFlows w)
  /\ ws_cashFlows (deleteCashFlow (navigateCF "down" w)) = ws_cashFlows w
  /\ ws_cfIndex (deleteCashFlow (navigateCF "down" w)) = ws_cfIndex w.
Proof.
  intros M H Hlast. apply wsWellFormed_spec in H as [F L].
  unfold navigateCF. rewrite M.
  change (String.eqb "down" "up") with false.
  change (String.eqb "down" "down") with true.
  cbn [andb].
  replace (Z.of_nat (ws_cfIndex w)
           <? Z.of_nat (List.length (ws_cashFlows w)) - 1)%Z with false
    by (symmetry; apply Z.ltb_ge; lia).
  cbn [wsShowMessage wsSetEntry wsSetFlows ws_mode ws_cashFlows ws_cfIndex
       ws_entry ws_isNewEntry ws_message].
  rewrite lastIndex_S.
  set (a := ws_cashFlows w) in *. set (i := ws_cfIndex w) in *.
  split; [reflexivity|]. split; [reflexivity|].
  unfold deleteCashFlow.
  cbn [wsShowMessage wsSetEntry wsSetFlows ws_mode ws_cashFlows ws_cfIndex
       ws_entry ws_isNewEntry ws_message].
  rewrite M.
  assert (La : List.length (a ++ [Some #0]) = S (List.length a))
    by (rewrite length_app; cbn; lia).
  rewrite La.
  replace (Nat.leb (S (List.length a)) 1) with false
    by (symmetry; apply Nat.leb_gt; lia).
  replace (Nat.ltb 0 (List.length a)) with true
    by (symmetry; apply Nat.ltb_lt; lia).
  cbn [wsShowMessage wsSetEntry wsSetFlows ws_mode ws_cashFlows ws_cfIndex
       ws_entry ws_isNewEntry ws_message].
  rewrite spliceDelete_last.
  split; [reflexivity|].
  rewrite Nat.leb_refl. unfold lastIndex. lia.
Qed.

Lemma append_then_delete_witness :
  ws_cashFlows (deleteCashFlow (navigateCF "down" (enterCFMode initialWorksheet)))
  = [Some #0]
  /\ ws_cfIndex
       (deleteCashFlow (navigateCF "down" (enterCFMode initialWorksheet)))
     = 0%nat.
Proof.
  destruct (append_then_delete (enterCFMode initialWorksheet))
    as (_ & _ & H1 & H2); try reflexivity.
  split; [exact H1 | exact H2].
Defined.

(** Storing a value writes it at the selected position and nowhere else:
    reading that position gives the value back, every other position
    reads as before, and neither the length of the series nor the
    selection changes. *)
Theorem storeCashFlow_lookup (value : num) (w : worksheet) :
  ws_mode w = ModeCf ->
  wsWellFormed w = true ->
  arrayGet (ws_cashFlows (storeCashFlow value w)) (ws_cfIndex w) = Some value
  /\ (forall j, j <> ws_cfIndex w ->
      arrayGet (ws_cashFlows (storeCashFlow value w)) j
      = arrayGet (ws_cashFlows w) j)
  /\ List.length (ws_cashFlows (storeCashFlow value w))
     = List.length (ws_cashFlows w)
  /\ ws_cfIndex (storeCashFlow value w) = ws_cfIndex w.
Proof.
  intros M H. apply wsWellFormed_spec in H as [F L].
  unfold storeCashFlow. rewrite M.
  cbn [wsShowMessage wsSetEntry wsSetFlows ws_mode ws_cashFlows ws_cfIndex
       ws_entry ws_isNewEntry ws_message].
  repeat split.
  - apply arrayGet_arraySet_same.
  - intros j Hj. apply arrayGet_arraySet_other. congruence.
  - now apply arraySet_length.
Qed.

Lemma storeCashFlow_lookup_witness :
  arrayGet (ws_cashFlows (storeCashFlow #(-100) (enterCFMode initialWorksheet)))
    0
  = Some #(-100).
Proof.
  apply (storeCashFlow_lookup #(-100) (enterCFMode initialWorksheet));
    reflexivity.
Defined.

(** DEL never removes CF0 and never empties the series: with a single
    flow it resets that flow to 0; on CF0 of a longer series it refuses
    with an error and changes no flow; elsewhere it removes exactly the
    selected flow and CF0 stays what it was. *)
Theorem deleteCashFlow_keeps_first (w : worksheet) :
  ws_mode w = ModeCf ->
  wsWellFormed w = true ->
  (List.length (ws_cashFlows w) = 1%nat ->
   ws_cashFlows (deleteCashFlow w) = [Some #0])
  /\ ((1 < List.length (ws_cashFlows w))%nat -> ws_cfIndex w = 0%nat ->
      ws_cashFlows (deleteCashFlow w) = ws_cashFlows w
      /\ exists msg, ws_message (deleteCashFlow w) = Some (msg, error))
  /\ ((1 < List.length (ws_cashFlows w))%nat -> (0 < ws_cfIndex w)%nat ->
      S (List.length (ws_cashFlows (deleteCashFlow w)))
      = List.length (ws_cashFlows w)
      /\ arrayGet (ws_cashFlows (deleteCashFlow w)) 0
         = arrayGet (ws_cashFlows w) 0).
Proof.
  intros M H. apply wsWellFormed_spec in H as [F L].
  unfold deleteCashFlow. rewrite M.
  cbn [wsSetEntry ws_cashFlows ws_cfIndex ws_message].
  split; [|split].
  - intros H1. rewrite H1. cbn [Nat.leb].
    cbn [wsShowMessage wsSetFlows ws_cashFlows].
    destruct (ws_cashFlows w) as [|x [|y a]]; try discriminate. reflexivity.
  - intros H1 H0.
    replace (Nat.leb (List.length (ws_cashFlows w)) 1) with false
      by (symmetry; apply Nat.leb_gt; lia).
    rewrite H0. cbn. split; [reflexivity | eexists; reflexivity].
  - intros H1 H0.
    replace (Nat.leb (List.length (ws_cashFlows w)) 1) with false
      by (symmetry; apply Nat.leb_gt; lia).
    replace (Nat.ltb 0 (ws_cfIndex w)) with true
      by (symmetry; apply Nat.ltb_lt; lia).
    cbn [wsShowMessage wsSetFlows ws_cashFlows].
    split; [now apply spliceDelete_length | now apply spliceDelete_first].
Qed.

Lemma deleteCashFlow_keeps_first_witness :
  ws_cashFlows (deleteCashFlow (enterCFMode initialWorksheet)) = [Some #0].
Proof.
  destruct (deleteCashFlow_keeps_first (enterCFMode initialWorksheet))
    as (H & _); [reflexivity | reflexivity |].
  apply H. reflexivity.
Defined.

(* ================================================================== *)
(** * Keying in a problem *)
(* ================================================================== *)

Lemma compute_single_blank (st0 : state) (v : tvmVar) :
  validFrequencies st0 = true ->
  blankVarsOf st0 = [v] ->
  compute st0
  = compute_finish v
      (Returns (compute_switch v (setRclMode false (clearMessage st0))))
      (setRclMode false (clearMessage st0)).
Proof.
  intros Hv0 Hb. unfold compute.
  rewrite (validFrequencies_check (setRclMode false (clearMessage st0)) Hv0).
  change (blankVarsOf (setRclMode false (clearMessage st0)))
    with (blankVarsOf st0).
  rewrite Hb. reflexivity.
Qed.

Lemma finite_not_nan (x : num) : Num.isFinite x = true -> Num.isNaN x = false.
Proof. destruct x; (reflexivity || discriminate). Qed.

Lemma getReg_storeVariable (v w : tvmVar) (value : num) (st : state) :
  getReg (storeVariable v value st) w
  = if tvmVar_eqb w v then Some value else getReg st w.
Proof.
  unfold storeVariable.
  destruct st as [? ? ? ? ? ? ? ? ? ? ? ? lc ? ? ?].
  destruct lc as [u|]; cbn;
    [destruct (tvmVar_eqb u v)|]; destruct v, w; reflexivity.
Qed.

Lemma settings_storeVariable (v : tvmVar) (value : num) (st : state) :
  st_py (storeVariable v value st) = st_py st
  /\ st_cy (storeVariable v value st) = st_cy st
  /\ st_BGN (storeVariable v value st) = st_BGN st.
Proof.
  unfold storeVariable.
  destruct st as [? ? ? ? ? ? ? ? ? ? ? ? lc ? ? ?].
  destruct lc as [u|]; cbn; [destruct (tvmVar_eqb u v)|]; repeat split.
Qed.

Lemma settings_clearRegister (v : tvmVar) (st : state) :
  st_py (clearRegister v st) = st_py st
  /\ st_cy (clearRegister v st) = st_cy st
  /\ st_BGN (clearRegister v st) = st_BGN st.
Proof.
  unfold clearRegister.
  destruct st as [? ? ? ? ? ? ? ? ? ? ? ? lc ? ? ?].
  destruct lc as [u|]; cbn; [destruct (tvmVar_eqb u v)|]; repeat split.
Qed.

(** Storing a value in a register and reading the register gives the
    value back; the other four registers, the frequencies and the payment
    timing are untouched, and the entry buffer is emptied. *)
Theorem storeVariable_lookup (v : tvmVar) (value : num) (st : state) :
  getReg (storeVariable v value st) v = Some value
  /\ (forall w, w <> v -> getReg (storeVariable v value st) w = getReg st w)
  /\ st_py (storeVariable v value st) = st_py st
  /\ st_cy (storeVariable v value st) = st_cy st
  /\ st_BGN (storeVariable v value st) = st_BGN st
  /\ st_entry (storeVariable v value st) = Typed "0"
  /\ st_isNewEntry (storeVariable v value st) = true.
Proof.
  split; [|split].
  - rewrite getReg_storeVariable. now destruct v.
  - intros w Hw. rewrite getReg_storeVariable.
    now rewrite (tvmVar_eqb_neq w v Hw).
  - destruct (settings_storeVariable v value st) as (P & C & B).
    repeat split; assumption.
Qed.

Lemma storeVariable_lookup_witness :
  getReg (storeVariable VarPV #(-100) all_set_state) VarPV = Some #(-100)
  /\ getReg (storeVariable VarPV #(-100) all_set_state) VarFV
     = getReg all_set_state VarFV.
Proof.
  destruct (storeVariable_lookup VarPV #(-100) all_set_state)
    as (H1 & H2 & _).
  split; [exact H1 | apply H2; discriminate].
Defined.

Lemma keyInForFV_registers (n iy pv pmt : num) (st : state) :
  getReg (keyInForFV n iy pv pmt st) VarN = Some n
  /\ getReg (keyInForFV n iy pv pmt st) VarIY = Some iy
  /\ getReg (keyInForFV n iy pv pmt st) VarPV = Some pv
  /\ getReg (keyInForFV n iy pv pmt st) VarPMT = Some pmt
  /\ getReg (keyInForFV n iy pv pmt st) VarFV = None.
Proof.
  unfold keyInForFV.
  repeat split; rewrite getReg_clearRegister; cbn [tvmVar_eqb];
    rewrite ?getReg_storeVariable; reflexivity.
Qed.

Lemma keyInForFV_settings (n iy pv pmt : num) (st : state) :
  st_py (keyInForFV n iy pv pmt st) = st_py st
  /\ st_cy (keyInForFV n iy pv pmt st) = st_cy st
  /\ st_BGN (keyInForFV n iy pv pmt st) = st_BGN st.
Proof.
  unfold keyInForFV.
  destruct (settings_clearRegister VarFV
              (storeVariable VarPMT pmt
                 (storeVariable VarPV pv
                    (storeVariable VarIY iy (storeVariable VarN n st)))))
    as (-> & -> & ->).
  destruct (settings_storeVariable VarPMT pmt
              (storeVariable VarPV pv
                 (storeVariable VarIY iy (storeVariable VarN n st))))
    as (-> & -> & ->).
  destruct (settings_storeVariable VarPV pv
              (storeVariable VarIY iy (storeVariable VarN n st)))
    as (-> & -> & ->).
  destruct (settings_storeVariable VarIY iy (storeVariable VarN n st))
    as (-> & -> & ->).
  destruct (settings_storeVariable VarN n st) as (-> & -> & ->).
  repeat split.
Qed.

Lemma compute_switch_FV (st0 : state) (n iy pv pmt : num) :
  getReg st0 VarN = Some n -> getReg st0 VarIY = Some iy ->
  getReg st0 VarPV = Some pv -> getReg st0 VarPMT = Some pmt ->
  compute_switch VarFV st0
  = solveFV n (getPeriodicRate iy (st_cy st0) (st_py st0)) pv pmt (st_BGN st0).
Proof.
  cbn [getReg]. intros Hn Hi Hv Hp.
  unfold compute_switch. rewrite Hn, Hi, Hv, Hp. reflexivity.
Qed.

Lemma compute_for_FV (st0 : state) (n iy pv pmt : num) :
  validFrequencies st0 = true ->
  getReg st0 VarN = Some n -> getReg st0 VarIY = Some iy ->
  getReg st0 VarPV = Some pv -> getReg st0 VarPMT = Some pmt ->
  getReg st0 VarFV = None ->
  (Num.isFinite
     (solveFV n (getPeriodicRate iy (st_cy st0) (st_py st0)) pv pmt (st_BGN st0))
   = true ->
   getReg (compute st0) VarFV
   = Some (solveFV n (getPeriodicRate iy (st_cy st0) (st_py st0)) pv pmt
             (st_BGN st0))
   /\ solved (compute st0) = true)
  /\ (Num.isFinite
        (solveFV n (getPeriodicRate iy (st_cy st0) (st_py st0)) pv pmt
           (st_BGN st0))
      = false ->
      getReg (compute st0) VarFV = None /\ failed (compute st0) = true)
  /\ getReg (compute st0) VarN = Some n
  /\ getReg (compute st0) VarIY = Some iy
  /\ getReg (compute st0) VarPV = Some pv
  /\ getReg (compute st0) VarPMT = Some pmt.
Proof.
  intros Hv0 Rn Ri Rv Rp Rf.
  assert (Hb : blankVarsOf st0 = [VarFV]).
  { unfold blankVarsOf, tvmVars. cbn [filter].
    now rewrite Rn, Ri, Rv, Rp, Rf. }
  rewrite (compute_single_blank st0 VarFV Hv0 Hb).
  rewrite (compute_switch_FV (setRclMode false (clearMessage st0))
             n iy pv pmt Rn Ri Rv Rp).
  change (st_cy (setRclMode false (clearMessage st0))) with (st_cy st0).
  change (st_py (setRclMode false (clearMessage st0))) with (st_py st0).
  change (st_BGN (setRclMode false (clearMessage st0))) with (st_BGN st0).
  generalize (solveFV n (getPeriodicRate iy (st_cy st0) (st_py st0)) pv pmt
                (st_BGN st0)).
  intros r. cbn [compute_finish].
  destruct st0 as [rn ri rv rp rf ? ? ? ? ? ? ? ? ? ? ?].
  cbn [getReg st_N st_IY st_PV st_PMT st_FV] in Rn, Ri, Rv, Rp, Rf.
  subst rn ri rv rp rf.
  split; [|split].
  - intros Fr. rewrite Fr, (finite_not_nan r Fr). cbn [negb orb].
    split; reflexivity.
  - intros Fr. rewrite Fr. cbn [negb orb]. split; reflexivity.
  - destruct (negb (Num.isFinite r) || Num.isNaN r); repeat split.
Qed.

(** Keying in N, I/Y, PV and PMT, pressing FV with nothing typed and then
    CPT computes the future value of exactly those four numbers at the
    frequencies and payment timing in force: when [solveFV] gives a finite
    number it is stored in FV and reported as a success; otherwise CPT
    reports an error and FV stays unset.  In both cases the four keyed
    registers hold what was keyed in. *)
Theorem keyed_in_future_value (st : state) (n iy pv pmt : num) :
  validFrequencies st = true ->
  (Num.isFinite
     (solveFV n (getPeriodicRate iy (st_cy st) (st_py st)) pv pmt (st_BGN st))
   = true ->
   getReg (compute (keyInForFV n iy pv pmt st)) VarFV
   = Some (solveFV n (getPeriodicRate iy (st_cy st) (st_py st)) pv pmt
             (st_BGN st))
   /\ solved (compute (keyInForFV n iy pv pmt st)) = true)
  /\ (Num.isFinite
        (solveFV n (getPeriodicRate iy (st_cy st) (st_py st)) pv pmt (st_BGN st))
      = false ->
      getReg (compute (keyInForFV n iy pv pmt st)) VarFV = None
      /\ failed (compute (keyInForFV n iy pv pmt st)) = true)
  /\ getReg (compute (keyInForFV n iy pv pmt st)) VarN = Some n
  /\ getReg (compute (keyInForFV n iy pv pmt st)) VarIY = Some iy
  /\ getReg (compute (keyInForFV n iy pv pmt st)) VarPV = Some pv
  /\ getReg (compute (keyInForFV n iy pv pmt st)) VarPMT = Some pmt.
Proof.
  intros Hv.
  destruct (keyInForFV_registers n iy pv pmt st) as (Rn & Ri & Rv & Rp & Rf).
  destruct (keyInForFV_settings n iy pv pmt st) as (Sp & Sc & Sb).
  assert (Hv0 : validFrequencies (keyInForFV n iy pv pmt st) = true).
  { unfold validFrequencies in *. now rewrite Sp, Sc. }
  pose proof (compute_for_FV (keyInForFV n iy pv pmt st) n iy pv pmt
                Hv0 Rn Ri Rv Rp Rf) as K.
  rewrite Sp, Sc, Sb in K. exact K.
Qed.

Lemma keyed_in_future_value_witness :
  getReg (compute (keyInForFV #1 #10 #(-100) #0 all_set_state)) VarN = Some #1
  /\ getReg (compute (keyInForFV #1 #10 #(-100) #0 all_set_state)) VarPMT
     = Some #0.
Proof.
  assert (Hv : validFrequencies all_set_state = true) by valid_frequencies.
  destruct (keyed_in_future_value all_set_state #1 #10 #(-100) #0 Hv)
    as (_ & _ & H1 & _ & _ & H2).
  split; [exact H1 | exact H2].
Defined.

(** After a reset the frequencies are unset and every register is empty:
    CPT, and a CPT on any register, refuse with an error and store
    nothing. *)
Theorem reset_then_compute_refused (st : state) (v : tvmVar) :
  failed (compute (reset st)) = true
  /\ failed (computeVariable v (reset st)) = true
  /\ validFrequencies (reset st) = false
  /\ registers (compute (reset st)) = [None; None; None; None; None]
  /\ registers (computeVariable v (reset st)) = [None; None; None; None; None].
Proof.
  assert (Z0 : (#0 <=? #0) = true) by (rewrite le_fin; now rcompare).
  assert (G0 : (#0 >? #0) = false) by (unfold Num.gt; cbn; now rcompare).
  unfold compute, computeVariable, reset, validFrequencies.
  cbn [setRclMode clearMessage setMessage setComputeArmed st_py st_cy
       st_N st_IY st_PV st_PMT st_FV st_BGN st_entry st_isNewEntry
       st_selectedVar st_lastComputed st_lastComputedVar st_rclMode
       st_computeArmed st_message].
  rewrite Z0, G0. cbn [orb andb]. repeat split.
Qed.

(* ================================================================== *)
(** * Net present value at a zero rate; the amortization window *)
(* ================================================================== *)




Lemma floorNum_step (p : nat) (a : num) :
  (#(INR p) <? floorNum a) = true ->
  (#(INR (p + 1)) <=? floorNum a) = true.
Proof.
  destruct a as [x| | |]; cbn [floorNum]; try discriminate;
    [|reflexivity].
  cbn [Num.lt]. intros H. apply Rltb_spec in H.
  rewrite le_fin. apply Rleb_true.
  rewrite INR_IZR_INZ in *. apply lt_IZR in H.
  apply IZR_le. lia.
Qed.

Lemma navigateAmort_view (direction : string) (st : state) (a : amortView) :
  av_mode a = ModeAmort ->
  av_amortP1 a = av_amortP2 a ->
  let p := av_amortP1 a in
  let p' := av_amortP1 (snd (navigateAmort direction st a)) in
  av_amortP2 (snd (navigateAmort direction st a)) = p'
  /\ av_amortResults (snd (navigateAmort direction st a))
     = calculateAmort st p' p'
  /\ p' = if String.eqb direction "up" then
             if Nat.ltb 1 p then (p - 1)%nat else p
           else if String.eqb direction "down" then
             if #(INR p) <? floorNum (numOfReg (st_N st)) then (p + 1)%nat
             else p
           else p.
Proof.
  intros M E. unfold navigateAmort. rewrite M, <- E.
  destruct (String.eqb direction "up").
  - destruct (Nat.ltb 1 (av_amortP1 a)); cbn; rewrite <- ?E; repeat split.
  - destruct (String.eqb direction "down").
    + destruct (#(INR (av_amortP1 a)) <? floorNum (numOfReg (st_N st)));
        cbn; rewrite <- ?E; repeat split.
    + cbn; rewrite <- ?E; repeat split.
Qed.

Lemma le_num_down (p q : nat) (m : num) :
  (q <= p)%nat -> (#(INR p) <=? m) = true -> (#(INR q) <=? m) = true.
Proof.
  intros Hq. destruct m as [x| | |]; try discriminate; [|reflexivity].
  rewrite !le_fin. unfold Rleb at 1.
  destruct (Rle_dec (INR p) x) as [H|]; [intros _ | discriminate].
  apply Rleb_true. apply le_INR in Hq. lra.
Qed.

(** In the amortization view an arrow key keeps the window a single
    period between 1 and [Math.floor(N)] (period 1 when N is below 1),
    moves it by at most one period, and leaves the results of exactly
    that period on display. *)
Theorem navigateAmort_window (direction : string) (st : state)
    (a : amortView) :
  av_mode a = ModeAmort ->
  singlePeriod st a ->
  singlePeriod st (snd (navigateAmort direction st a))
  /\ (av_amortP1 a - 1 <= av_amortP1 (snd (navigateAmort direction st a))
      <= av_amortP1 a + 1)%nat
  /\ av_amortResults (snd (navigateAmort direction st a))
     = calculateAmort st
         (av_amortP1 (snd (navigateAmort direction st a)))
         (av_amortP1 (snd (navigateAmort direction st a))).
Proof.
  intros M (E & L & U).
  destruct (navigateAmort_view direction st a M E) as (E' & R' & P').
  cbv zeta in *. unfold singlePeriod. rewrite E'.
  revert R' P'.
  generalize (av_amortP1 (snd (navigateAmort direction st a))).
  generalize (av_amortResults (snd (navigateAmort direction st a))).
  intros results p' R' P'.
  assert (K : (1 <= p')%nat
              /\ (p' = 1%nat
                  \/ (#(INR p') <=? floorNum (numOfReg (st_N st))) = true)
              /\ (av_amortP1 a - 1 <= p' <= av_amortP1 a + 1)%nat).
  { destruct (String.eqb direction "up").
    - destruct (Nat.ltb 1 (av_amortP1 a)) eqn:C; subst p'.
      + apply Nat.ltb_lt in C. split; [lia|]. split; [|lia].
        destruct U as [U|U]; [lia|]. right.
        apply (le_num_down (av_amortP1 a)); [lia | exact U].
      + split; [exact L|]. split; [exact U | lia].
    - destruct (String.eqb direction "down").
      + destruct (#(INR (av_amortP1 a)) <? floorNum (numOfReg (st_N st)))
          eqn:C; subst p'.
        * split; [lia|]. split; [|lia]. right. now apply floorNum_step.
        * split; [exact L|]. split; [exact U | lia].
      + subst p'. split; [exact L|]. split; [exact U | lia]. }
  destruct K as (K1 & K2 & K3).
  repeat split; (assumption || lia).
Qed.

Lemma navigateAmort_window_witness :
  singlePeriod all_set_state
    (snd (navigateAmort "down" all_set_state
            (mkAmortView ModeAmort 1 1 None))).
Proof.
  apply (navigateAmort_window "down" all_set_state
           (mkAmortView ModeAmort 1 1 None)).
  - reflexivity.
  - unfold singlePeriod. cbn. repeat split; [lia | left; reflexivity].
Defined.

Lemma navigateAmort_state (direction : string) (st : state) (a : amortView) :
  st_N (fst (navigateAmort direction st a)) = st_N st
  /\ forall p1 p2,
       calculateAmort (fst (navigateAmort direction st a)) p1 p2
       = calculateAmort st p1 p2.
Proof.
  unfold navigateAmort, calculateAmortStep.
  destruct (av_mode a); cbn [fst]; try (split; reflexivity).
  match goal with
  | |- context [match ?r with Some _ => _ | None => _ end] => destruct r
  end; split; reflexivity.
Qed.

(** Where the schedule goes on, a down-arrow followed by an up-arrow
    comes back to the same period and the same results. *)
Theorem navigateAmort_down_up (st : state) (a : amortView) :
  av_mode a = ModeAmort ->
  av_amortP1 a = av_amortP2 a ->
  (1 <= av_amortP1 a)%nat ->
  (#(INR (av_amortP2 a)) <? floorNum (numOfReg (st_N st))) = true ->
  av_amortP1 (snd (navigateAmort "down" st a)) = (av_amortP1 a + 1)%nat
  /\ av_amortP1
       (snd (navigateAmort "up" (fst (navigateAmort "down" st a))
               (snd (navigateAmort "down" st a))))
     = av_amortP1 a
  /\ av_amortP2
       (snd (navigateAmort "up" (fst (navigateAmort "down" st a))
               (snd (navigateAmort "down" st a))))
     = av_amortP2 a
  /\ av_amortResults
       (snd (navigateAmort "up" (fst (navigateAmort "down" st a))
               (snd (navigateAmort "down" st a))))
     = calculateAmort st (av_amortP1 a) (av_amortP1 a).
Proof.
  intros M E L C.
  destruct (navigateAmort_view "down" st a M E) as (E1 & R1 & P1).
  destruct (navigateAmort_state "down" st a) as (_ & S1).
  cbv zeta in *.
  change (String.eqb "down" "up") with false in P1.
  change (String.eqb "down" "down") with true in P1.
  cbn iota in P1. rewrite E, C in P1.
  assert (M1 : av_mode (snd (navigateAmort "down" st a)) = ModeAmort).
  { unfold navigateAmort. rewrite M.
    change (String.eqb "down" "up") with false.
    change (String.eqb "down" "down") with true.
    cbn iota. rewrite C. reflexivity. }
  destruct (navigateAmort_view "up" (fst (navigateAmort "down" st a))
              (snd (navigateAmort "down" st a)) M1 (eq_sym E1))
    as (E2 & R2 & P2).
  cbv zeta in *.
  change (String.eqb "up" "up") with true in P2. cbn iota in P2.
  rewrite P1 in P2.
  replace (Nat.ltb 1 (av_amortP2 a + 1)) with true in P2
    by (symmetry; apply Nat.ltb_lt; lia).
  replace (av_amortP2 a + 1 - 1)%nat with (av_amortP2 a) in P2 by lia.
  split; [now rewrite P1, E|].
  split; [now rewrite P2, E|].
  split; [now rewrite E2, P2|].
  now rewrite R2, S1, P2, E.
Qed.

Lemma navigateAmort_down_up_witness :
  av_amortP1
    (snd (navigateAmort "up"
            (fst (navigateAmort "down" (setReg VarN (Some #3) rate_state)
                    (mkAmortView ModeAmort 1 1 None)))
            (snd (navigateAmort "down" (setReg VarN (Some #3) rate_state)
                    (mkAmortView ModeAmort 1 1 None)))))
  = 1%nat.
Proof.
  destruct (navigateAmort_down_up
              (setReg VarN (Some #3) rate_state)
              (mkAmortView ModeAmort 1 1 None)) as (_ & H & _).
  - reflexivity.
  - reflexivity.
  - cbn. lia.
  - cbn [setReg st_N numOfReg floorNum av_amortP2 INR Num.lt].
    rewrite Int_part_IZR. apply Rltb_true. lra.
  - exact H.
Defined.

(* ================================================================== *)
(** * The entry buffer *)
(* ================================================================== *)

Lemma countChars_append (p : ascii -> bool) (s t : string) :
  countChars p (s ++ t) = (countChars p s + countChars p t)%nat.
Proof. induction s as [|c s IH]; cbn; [reflexivity | rewrite IH; lia]. Qed.

Lemma countChars_sliceLast (p : ascii -> bool) (s : string) :
  (countChars p (sliceLast s) <= countChars p s)%nat.
Proof.
  induction s as [|c s IH]; cbn; [lia|].
  destruct s as [|d s]; [cbn; lia|].
  cbn [countChars] in *. lia.
Qed.

Lemma countChars_substring1 (p : ascii -> bool) (s : string) :
  (countChars p (substring1 s) <= countChars p s)%nat.
Proof. destruct s; cbn; lia. Qed.

Lemma sliceLast_append (s : string) (c : ascii) :
  sliceLast (s ++ String c EmptyString) = s.
Proof.
  induction s as [|a s IH]; [reflexivity|].
  cbn [String.append sliceLast]. rewrite IH.
  destruct s; reflexivity.
Qed.

Lemma length_append_char (s : string) (c : ascii) :
  String.length (s ++ String c EmptyString) = S (String.length s).
Proof. induction s as [|a s IH]; cbn; [reflexivity | now rewrite IH]. Qed.

Lemma digit_not_dot (c : ascii) : isDigit c = true -> isDot c = false.
Proof.
  unfold isDot. destruct (Ascii.eqb_spec c "."%char) as [->|]; [|reflexivity].
  discriminate.
Qed.

Lemma digit_not_minus (c : ascii) :
  isDigit c || isDot c = true -> Ascii.eqb c "-"%char = false.
Proof.
  destruct (Ascii.eqb_spec c "-"%char) as [->|]; [|reflexivity].
  discriminate.
Qed.

Lemma keyText_inv (digit : string) :
  keyText digit = true ->
  exists c, digit = String c EmptyString
            /\ ((isDigit c = true /\ isDot c = false
                 /\ String.eqb digit "." = false)
                \/ (isDot c = true /\ isDigit c = false /\ digit = "."%string)).
Proof.
  destruct digit as [|c [|d rest]]; try discriminate.
  cbn [keyText]. intros H. exists c. split; [reflexivity|].
  destruct (isDigit c) eqn:D.
  - left. pose proof (digit_not_dot c D) as N. repeat split; try assumption.
    cbn. unfold isDot in N. now rewrite N.
  - right. cbn in H. split; [exact H|]. split; [reflexivity|].
    unfold isDot in H. apply Ascii.eqb_eq in H. now subst c.
Qed.

(** The typing keys keep the entry within bounds: from an entry with at
    most one decimal point and at most twelve digits, a digit or
    decimal-point key, the sign key and the backspace key all leave an
    entry with at most one decimal point and at most twelve digits. *)
Theorem entry_stays_in_bounds (digit : string) (k : keypad) :
  keyText digit = true ->
  entryInBounds k = true ->
  entryInBounds (appendDigit digit k) = true
  /\ entryInBounds (negateEntry k) = true
  /\ entryInBounds (deleteLastChar k) = true.
Proof.
  intros Hd Hb. destruct k as [e isNew rcl armed msg].
  unfold entryInBounds, digitCount in *. cbn [kp_entry] in Hb.
  apply andb_prop in Hb as [Hdot Hdig].
  apply Nat.leb_le in Hdot, Hdig.
  destruct (keyText_inv digit Hd) as (c & -> & Hc).
  split; [|split].
  - unfold appendDigit, includesDot, digitCount, kpSetEntry.
    cbn [kp_entry kp_isNewEntry kpSetEntry].
    destruct isNew.
    + cbn [kp_entry].
      destruct (String.eqb (String c EmptyString) "."); [reflexivity|].
      cbn [kp_entry countChars].
      destruct (isDot c), (isDigit c); reflexivity.
    + destruct Hc as [(D & N & E)|(N & D & E)].
      * rewrite E. cbn [andb].
        destruct (Nat.leb 12 (countChars isDigit e)) eqn:C.
        { cbn [kp_entry]. apply andb_true_intro.
          split; apply Nat.leb_le; assumption. }
        apply Nat.leb_gt in C. rewrite andb_false_r. cbn [kp_entry].
        rewrite !countChars_append. cbn [countChars]. rewrite D, N.
        apply andb_true_intro. split; apply Nat.leb_le; lia.
      * rewrite E. change (String.eqb "." ".") with true. cbn [andb].
        destruct (Nat.ltb 0 (countChars isDot e)) eqn:I.
        { cbn [kp_entry]. apply andb_true_intro.
          split; apply Nat.leb_le; assumption. }
        apply Nat.ltb_ge in I.
        destruct (Nat.leb 12 (countChars isDigit e)) eqn:C.
        { cbn [kp_entry]. apply andb_true_intro.
          split; apply Nat.leb_le; assumption. }
        apply Nat.leb_gt in C. rewrite andb_true_r.
        destruct (String.eqb e "-"); [reflexivity|].
        cbn [kp_entry]. rewrite !countChars_append.
        change (countChars isDot ".") with 1%nat.
        change (countChars isDigit ".") with 0%nat.
        apply andb_true_intro. split; apply Nat.leb_le; lia.
  - unfold negateEntry, kpSetEntry. cbn [kp_entry kp_isNewEntry kpSetEntry].
    destruct (isNew && String.eqb e "0"); [reflexivity|].
    destruct (String.eqb e "-"); [reflexivity|].
    destruct (startsWithMinus e); cbn [kp_entry].
    + pose proof (countChars_substring1 isDot e).
      pose proof (countChars_substring1 isDigit e).
      apply andb_true_intro. split; apply Nat.leb_le; lia.
    + change (countChars isDot (String "-" e)) with (countChars isDot e).
      change (countChars isDigit (String "-" e)) with (countChars isDigit e).
      apply andb_true_intro. split; apply Nat.leb_le; lia.
  - unfold deleteLastChar, kpSetEntry. cbn [kp_entry kp_isNewEntry kpSetEntry].
    destruct (isNew && String.eqb e "0").
    { cbn [kp_entry]. apply andb_true_intro.
      split; apply Nat.leb_le; assumption. }
    destruct (Nat.leb (String.length e) 1
              || Nat.eqb (String.length e) 2 && startsWithMinus e);
      [reflexivity|].
    cbn [kp_entry].
    pose proof (countChars_sliceLast isDot e).
    pose proof (countChars_sliceLast isDigit e).
    apply andb_true_intro. split; apply Nat.leb_le; lia.
Qed.

Lemma entry_stays_in_bounds_witness :
  entryInBounds (appendDigit "." (mkKeypad "12" false false false None)) = true.
Proof.
  apply (entry_stays_in_bounds "." (mkKeypad "12" false false false None));
    reflexivity.
Defined.

Lemma append_char_not_minus (e : string) (c : ascii) :
  Ascii.eqb c "-"%char = false ->
  String.eqb (e ++ String c EmptyString) "-" = false.
Proof.
  intros Hc. destruct e as [|a [|b e]]; cbn.
  - now rewrite Hc.
  - now destruct (Ascii.eqb a "-").
  - now destruct (Ascii.eqb a "-").
Qed.

Lemma no_digit_no_dot_minus (e : string) :
  String.eqb e "-" = true ->
  countChars isDot e = 0%nat /\ countChars isDigit e = 0%nat.
Proof. intros H. apply String.eqb_eq in H. subst e. split; reflexivity. Qed.

(** After a digit key or the decimal-point key the entry buffer holds a
    value, so the next register key stores a number instead of clearing
    the register. *)
Theorem digit_gives_entry_value (digit : string) (k : keypad) :
  keyText digit = true ->
  hasEntryValue (appendDigit digit k) = true.
Proof.
  intros Hd. destruct k as [e isNew rcl armed msg].
  destruct (keyText_inv digit Hd) as (c & -> & Hc).
  assert (Hm : Ascii.eqb c "-"%char = false).
  { apply digit_not_minus. destruct Hc as [(D & _)|(N & _)].
    - now rewrite D.
    - rewrite N. apply orb_true_r. }
  unfold appendDigit, hasEntryValue, includesDot, digitCount, kpSetEntry.
  cbn [kp_entry kp_isNewEntry].
  destruct isNew.
  - cbn [kp_entry kp_isNewEntry].
    destruct (String.eqb (String c EmptyString) "."); [reflexivity|].
    cbn [String.eqb]. now rewrite Hm.
  - destruct (String.eqb e "-") eqn:Em.
    + destruct (no_digit_no_dot_minus e Em) as [-> ->].
      change (Nat.ltb 0 0) with false. change (Nat.leb 12 0) with false.
      rewrite andb_false_r. cbn [andb].
      destruct (String.eqb (String c EmptyString) ".");
        cbn [kp_entry kp_isNewEntry]; [reflexivity|].
      now rewrite append_char_not_minus.
    + cbn [andb].
      destruct (String.eqb (String c EmptyString) "."
                && Nat.ltb 0 (countChars isDot e));
        cbn [kp_entry kp_isNewEntry]; [now rewrite Em|].
      destruct (Nat.leb 12 (countChars isDigit e));
        cbn [kp_entry kp_isNewEntry]; [now rewrite Em|].
      now rewrite append_char_not_minus.
Qed.

Lemma digit_gives_entry_value_witness :
  hasEntryValue (appendDigit "7" (mkKeypad "0" true false false None)) = true.
Proof. apply digit_gives_entry_value. reflexivity. Defined.

(** Backspace undoes the key just typed: when a digit or decimal-point
    key appended its character to an entry under way (one that is not
    just a minus sign), the backspace key gives back the entry as it was
    and leaves it under way. *)
Theorem appendDigit_then_deleteLastChar (digit : string) (k : keypad) :
  keyText digit = true ->
  kp_isNewEntry k = false ->
  kp_entry k <> EmptyString ->
  kp_entry k <> "-"%string ->
  kp_entry (appendDigit digit k) = (kp_entry k ++ digit)%string ->
  kp_entry (deleteLastChar (appendDigit digit k)) = kp_entry k
  /\ kp_isNewEntry (deleteLastChar (appendDigit digit k)) = false.
Proof.
  intros Hd Hn He Hm Ha.
  assert (Hn' : kp_isNewEntry (appendDigit digit k) = false).
  { unfold appendDigit, kpSetEntry. cbn [kp_entry kp_isNewEntry].
    rewrite Hn.
    repeat match goal with
    | |- context [if ?b then _ else _] => destruct b
    end; cbn [kp_isNewEntry]; reflexivity. }
  destruct (keyText_inv digit Hd) as (c & -> & _).
  unfold deleteLastChar, kpSetEntry. cbn [kp_entry kp_isNewEntry].
  rewrite Hn', Ha. cbn [andb].
  rewrite length_append_char.
  destruct (kp_entry k) as [|a rest] eqn:E; [congruence|].
  assert (Hs : Nat.eqb (S (String.length (String a rest))) 2
               && startsWithMinus (String a rest ++ String c EmptyString)
               = false).
  { destruct rest as [|b rest]; [|reflexivity].
    cbn. destruct (Ascii.eqb_spec a "-"%char) as [->|]; [congruence|].
    reflexivity. }
  rewrite Hs. cbn [String.length Nat.leb orb kp_entry kp_isNewEntry].
  split; [apply sliceLast_append | reflexivity].
Qed.

Lemma appendDigit_then_deleteLastChar_witness :
  kp_entry (deleteLastChar
              (appendDigit "3" (mkKeypad "12" false false false None)))
  = "12"%string.
Proof.
  apply (appendDigit_then_deleteLastChar "3"
           (mkKeypad "12" false false false None));
    (reflexivity || discriminate).
Defined.

(* ================================================================== *)
(** * Rounding to binary64 *)
(* ================================================================== *)

Lemma Rabs_le_inv (x b : R) : (Rabs x <= b)%R -> (- b <= x <= b)%R.
Proof. unfold Rabs. destruct (Rcase_abs x); lra. Qed.

Lemma pow2_pos (e : Z) : (0 < powerRZ 2 e)%R.
Proof. apply powerRZ_lt; lra. Qed.

Lemma pow2_nat (k : nat) : powerRZ 2 (Z.of_nat k) = (2 ^ k)%R.
Proof. rewrite <- pow_powerRZ. reflexivity. Qed.

Lemma pow2_ge1 (k : Z) : (0 <= k)%Z -> (1 <= powerRZ 2 k)%R.
Proof.
  intros H. rewrite <- (Z2Nat.id k H), pow2_nat.
  apply pow_R1_Rle. lra.
Qed.

Lemma pow2_mono (a b : Z) : (a <= b)%Z -> (powerRZ 2 a <= powerRZ 2 b)%R.
Proof.
  intros H. replace b with (a + (b - a))%Z by lia.
  rewrite powerRZ_add by lra.
  pose proof (pow2_pos a). pose proof (pow2_ge1 (b - a) ltac:(lia)). nra.
Qed.

Lemma pow2_S (a : Z) : powerRZ 2 (a + 1) = (2 * powerRZ 2 a)%R.
Proof. rewrite powerRZ_add by lra. simpl. lra. Qed.

Lemma pow2_mono_lt (a b : Z) : (a < b)%Z -> (powerRZ 2 a < powerRZ 2 b)%R.
Proof.
  intros H. pose proof (pow2_mono (a + 1) b ltac:(lia)) as M.
  rewrite pow2_S in M. pose proof (pow2_pos a). lra.
Qed.

Lemma pow2_inv (e : Z) : (powerRZ 2 (- e) * powerRZ 2 e = 1)%R.
Proof.
  rewrite <- powerRZ_add by lra. replace (- e + e)%Z with 0%Z by lia.
  reflexivity.
Qed.

Lemma pow2_ln (k : Z) : ln (powerRZ 2 k) = (IZR k * ln 2)%R.
Proof. rewrite powerRZ_Rpower by lra. apply ln_Rpower. Qed.

Lemma ln2_pos : (0 < ln 2)%R.
Proof. rewrite <- ln_1. apply ln_increasing; lra. Qed.

Lemma ilog2_unique (x : R) (k : Z) :
  (powerRZ 2 k <= Rabs x < powerRZ 2 (k + 1))%R -> Binary64.ilog2 x = k.
Proof.
  intros [Hl Hu]. unfold Binary64.ilog2. symmetry. apply Int_part_spec.
  pose proof ln2_pos as L2. pose proof (pow2_pos k) as Pk.
  assert (Hx : (0 < Rabs x)%R) by lra.
  assert (A : (IZR k * ln 2 <= ln (Rabs x))%R).
  { rewrite <- pow2_ln. destruct Hl as [Hl|Hl].
    - left. now apply ln_increasing.
    - rewrite Hl. right. reflexivity. }
  assert (B : (ln (Rabs x) < (IZR k + 1) * ln 2)%R).
  { rewrite <- plus_IZR, <- pow2_ln. now apply ln_increasing. }
  split.
  - apply Rmult_lt_reg_r with (ln 2); [exact L2|].
    unfold Rdiv. rewrite Rmult_minus_distr_r, Rmult_assoc, Rinv_l by lra. lra.
  - apply Rmult_le_reg_r with (ln 2); [exact L2|].
    unfold Rdiv. rewrite Rmult_assoc, Rinv_l by lra. lra.
Qed.

Lemma ilog2_spec (x : R) :
  x <> 0%R ->
  (powerRZ 2 (Binary64.ilog2 x) <= Rabs x
   < powerRZ 2 (Binary64.ilog2 x + 1))%R.
Proof.
  intros Hx. unfold Binary64.ilog2.
  set (t := (ln (Rabs x) / ln 2)%R).
  pose proof ln2_pos as L2.
  assert (Hp : (0 < Rabs x)%R) by now apply Rabs_pos_lt.
  assert (Et : ln (Rabs x) = (t * ln 2)%R).
  { unfold t. field. lra. }
  destruct (base_Int_part t) as [A B].
  assert (Ex : Rabs x = exp (t * ln 2)).
  { rewrite <- Et. symmetry. now apply exp_ln. }
  assert (P : forall k : Z, powerRZ 2 k = exp (IZR k * ln 2)).
  { intros k. rewrite powerRZ_Rpower by lra. reflexivity. }
  rewrite !P, Ex, plus_IZR. split.
  - destruct A as [A|A].
    + left. apply exp_increasing. nra.
    + rewrite A. right. reflexivity.
  - apply exp_increasing. nra.
Qed.

Lemma nearestEven_error (y : R) :
  (Rabs (IZR (Binary64.nearestEven y) - y) <= / 2)%R.
Proof.
  unfold Binary64.nearestEven.
  destruct (base_Int_part y) as [A B].
  set (n := Int_part y) in *.
  unfold Rltb.
  destruct (Rlt_dec (y - IZR n) (/ 2)) as [H1|H1].
  - apply Rabs_le. lra.
  - destruct (Rlt_dec (/ 2) (y - IZR n)) as [H2|H2].
    + rewrite plus_IZR. apply Rabs_le. lra.
    + destruct (Z.even n); [|rewrite plus_IZR]; apply Rabs_le; lra.
Qed.

Lemma nearestEven_unique (y : R) (n : Z) :
  (Rabs (y - IZR n) < / 2)%R -> Binary64.nearestEven y = n.
Proof.
  intros H. apply Rabs_def2 in H as [Hu Hl].
  pose proof (nearestEven_error y) as E.
  apply Rabs_le_inv in E.
  set (m := Binary64.nearestEven y) in *.
  assert (Hm : (IZR m - IZR n < 1)%R) by lra.
  assert (Hn : (IZR n - IZR m < 1)%R) by lra.
  rewrite <- minus_IZR in Hm, Hn.
  apply lt_IZR in Hm, Hn. lia.
Qed.

Lemma nearestEven_IZR (n : Z) : Binary64.nearestEven (IZR n) = n.
Proof.
  apply nearestEven_unique. rewrite Rminus_diag, Rabs_R0. lra.
Qed.

Lemma nearestEven_mono (x y : R) :
  (x <= y)%R -> (Binary64.nearestEven x <= Binary64.nearestEven y)%Z.
Proof.
  intros H.
  destruct (Z_le_gt_dec (Binary64.nearestEven x) (Binary64.nearestEven y))
    as [L|G]; [exact L|exfalso].
  pose proof (nearestEven_error x) as Ex. apply Rabs_le_inv in Ex.
  pose proof (nearestEven_error y) as Ey. apply Rabs_le_inv in Ey.
  set (a := Binary64.nearestEven x) in *.
  set (b := Binary64.nearestEven y) in *.
  assert (Hab : (IZR b + 1 <= IZR a)%R).
  { rewrite <- plus_IZR. apply IZR_le. lia. }
  (* then x = y = b + 1/2 and a = b + 1: a tie rounded both ways *)
  assert (Hx : x = (IZR b + / 2)%R) by lra.
  assert (Hy : y = (IZR b + / 2)%R) by lra.
  assert (Hxy : x = y) by lra.
  unfold a, b in G. rewrite Hxy in G. lia.
Qed.

Lemma exactEngine_amortize (i pv pmt : num) (b : bool) (p1 p2 : nat) :
  Engine.amortize exactEngine i pv pmt b p1 p2 = amortize i pv pmt b p1 p2.
Proof.
  unfold Engine.amortize, amortize. cbn [exactEngine e_lit].
  generalize (mkAmort #0 #0 pv). generalize 1%nat.
  induction p2 as [|k IH]; intros period a; [reflexivity|].
  cbn [Engine.amortLoop amortLoop]. rewrite IH. reflexivity.
Qed.

(** Over the exact arithmetic these are the functions of the first part. *)
Lemma exactEngine_same :
  (forall i n b, Engine.annuityFactor exactEngine i n b = annuityFactor i n b)
  /\ (forall n i pv pmt b, Engine.solveFV exactEngine n i pv pmt b
                           = solveFV n i pv pmt b)
  /\ (forall n i pmt fv b, Engine.solvePV exactEngine n i pmt fv b
                           = solvePV n i pmt fv b)
  /\ (forall n i pv fv b, Engine.solvePMT exactEngine n i pv fv b
                          = solvePMT n i pv fv b)
  /\ (forall n pv pmt fv b i, Engine.solveIY_f exactEngine n pv pmt fv b i
                              = solveIY_f n pv pmt fv b i)
  /\ (forall n pv pmt b i, Engine.solveIY_df exactEngine n pv pmt b i
                           = solveIY_df n pv pmt b i)
  /\ (forall f df s, Engine.solveIY_step exactEngine f df s
                     = solveIY_step f df s)
  /\ (forall i pv pmt b p1 p2, Engine.amortize exactEngine i pv pmt b p1 p2
                               = amortize i pv pmt b p1 p2).
Proof.
  do 6 (split; [reflexivity|]).
  split; [|exact exactEngine_amortize].
  intros f df s. unfold Engine.solveIY_step, solveIY_step.
  cbn [exactEngine e_lit e_add e_mul e_div].
  replace (Num.neg #0.99) with #(-0.99) by (cbn; f_equal; lra).
  reflexivity.
Qed.

Lemma pow2_IZR (j : Z) : (0 <= j)%Z -> powerRZ 2 j = IZR (2 ^ j).
Proof.
  intros H. rewrite <- (Z2Nat.id j H).
  rewrite pow2_nat. apply (pow_IZR 2).
Qed.

Lemma pow2_split (k e : Z) :
  powerRZ 2 k = (powerRZ 2 (k - e) * powerRZ 2 e)%R.
Proof. rewrite <- powerRZ_add by lra. f_equal. lia. Qed.

(** The multiple of [2^e] nearest to [x]. *)
Lemma nearest_error (x : R) (e : Z) :
  (Rabs (IZR (Binary64.nearestEven (x * powerRZ 2 (- e))) * powerRZ 2 e - x)
   <= powerRZ 2 e / 2)%R.
Proof.
  pose proof (pow2_pos e) as P. pose proof (pow2_inv e) as I.
  pose proof (nearestEven_error (x * powerRZ 2 (- e))) as E.
  set (m := IZR (Binary64.nearestEven (x * powerRZ 2 (- e)))) in *.
  replace (m * powerRZ 2 e - x)%R
    with ((m - x * powerRZ 2 (- e)) * powerRZ 2 e)%R
    by (rewrite Rmult_minus_distr_r, Rmult_assoc, I; ring).
  rewrite Rabs_mult, (Rabs_pos_eq (powerRZ 2 e)) by lra.
  nra.
Qed.

Lemma nearest_lower (x : R) (k e : Z) :
  (e <= k)%Z -> (powerRZ 2 k <= Rabs x)%R ->
  (powerRZ 2 k
   <= Rabs (IZR (Binary64.nearestEven (x * powerRZ 2 (- e))) * powerRZ 2 e))%R.
Proof.
  intros Hek Hx.
  pose proof (pow2_pos e) as P. pose proof (pow2_inv e) as I.
  pose proof (pow2_pos k) as Pk.
  rewrite (pow2_split k e) in *. rewrite pow2_IZR in * by lia.
  set (j := (2 ^ (k - e))%Z) in *.
  rewrite Rabs_mult, (Rabs_pos_eq (powerRZ 2 e)) by lra.
  apply Rmult_le_compat_r; [lra|].
  destruct (Rle_dec 0 x) as [Hp|Hn].
  - rewrite Rabs_pos_eq in Hx by lra.
    assert (Hy : (IZR j <= x * powerRZ 2 (- e))%R).
    { apply Rmult_le_reg_r with (powerRZ 2 e); [lra|].
      rewrite Rmult_assoc, I. lra. }
    apply nearestEven_mono in Hy. rewrite nearestEven_IZR in Hy.
    apply IZR_le in Hy.
    assert (0 <= IZR j)%R by nra.
    rewrite Rabs_pos_eq; lra.
  - rewrite Rabs_left in Hx by lra.
    assert (Hy : (x * powerRZ 2 (- e) <= IZR (- j))%R).
    { rewrite opp_IZR.
      apply Rmult_le_reg_r with (powerRZ 2 e); [lra|].
      rewrite Rmult_assoc, I. lra. }
    apply nearestEven_mono in Hy. rewrite nearestEven_IZR in Hy.
    apply IZR_le in Hy. rewrite opp_IZR in Hy.
    assert (0 <= IZR j)%R by nra.
    rewrite Rabs_left1; lra.
Qed.

Lemma round_cases (x : R) :
  x <> 0%R ->
  let y := (IZR (Binary64.nearestEven (x * powerRZ 2 (- Binary64.ulpExp x)))
            * powerRZ 2 (Binary64.ulpExp x))%R in
  (Binary64.round x = #y /\ (Rabs y < powerRZ 2 1024)%R)
  \/ (Binary64.round x = (if Rltb 0 x then PInf else NInf)
      /\ (powerRZ 2 1024 <= Rabs y)%R).
Proof.
  intros Hx y. unfold Binary64.round. rewrite (Reqb_false x 0 Hx).
  fold y. unfold Rleb.
  destruct (Rle_dec (powerRZ 2 1024) (Rabs y)); [right|left]; split;
    (reflexivity || lra).
Qed.

Lemma round_zero : Binary64.round 0 = #0.
Proof. unfold Binary64.round. now rewrite Reqb_true. Qed.

(** The error of a rounding that does not overflow: at most [u] times the
    exact value and at most [u] times the result, but for the [eta] of
    the values below the normal range. *)
Lemma round_error (x z : R) :
  Binary64.round x = #z ->
  (Rabs (z - x) <= Binary64.u * Rabs x + Binary64.eta)%R
  /\ (Rabs (z - x) <= Binary64.eps z)%R.
Proof.
  intros H. unfold Binary64.eps, Binary64.u, Binary64.eta.
  pose proof (pow2_pos (-53)) as Pu. pose proof (pow2_pos (-1075)) as Pe.
  destruct (Req_dec_T x 0) as [->|Hx].
  { rewrite round_zero in H. injection H as <-.
    rewrite Rminus_diag, Rabs_R0. nra. }
  destruct (round_cases x Hx) as [[E _]|[E _]];
    [|rewrite E in H; destruct (Rltb 0 x); discriminate].
  rewrite E in H. injection H as <-.
  pose proof (nearest_error x (Binary64.ulpExp x)) as Err.
  pose proof (ilog2_spec x Hx) as [Lo _].
  set (k := Binary64.ilog2 x) in *.
  unfold Binary64.ulpExp in *. fold k in Err |- *.
  destruct (Z.max_spec (k - 52) (-1074)) as [[Hc Em]|[Hc Em]];
    rewrite Em in *.
  - (* below the normal range *)
    replace (powerRZ 2 (-1074) / 2)%R with (powerRZ 2 (-1075)) in Err
      by (change (-1074)%Z with (-1075 + 1)%Z; rewrite pow2_S; lra).
    pose proof (Rabs_pos x).
    pose proof (Rabs_pos (IZR (Binary64.nearestEven (x * powerRZ 2 (- -1074)))
                          * powerRZ 2 (-1074))).
    split; nra.
  - pose proof (nearest_lower x k (k - 52) ltac:(lia) Lo) as Lz.
    assert (Hh : (powerRZ 2 (k - 52) / 2 = powerRZ 2 (-53) * powerRZ 2 k)%R).
    { rewrite <- powerRZ_add by lra.
      replace (-53 + k)%Z with (k - 53)%Z by lia.
      replace (k - 52)%Z with (k - 53 + 1)%Z by lia.
      rewrite pow2_S. lra. }
    rewrite Hh in Err. pose proof (pow2_pos k).
    split; nra.
Qed.

(** A value with at most 53 significant bits, not below the spacing
    [2^-1074] and not overflowing, is its own rounding. *)
Lemma round_exact (m e : Z) :
  (Z.abs m < 2 ^ 53)%Z -> (-1074 <= e)%Z ->
  (Rabs (IZR m * powerRZ 2 e) < powerRZ 2 1024)%R ->
  Binary64.round (IZR m * powerRZ 2 e) = #(IZR m * powerRZ 2 e).
Proof.
  intros Hm He Hov. set (x := (IZR m * powerRZ 2 e)%R) in *.
  destruct (Req_dec_T x 0) as [E0|Hx]; [rewrite E0; apply round_zero|].
  destruct (round_cases x Hx) as [[E _]|[E Big]].
  - rewrite E. f_equal.
    pose proof (ilog2_spec x Hx) as [Lo _].
    set (k := Binary64.ilog2 x) in *.
    pose proof (pow2_pos e) as Pe.
    assert (Hk : (k - 52 <= e)%Z).
    { destruct (Z_le_gt_dec (k - 52) e) as [L|G]; [exact L|exfalso].
      pose proof (pow2_mono (e + 53) k ltac:(lia)) as M.
      rewrite (pow2_split (e + 53) e) in M.
      replace (e + 53 - e)%Z with 53%Z in M by lia.
      rewrite (pow2_IZR 53) in M by lia.
      assert (Ha : (Rabs x = IZR (Z.abs m) * powerRZ 2 e)%R).
      { unfold x. rewrite Rabs_mult, (Rabs_pos_eq (powerRZ 2 e)) by lra.
        now rewrite abs_IZR. }
      assert (Hb : (IZR (Z.abs m) < IZR (2 ^ 53))%R) by now apply IZR_lt.
      nra. }
    unfold Binary64.ulpExp. fold k.
    set (E' := Z.max (k - 52) (-1074)).
    assert (HE : (E' <= e)%Z) by (unfold E'; lia).
    assert (Hy : (x * powerRZ 2 (- E') = IZR (m * 2 ^ (e - E')))%R).
    { unfold x. rewrite mult_IZR, <- pow2_IZR by lia.
      rewrite Rmult_assoc, <- powerRZ_add by lra.
      replace (e + - E')%Z with (e - E')%Z by lia. reflexivity. }
    rewrite Hy, nearestEven_IZR, mult_IZR, <- pow2_IZR by lia.
    unfold x. rewrite Rmult_assoc, <- powerRZ_add by lra.
    replace (e - E' + E')%Z with e by lia. reflexivity.
  - exfalso.
    pose proof (ilog2_spec x Hx) as [Lo _].
    set (k := Binary64.ilog2 x) in *.
    pose proof (pow2_pos e) as Pe.
    (* the candidate is x itself *)
    assert (Hk : (k - 52 <= e)%Z).
    { destruct (Z_le_gt_dec (k - 52) e) as [L|G]; [exact L|exfalso].
      pose proof (pow2_mono (e + 53) k ltac:(lia)) as M.
      rewrite (pow2_split (e + 53) e) in M.
      replace (e + 53 - e)%Z with 53%Z in M by lia.
      rewrite (pow2_IZR 53) in M by lia.
      assert (Ha : (Rabs x = IZR (Z.abs m) * powerRZ 2 e)%R).
      { unfold x. rewrite Rabs_mult, (Rabs_pos_eq (powerRZ 2 e)) by lra.
        now rewrite abs_IZR. }
      assert (Hb : (IZR (Z.abs m) < IZR (2 ^ 53))%R) by now apply IZR_lt.
      nra. }
    unfold Binary64.ulpExp in Big. fold k in Big.
    set (E' := Z.max (k - 52) (-1074)) in *.
    assert (HE : (E' <= e)%Z) by (unfold E'; lia).
    assert (Hy : (x * powerRZ 2 (- E') = IZR (m * 2 ^ (e - E')))%R).
    { unfold x. rewrite mult_IZR, <- pow2_IZR by lia.
      rewrite Rmult_assoc, <- powerRZ_add by lra.
      replace (e + - E')%Z with (e - E')%Z by lia. reflexivity. }
    rewrite Hy, nearestEven_IZR, mult_IZR, <- pow2_IZR in Big by lia.
    rewrite Rmult_assoc, <- powerRZ_add in Big by lra.
    replace (e - E' + E')%Z with e in Big by lia.
    fold x in Big. lra.
Qed.

Lemma round_int (n : Z) :
  (Z.abs n < 2 ^ 53)%Z -> Binary64.round (IZR n) = #(IZR n).
Proof.
  intros H.
  assert (E : (IZR n * powerRZ 2 0 = IZR n)%R)
    by (change (powerRZ 2 0) with 1%R; lra).
  rewrite <- E. apply round_exact; [exact H | lia |].
  rewrite E, <- abs_IZR.
  apply Rlt_le_trans with (IZR (2 ^ 53)); [now apply IZR_lt|].
  rewrite <- pow2_IZR by lia. apply pow2_mono. lia.
Qed.


(** Rounding a value known by its binade and by the multiple of the
    spacing nearest to it. *)
Lemma round_near (x : R) (k n : Z) :
  (powerRZ 2 k <= Rabs x < powerRZ 2 (k + 1))%R ->
  (Rabs (x * powerRZ 2 (- Z.max (k - 52) (-1074)) - IZR n) < / 2)%R ->
  (Rabs (IZR n * powerRZ 2 (Z.max (k - 52) (-1074))) < powerRZ 2 1024)%R ->
  Binary64.round x = #(IZR n * powerRZ 2 (Z.max (k - 52) (-1074))).
Proof.
  intros Hk Hn Hov. pose proof (pow2_pos k) as P.
  assert (Hx : x <> 0%R).
  { intros ->. rewrite Rabs_R0 in Hk. lra. }
  pose proof (ilog2_unique x k Hk) as Ek.
  destruct (round_cases x Hx) as [[E _]|[_ Big]].
  - rewrite E. unfold Binary64.ulpExp. rewrite Ek.
    now rewrite (nearestEven_unique _ n Hn).
  - exfalso. unfold Binary64.ulpExp in Big. rewrite Ek in Big.
    rewrite (nearestEven_unique _ n Hn) in Big. lra.
Qed.

(* ================================================================== *)
(** * Binary64 results that are numbers *)
(* ================================================================== *)

Lemma rounded_fin (a : num) (z : R) :
  Binary64.rounded a = #z -> exists x, a = #x /\ Binary64.round x = #z.
Proof.
  destruct a as [x| | |]; cbn [Binary64.rounded]; try discriminate.
  intros H. now exists x.
Qed.

Lemma b64_add_fin (a b : num) (z : R) :
  Binary64.add a b = #z ->
  exists x y, a = #x /\ b = #y /\ Binary64.round (x + y) = #z.
Proof.
  unfold Binary64.add. intros H. apply rounded_fin in H as (s & E & R).
  destruct a as [x| | |], b as [y| | |]; try discriminate.
  injection E as <-. now exists x, y.
Qed.

Lemma b64_mul_fin (a b : num) (z : R) :
  Binary64.mul a b = #z ->
  exists x y, a = #x /\ b = #y /\ Binary64.round (x * y) = #z.
Proof.
  unfold Binary64.mul. intros H. apply rounded_fin in H as (s & E & R).
  destruct a as [x| | |], b as [y| | |]; try discriminate;
    try (cbn in E; unfold Num.scale_inf in E;
         repeat match type of E with
                | context [if ?c then _ else _] => destruct c
                end; discriminate).
  injection E as <-. now exists x, y.
Qed.

Lemma b64_div_fin (a : num) (y z : R) :
  Binary64.div a #y = #z ->
  exists x, a = #x /\ y <> 0%R /\ Binary64.round (x / y) = #z.
Proof.
  unfold Binary64.div. intros H. apply rounded_fin in H as (s & E & R).
  destruct a as [x| | |]; cbn [Num.div] in E;
    try (destruct (Rltb y 0); discriminate); try discriminate.
  unfold Reqb in E. destruct (Req_dec_T y 0) as [->|Hy].
  - unfold Num.scale_inf in E.
    repeat match type of E with
           | context [if ?c then _ else _] => destruct c
           end; discriminate.
  - injection E as <-. now exists x.
Qed.

Lemma u_bounds : (0 < Binary64.u <= 1)%R.
Proof.
  unfold Binary64.u. split; [apply pow2_pos|].
  change 1%R with (powerRZ 2 0). apply pow2_mono. lia.
Qed.

Lemma eta_pos : (0 < Binary64.eta)%R.
Proof. apply pow2_pos. Qed.

(* ================================================================== *)
(** * Round trip between [solveFV] and [solvePV] in binary64 *)
(* ================================================================== *)

Lemma solvePV_round_trip_bound (pow : num -> num -> num) (n i pmt : num)
    (pv fv r : R) (isBegin : bool) :
  Engine.solveFV (binary64 pow) n i #pv pmt isBegin = #fv ->
  Engine.solvePV (binary64 pow) n i pmt #fv isBegin = #r ->
  exists F : R,
    pow (Binary64.add (Binary64.round 1) i) n = #F
    /\ F <> 0%R
    /\ (Rabs (r - pv)
        <= Binary64.u * (Rabs pv + 3 * Rabs r + Rabs fv / Rabs F)
           + Binary64.eta * (2 + 3 / Rabs F))%R.
Proof.
  unfold Engine.solveFV, Engine.solvePV.
  cbn [binary64 e_lit e_add e_mul e_div e_pow].
  set (Fc := pow (Binary64.add (Binary64.round 1) i) n).
  set (af := Engine.annuityFactor (binary64 pow) i n isBegin).
  intros Hfv Hr.
  apply b64_add_fin in Hfv as (t1 & t2 & M1 & M2 & S).
  apply b64_mul_fin in M1 as (pv' & F & Epv & EF & R1).
  injection Epv as <-.
  rewrite M2, EF in Hr. cbn [Num.neg] in Hr.
  apply b64_div_fin in Hr as (d & D & HF & Q).
  apply b64_add_fin in D as (fv' & t2' & Efv & Et2 & R4).
  injection Efv as <-. injection Et2 as <-.
  exists F. split; [exact EF|]. split; [exact HF|].
  destruct (round_error _ _ R1) as [B1 _].
  destruct (round_error _ _ S) as [_ B3].
  destruct (round_error _ _ R4) as [_ B4].
  destruct (round_error _ _ Q) as [_ B5].
  unfold Binary64.eps in *.
  pose proof u_bounds as [U0 U1]. pose proof eta_pos as E0.
  set (u := Binary64.u) in *. set (eta := Binary64.eta) in *.
  set (e1 := (t1 - pv * F)%R) in *.
  set (e3 := (fv - (t1 + t2))%R) in *.
  set (e4 := (d - (fv + - t2))%R) in *.
  set (e5 := (r - d / F)%R) in *.
  assert (HaF : (0 < Rabs F)%R) by now apply Rabs_pos_lt.
  set (G := (/ Rabs F)%R).
  assert (HG : (0 < G)%R) by now apply Rinv_0_lt_compat.
  assert (GF : (G * Rabs F = 1)%R) by (unfold G; field; lra).
  assert (Id : (r - pv = e5 + (e1 + e3 + e4) * / F)%R).
  { unfold e1, e3, e4, e5. field. exact HF. }
  assert (Hd : (d = (r - e5) * F)%R).
  { unfold e5. field. exact HF. }
  assert (Ad : (Rabs d <= (Rabs r + Rabs e5) * Rabs F)%R).
  { rewrite Hd, Rabs_mult. apply Rmult_le_compat_r; [lra|].
    unfold Rminus. eapply Rle_trans; [apply Rabs_triang|].
    rewrite Rabs_Ropp. lra. }
  assert (T : (Rabs (r - pv)
               <= Rabs e5 + (Rabs e1 + Rabs e3 + Rabs e4) * G)%R).
  { rewrite Id. eapply Rle_trans; [apply Rabs_triang|].
    apply Rplus_le_compat_l.
    rewrite Rabs_mult, Rabs_inv. fold G.
    apply Rmult_le_compat_r; [lra|].
    eapply Rle_trans; [apply Rabs_triang|].
    apply Rplus_le_compat_r. apply Rabs_triang. }
  rewrite Rabs_mult in B1.
  pose proof (Rabs_pos pv). pose proof (Rabs_pos r).
  pose proof (Rabs_pos fv). pose proof (Rabs_pos d).
  pose proof (Rabs_pos e1). pose proof (Rabs_pos e3).
  pose proof (Rabs_pos e4). pose proof (Rabs_pos e5).
  assert (K1 : (Rabs e1 * G <= u * Rabs pv + eta * G)%R).
  { apply Rle_trans with ((u * (Rabs pv * Rabs F) + eta) * G)%R.
    - apply Rmult_le_compat_r; lra.
    - replace ((u * (Rabs pv * Rabs F) + eta) * G)%R
        with (u * Rabs pv * (G * Rabs F) + eta * G)%R by ring.
      rewrite GF. lra. }
  assert (K3 : (Rabs e3 * G <= u * (Rabs fv * G) + eta * G)%R).
  { apply Rle_trans with ((u * Rabs fv + eta) * G)%R.
    - apply Rmult_le_compat_r; lra.
    - lra. }
  assert (K4 : (Rabs e4 * G <= u * (Rabs r + Rabs e5) + eta * G)%R).
  { apply Rle_trans with ((u * ((Rabs r + Rabs e5) * Rabs F) + eta) * G)%R.
    - apply Rmult_le_compat_r; [lra|].
      apply Rle_trans with (u * Rabs d + eta)%R; [exact B4|].
      apply Rplus_le_compat_r. apply Rmult_le_compat_l; lra.
    - replace ((u * ((Rabs r + Rabs e5) * Rabs F) + eta) * G)%R
        with (u * (Rabs r + Rabs e5) * (G * Rabs F) + eta * G)%R by ring.
      rewrite GF. lra. }
  assert (K5 : (u * Rabs e5 <= u * Rabs r + eta)%R).
  { apply Rle_trans with (u * (u * Rabs r + eta))%R.
    - apply Rmult_le_compat_l; lra.
    - assert (u * (u * Rabs r) <= 1 * (u * Rabs r))%R
        by (apply Rmult_le_compat_r; nra).
      assert (u * eta <= 1 * eta)%R by (apply Rmult_le_compat_r; lra).
      lra. }
  unfold Rdiv. fold G.
  replace (Rabs fv * / Rabs F)%R with (Rabs fv * G)%R by reflexivity.
  lra.
Qed.

(** Below the overflow range a rounding is a number. *)
Lemma round_finite (x : R) :
  (Rabs x <= powerRZ 2 1023)%R ->
  exists z, Binary64.round x = #z
            /\ (Rabs (z - x) <= Binary64.u * Rabs x + Binary64.eta)%R.
Proof.
  intros Hx.
  destruct (Req_dec_T x 0) as [->|Hn].
  { exists 0%R. split; [apply round_zero|].
    rewrite Rminus_diag, Rabs_R0.
    pose proof u_bounds. pose proof eta_pos. nra. }
  destruct (round_cases x Hn) as [[E _]|[_ Big]].
  - eexists. split; [exact E|]. now apply round_error.
  - exfalso.
    pose proof (nearest_error x (Binary64.ulpExp x)) as Err.
    pose proof (ilog2_spec x Hn) as [Lo Hi].
    set (k := Binary64.ilog2 x) in *.
    assert (Hk : (k <= 1023)%Z).
    { destruct (Z_le_gt_dec k 1023) as [L|G]; [exact L|exfalso].
      pose proof (pow2_mono_lt 1023 k ltac:(lia)). lra. }
    unfold Binary64.ulpExp in *. fold k in Err, Big.
    set (e := Z.max (k - 52) (-1074)) in *.
    pose proof (pow2_mono e 971 ltac:(unfold e; lia)) as Me.
    apply Rabs_le_inv in Err.
    set (y := (IZR (Binary64.nearestEven (x * powerRZ 2 (- e)))
               * powerRZ 2 e)%R) in *.
    assert (T : (Rabs y <= Rabs x + powerRZ 2 e / 2)%R).
    { replace y with (x + (y - x))%R by ring.
      eapply Rle_trans; [apply Rabs_triang|].
      apply Rplus_le_compat_l. apply Rabs_le. lra. }
    assert (P1 : (powerRZ 2 1024 = 2 * powerRZ 2 1023)%R)
      by (change 1024%Z with (1023 + 1)%Z; apply pow2_S).
    pose proof (pow2_mono_lt 971 1023 ltac:(lia)).
    pose proof (pow2_pos e). lra.
Qed.

Lemma round_eq_int (x : R) (n : Z) :
  x = IZR n -> (Z.abs n < 2 ^ 53)%Z -> Binary64.round x = #(IZR n).
Proof. intros ->. apply round_int. Qed.

Lemma round_dyadic (x : R) (m e : Z) :
  x = (IZR m * powerRZ 2 e)%R ->
  (Z.abs m < 2 ^ 53)%Z -> (-1074 <= e <= 971)%Z ->
  Binary64.round x = #x.
Proof.
  intros -> Hm He. apply round_exact; [exact Hm | lia |].
  pose proof (pow2_pos e) as Pe.
  rewrite Rabs_mult, (Rabs_pos_eq (powerRZ 2 e)), <- abs_IZR by lra.
  apply Rlt_le_trans with (IZR (2 ^ 53) * powerRZ 2 e)%R.
  - apply Rmult_lt_compat_r; [lra|]. now apply IZR_lt.
  - rewrite <- pow2_IZR, <- powerRZ_add by (lia || lra).
    apply pow2_mono. lia.
Qed.

Lemma u_value : Binary64.u = (/ 9007199254740992)%R.
Proof. unfold Binary64.u. simpl. f_equal. lra. Qed.

Lemma eta_le_u : (Binary64.eta <= Binary64.u)%R.
Proof. apply pow2_mono. lia. Qed.

(** The double nearest to 0.00001. *)
Lemma literal_1e5 :
  exists c : R, Binary64.round 0.00001 = #c
                /\ (0.0000099 < c < 0.0000101)%R.
Proof.
  destruct (round_finite 0.00001) as (c & E & B).
  { rewrite Rabs_pos_eq by lra.
    apply Rle_trans with (powerRZ 2 0); [simpl; lra | apply pow2_mono; lia]. }
  exists c. split; [exact E|].
  pose proof eta_le_u. pose proof eta_pos. rewrite u_value in *.
  rewrite (Rabs_pos_eq 0.00001) in B by lra.
  apply Rabs_le_inv in B. lra.
Qed.

Lemma b64_add_eval (x y : R) : Binary64.add #x #y = Binary64.round (x + y).
Proof. reflexivity. Qed.

Lemma b64_mul_eval (x y : R) : Binary64.mul #x #y = Binary64.round (x * y).
Proof. reflexivity. Qed.

Lemma b64_div_eval (x y : R) :
  y <> 0%R -> Binary64.div #x #y = Binary64.round (x / y).
Proof.
  intros H. unfold Binary64.div, Num.div. now rewrite (Reqb_false y 0 H).
Qed.

Lemma b64_pow_nat (x : R) (k : nat) :
  Binary64.pow #x #(INR k) = Binary64.round (x ^ k).
Proof. unfold Binary64.pow. now rewrite pow_nat. Qed.

(** A small positive literal is a positive number below 1. *)
Lemma round_small_literal (x : R) :
  (0 < x <= / 2)%R ->
  exists c, Binary64.round x = #c /\ (0 <= c < 1)%R.
Proof.
  intros Hx. destruct (round_finite x) as (c & E & B).
  { rewrite Rabs_pos_eq by lra.
    apply Rle_trans with (powerRZ 2 0); [simpl; lra | apply pow2_mono; lia]. }
  exists c. split; [exact E|].
  pose proof eta_le_u. pose proof eta_pos. rewrite u_value in *.
  rewrite (Rabs_pos_eq x) in B by lra.
  apply Rabs_le_inv in B.
  split; [|nra].
  (* a rounding of a positive value is not negative *)
  destruct (Rle_dec 0 c) as [|Hc]; [assumption|exfalso].
  destruct (round_error _ _ E) as [_ B2]. unfold Binary64.eps in B2.
  rewrite u_value in B2. rewrite Rabs_left in B2 by lra.
  rewrite Rabs_left in B2 by lra.
  assert (x <= Binary64.eta)%R by nra.
  (* then x is below the spacing and rounds to a multiple of 2^-1074 *)
  assert (Hn : x <> 0%R) by lra.
  destruct (round_cases x Hn) as [[E' _]|[E' _]];
    [|rewrite E' in E; destruct (Rltb 0 x); discriminate].
  rewrite E' in E. injection E as Ec.
  pose proof (pow2_pos (Binary64.ulpExp x)) as Pp.
  pose proof (pow2_pos (- Binary64.ulpExp x)) as Pm.
  assert (Hy : (IZR 0 <= x * powerRZ 2 (- Binary64.ulpExp x))%R) by nra.
  apply nearestEven_mono in Hy. rewrite nearestEven_IZR in Hy.
  apply IZR_le in Hy. nra.
Qed.

(** The run behind the counterexample of C2: one period at 100%, a
    present value of 0.00001 and a payment of 999999999999. *)
Lemma lost_pv_run :
  exists pv : R,
    Binary64.round 0.00001 = #pv
    /\ (0.0000099 < pv < 0.0000101)%R
    /\ Engine.solveFV (binary64 Binary64.pow) #1 #1 #pv #999999999999 false
       = #999999999999
    /\ Engine.solvePV (binary64 Binary64.pow) #1 #1 #999999999999
         #999999999999 false
       = #0.
Proof.
  destruct literal_1e5 as (pv & Epv & Bpv).
  exists pv. split; [exact Epv|]. split; [exact Bpv|].
  assert (R1 : Binary64.round 1 = #1) by (apply (round_int 1); reflexivity).
  assert (F2 : Binary64.pow (Binary64.add (Binary64.round 1) #1) #1 = #2).
  { rewrite R1, b64_add_eval, (round_eq_int (1 + 1) 2) by (lra || reflexivity).
    change (#1) with (#(INR 1)). rewrite b64_pow_nat.
    apply (round_eq_int _ 2); [simpl; lra | reflexivity]. }
  destruct (round_small_literal 1e-10 ltac:(lra)) as (c10 & E10 & B10).
  assert (AF : Engine.annuityFactor (binary64 Binary64.pow) #1 #1 false = #1).
  { unfold Engine.annuityFactor.
    cbn [binary64 e_lit e_add e_mul e_div e_pow].
    rewrite E10. cbn [Num.abs Num.lt]. rewrite Rabs_R1.
    rewrite (Rltb_false 1 c10) by lra.
    rewrite F2, R1. cbn [Num.neg]. rewrite b64_add_eval.
    rewrite (round_eq_int (2 + - (1)) 1) by (lra || reflexivity).
    rewrite b64_div_eval by lra.
    apply (round_eq_int _ 1); [lra | reflexivity]. }
  split.
  - unfold Engine.solveFV. rewrite AF.
    cbn [binary64 e_lit e_add e_mul e_div e_pow]. rewrite F2.
    rewrite !b64_mul_eval.
    rewrite (round_eq_int (999999999999 * 1) 999999999999)
      by (lra || reflexivity).
    destruct (round_finite (pv * 2)) as (t1 & E1 & B1).
    { rewrite Rabs_pos_eq by lra.
      apply Rle_trans with (powerRZ 2 0); [simpl; lra | apply pow2_mono; lia]. }
    rewrite E1, b64_add_eval.
    assert (Bt : (0.000019 < t1 < 0.000021)%R).
    { pose proof eta_le_u. pose proof eta_pos. rewrite u_value in *.
      rewrite (Rabs_pos_eq (pv * 2)) in B1 by lra.
      apply Rabs_le_inv in B1. lra. }
    rewrite (round_near (t1 + 999999999999) 39 8191999999991808).
    + f_equal. change (Z.max (39 - 52) (-1074)) with (-13)%Z. simpl. lra.
    + rewrite Rabs_pos_eq by lra. simpl. lra.
    + change (- Z.max (39 - 52) (-1074))%Z with 13%Z. simpl.
      apply Rabs_def1; lra.
    + change (Z.max (39 - 52) (-1074)) with (-13)%Z.
      apply Rlt_le_trans with (powerRZ 2 40);
        [|apply pow2_mono; lia].
      rewrite Rabs_pos_eq; simpl; lra.
  - unfold Engine.solvePV. rewrite AF.
    cbn [binary64 e_lit e_add e_mul e_div e_pow]. rewrite F2.
    rewrite b64_mul_eval.
    rewrite (round_eq_int (999999999999 * 1) 999999999999)
      by (lra || reflexivity).
    cbn [Num.neg]. rewrite b64_add_eval.
    rewrite (round_eq_int (999999999999 + - (999999999999)) 0)
      by (lra || reflexivity).
    rewrite b64_div_eval by lra.
    apply (round_eq_int _ 0); [lra | reflexivity].
Qed.

Lemma solvePV_of_solveFV_exact (n i pv pmt c : R) (isBegin : bool) :
  Num.pow #(1 + i) #n = #c -> c <> 0%R ->
  solvePV #n #i #pmt (solveFV #n #i #pv #pmt isBegin) isBegin = #pv.
Proof.
  intros Hc Hc0.
  rewrite (solveFV_fin n i c isBegin Hc).
  rewrite (solvePV_fin n i c isBegin Hc) by assumption.
  f_equal. field. assumption.
Qed.

(** C2.  Solving for PV from the FV that [solveFV] computed.  In exact
    arithmetic it gives back the original [pv] exactly, whenever
    [(1+i)^n] is a non-zero number.  In binary64 arithmetic, with any
    [Math.pow]: when [solveFV] gives a number [fv] and [solvePV] on that
    [fv] gives a number [r], the compound factor [F] is a non-zero number
    and [r] is the original [pv] up to rounding,
    [|r - pv| <= u (|pv| + 3|r| + |fv|/|F|) + eta (2 + 3/|F|)]
    with [u = 2^-53] and [eta = 2^-1075].  The term [u |fv| / |F|] is the
    rounding of the sum [pv*F + pmt*af]: it is not small next to [pv]
    when the payments dominate. *)
Theorem solvePV_recovers_pv :
  (forall (n i pv pmt c : R) (isBegin : bool),
      Num.pow #(1 + i) #n = #c -> c <> 0%R ->
      Engine.solvePV exactEngine #n #i #pmt
        (Engine.solveFV exactEngine #n #i #pv #pmt isBegin) isBegin
      = #pv)
  /\ (forall (pow : num -> num -> num) (n i pmt : num) (pv fv r : R)
             (isBegin : bool),
      Engine.solveFV (binary64 pow) n i #pv pmt isBegin = #fv ->
      Engine.solvePV (binary64 pow) n i pmt #fv isBegin = #r ->
      exists F : R,
        pow (Binary64.add (Binary64.round 1) i) n = #F
        /\ F <> 0%R
        /\ (Rabs (r - pv)
            <= Binary64.u * (Rabs pv + 3 * Rabs r + Rabs fv / Rabs F)
               + Binary64.eta * (2 + 3 / Rabs F))%R).
Proof.
  split.
  - intros n i pv pmt c isBegin Hc Hc0.
    destruct exactEngine_same as (_ & Efv & Epv & _).
    rewrite Efv, Epv. now apply (solvePV_of_solveFV_exact n i pv pmt c).
  - intros pow n i pmt pv fv r isBegin.
    apply solvePV_round_trip_bound.
Qed.

(** The bound at the input of the counterexample: the recovered value
    is 0, and the bound allows it. *)
Lemma solvePV_recovers_pv_witness :
  exists pv F : R,
    Binary64.round 0.00001 = #pv
    /\ Binary64.pow (Binary64.add (Binary64.round 1) #1) #1 = #F
    /\ (Rabs (0 - pv)
        <= Binary64.u * (Rabs pv + 3 * Rabs 0 + Rabs 999999999999 / Rabs F)
           + Binary64.eta * (2 + 3 / Rabs F))%R.
Proof.
  destruct lost_pv_run as (pv & Epv & _ & Hfv & Hr).
  destruct (proj2 solvePV_recovers_pv Binary64.pow #1 #1 #999999999999
              pv 999999999999 0 false Hfv Hr) as (F & EF & _ & B).
  exists pv, F. split; [exact Epv|]. split; [exact EF | exact B].
Defined.

(** C2, counterexample.  One period at 100% with a present value of
    0.00001 and a payment of 999999999999, all of which can be keyed in:
    in binary64 the future value is 999999999999, the present value
    recovered from it is 0, and 0 is not within the relative tolerance
    [1e-6] of 0.00001. *)
Lemma solvePV_loses_pv :
  exists pv : R,
    Binary64.round 0.00001 = #pv
    /\ Engine.solvePV (binary64 Binary64.pow) #1 #1 #999999999999
         (Engine.solveFV (binary64 Binary64.pow) #1 #1 #pv #999999999999
            false)
         false
       = #0
    /\ (Rabs (0 - pv) > 1e-6 * Rabs pv)%R.
Proof.
  destruct lost_pv_run as (pv & Epv & Bpv & Hfv & Hr).
  exists pv. split; [exact Epv|]. split.
  - rewrite Hfv. exact Hr.
  - rewrite Rminus_0_l, Rabs_Ropp, Rabs_pos_eq by lra. lra.
Qed.

(* ================================================================== *)
(** * The strategy of the rate search, for any residual *)
(* ================================================================== *)







(* ================================================================== *)
(** * The rate search over a long term in binary64 *)
(* ================================================================== *)

(** A rounding of a value of moderate size is a number close to it. *)
Lemma round_close (x : R) :
  (Rabs x <= 1000)%R ->
  exists z, Binary64.round x = #z /\ (Rabs (z - x) <= 1e-12)%R.
Proof.
  intros Hx. destruct (round_finite x) as (z & E & B).
  { apply Rle_trans with (powerRZ 2 10); [simpl; lra | apply pow2_mono; lia]. }
  exists z. split; [exact E|].
  pose proof eta_le_u. pose proof eta_pos. rewrite u_value in *.
  pose proof (Rabs_pos x). nra.
Qed.




(* ================================================================== *)
(** * The clamps of the rate search in binary64 *)
(* ================================================================== *)






(* ================================================================== *)
(** * The strategy of the IRR search, for any NPV function *)
(* ================================================================== *)












(* ================================================================== *)
(** * The amortization walk in binary64 *)
(* ================================================================== *)

(** [Math.pow] does not occur in the loop. *)
Lemma amortLoop_any_pow (pow : num -> num -> num) (i pmt : num) (b : bool)
    (p1 count period : nat) (a : amortResult) :
  Engine.amortLoop (binary64 pow) i pmt b p1 count period a
  = Engine.amortLoop (binary64 Binary64.pow) i pmt b p1 count period a.
Proof.
  revert period a. induction count as [|k IH]; intros period a;
    [reflexivity|].
  cbn [Engine.amortLoop]. rewrite IH. reflexivity.
Qed.

Lemma end_period (i pmt : num) (period : nat) (a : amortResult) :
  (1 <= period)%nat ->
  Engine.amortPeriod (binary64 Binary64.pow) i pmt false 1 period a
  = mkAmort (end_principal i pmt a)
      (Binary64.add (interest a) (end_interest i a))
      (end_balance i pmt a).
Proof.
  intros Hp. unfold Engine.amortPeriod.
  replace (Nat.leb 1 period) with true by (symmetry; apply Nat.leb_le; lia).
  reflexivity.
Qed.

(** One period of the balance: the new balance is [b(1+i) + pmt] up to
    the roundings of the period. *)
Lemma end_balance_error (x q b1 : R) (a : amortResult) :
  end_balance #x #q a = #b1 ->
  exists b0 : R,
    balance a = #b0
    /\ (Rabs (b1 - (b0 + (b0 * x + q))) <= balance_rounding #x #q a)%R.
Proof.
  intros H. unfold balance_rounding. rewrite H.
  unfold end_balance in H.
  apply b64_add_fin in H as (b0 & s & Eb & Es & R3).
  rewrite Es. unfold end_change in Es.
  apply b64_add_fin in Es as (I & q' & EI & Eq & R2).
  injection Eq as <-. rewrite EI. unfold end_interest in EI.
  rewrite Eb in EI.
  apply b64_mul_fin in EI as (b0' & x' & Eb' & Ex & R1).
  injection Eb' as <-. injection Ex as <-.
  exists b0. split; [exact Eb|]. cbn [numR].
  destruct (round_error _ _ R1) as [_ B1].
  destruct (round_error _ _ R2) as [_ B2].
  destruct (round_error _ _ R3) as [_ B3].
  replace (b1 - (b0 + (b0 * x + q)))%R
    with ((b1 - (b0 + s)) + (s - (I + q)) + (I - b0 * x))%R by ring.
  eapply Rle_trans; [apply Rabs_triang|].
  eapply Rle_trans; [apply Rplus_le_compat_r, Rabs_triang|]. lra.
Qed.

(** One period of the ledger: principal plus balance is kept up to the
    roundings of the period. *)
Lemma end_ledger_error (x q P1 b1 : R) (a : amortResult) :
  end_principal #x #q a = #P1 ->
  end_balance #x #q a = #b1 ->
  exists P0 b0 : R,
    principal a = #P0 /\ balance a = #b0
    /\ (Rabs ((P1 + b1) - (P0 + b0)) <= ledger_rounding #x #q a)%R.
Proof.
  intros HP Hb. unfold ledger_rounding. rewrite HP, Hb.
  unfold end_principal in HP. unfold end_balance in Hb.
  apply b64_add_fin in HP as (P0 & pp & EP & Epp & R4).
  apply b64_add_fin in Hb as (b0 & s & Eb & Es & R3).
  rewrite Epp, Es. unfold end_portion in Epp. unfold end_change in Es.
  apply b64_add_fin in Es as (I & q' & EI & Eq & R2).
  injection Eq as <-. rewrite EI in Epp. cbn [Num.neg] in Epp.
  apply b64_add_fin in Epp as (nq & nI & Enq & EnI & R1).
  injection Enq as <-. injection EnI as <-.
  exists P0, b0. split; [exact EP|]. split; [exact Eb|]. cbn [numR].
  destruct (round_error _ _ R1) as [_ B1].
  destruct (round_error _ _ R2) as [_ B2].
  destruct (round_error _ _ R3) as [_ B3].
  destruct (round_error _ _ R4) as [_ B4].
  replace ((P1 + b1) - (P0 + b0))%R
    with ((P1 - (P0 + pp)) + (pp - (- q + - I))
          + (b1 - (b0 + s)) + (s - (I + q)))%R by ring.
  eapply Rle_trans; [apply Rabs_triang|].
  eapply Rle_trans; [apply Rplus_le_compat_r, Rabs_triang|].
  eapply Rle_trans;
    [apply Rplus_le_compat_r, Rplus_le_compat_r, Rabs_triang|].
  lra.
Qed.

Lemma endBalance_affine (x q : R) (k : nat) (b c : R) :
  (endBalance x q k b - endBalance x q k c = (b - c) * (1 + x) ^ k)%R.
Proof. rewrite !endBalance_closed. ring. Qed.

(** The balance after [count] periods against the exact recurrence. *)
Lemma walk_balance (x q : R) (count period : nat) (a : amortResult)
    (bk : R) :
  (1 <= period)%nat ->
  balance (Engine.amortLoop (binary64 Binary64.pow) #x #q false 1
             count period a) = #bk ->
  exists b0 : R,
    balance a = #b0
    /\ (Rabs (bk - endBalance x q count b0)
        <= walk_rounding #x #q count period a)%R.
Proof.
  revert period a. induction count as [|k IH]; intros period a Hp H.
  - cbn [Engine.amortLoop] in H. exists bk. split; [exact H|].
    cbn [endBalance walk_rounding]. rewrite Rminus_diag, Rabs_R0. lra.
  - cbn [Engine.amortLoop] in H.
    destruct (IH (S period) _ ltac:(lia) H) as (b1 & E1 & B).
    rewrite end_period in E1 by exact Hp. cbn [balance] in E1.
    destruct (end_balance_error x q b1 a E1) as (b0 & E0 & B0).
    exists b0. split; [exact E0|].
    cbn [endBalance walk_rounding numR].
    replace (bk - endBalance x q k (b0 + (b0 * x + q)))%R
      with ((bk - endBalance x q k b1)
            + (endBalance x q k b1
               - endBalance x q k (b0 + (b0 * x + q))))%R by ring.
    eapply Rle_trans; [apply Rabs_triang|].
    rewrite endBalance_affine, Rabs_mult, <- RPow_abs.
    pose proof (pow_le (Rabs (1 + x)) k (Rabs_pos _)) as Hw.
    pose proof (Rabs_pos (b1 - (b0 + (b0 * x + q)))).
    assert (Rabs (b1 - (b0 + (b0 * x + q))) * Rabs (1 + x) ^ k
            <= Rabs (1 + x) ^ k * balance_rounding #x #q a)%R by nra.
    lra.
Qed.

(** Principal plus balance after [count] periods against the start. *)
Lemma walk_ledger (x q : R) (count period : nat) (a : amortResult)
    (Pk bk : R) :
  (1 <= period)%nat ->
  principal (Engine.amortLoop (binary64 Binary64.pow) #x #q false 1
               count period a) = #Pk ->
  balance (Engine.amortLoop (binary64 Binary64.pow) #x #q false 1
             count period a) = #bk ->
  exists P0 b0 : R,
    principal a = #P0 /\ balance a = #b0
    /\ (Rabs ((Pk + bk) - (P0 + b0))
        <= walk_ledger_rounding #x #q count period a)%R.
Proof.
  revert period a. induction count as [|k IH]; intros period a Hp HP Hb.
  - cbn [Engine.amortLoop] in HP, Hb. exists Pk, bk.
    split; [exact HP|]. split; [exact Hb|].
    cbn [walk_ledger_rounding]. rewrite Rminus_diag, Rabs_R0. lra.
  - cbn [Engine.amortLoop] in HP, Hb.
    destruct (IH (S period) _ ltac:(lia) HP Hb) as (P1 & b1 & EP & Eb & B).
    rewrite end_period in EP, Eb by exact Hp. cbn [principal balance] in EP, Eb.
    destruct (end_ledger_error x q P1 b1 a EP Eb) as (P0 & b0 & E0 & E0' & B0).
    exists P0, b0. split; [exact E0|]. split; [exact E0'|].
    cbn [walk_ledger_rounding].
    replace ((Pk + bk) - (P0 + b0))%R
      with (((Pk + bk) - (P1 + b1)) + ((P1 + b1) - (P0 + b0)))%R by ring.
    eapply Rle_trans; [apply Rabs_triang|]. lra.
Qed.

(** The payment of [solvePMT] in binary64: [pmt * af] is
    [fv - pv * (1+i)^n] as computed, up to three roundings. *)
Lemma solvePMT_error (pow : num -> num -> num) (n i : num)
    (pv fv pmt A : R) (isBegin : bool) :
  Engine.solvePMT (binary64 pow) n i #pv #fv isBegin = #pmt ->
  Engine.annuityFactor (binary64 pow) i n isBegin = #A ->
  exists F m N : R,
    pow (Binary64.add (Binary64.round 1) i) n = #F
    /\ Binary64.mul #pv #F = #m
    /\ Binary64.add #fv (Num.neg #m) = #N
    /\ (Rabs (pmt * A - (fv - pv * F))
        <= Binary64.eps m + Binary64.eps N + Rabs A * Binary64.eps pmt)%R.
Proof.
  unfold Engine.solvePMT.
  cbn [binary64 e_lit e_add e_mul e_div e_pow].
  intros H HA. rewrite HA in H.
  destruct (Num.abs #A <? Binary64.round 1e-15); [discriminate|].
  apply b64_div_fin in H as (N & EN & HA0 & R3).
  pose proof EN as EN'.
  apply b64_add_fin in EN' as (fv' & y & Efv & Ey & R2).
  injection Efv as <-.
  destruct (Binary64.mul #pv (pow (Binary64.add (Binary64.round 1) i) n))
    as [m| | |] eqn:Em; try discriminate.
  cbn [Num.neg] in Ey. injection Ey as <-.
  pose proof Em as Em'.
  apply b64_mul_fin in Em' as (pv' & F & Epv & EF & R1).
  injection Epv as <-.
  exists F, m, N. split; [exact EF|].
  split; [rewrite <- EF; exact Em|].
  split; [exact EN|].
  destruct (round_error _ _ R1) as [_ B1].
  destruct (round_error _ _ R2) as [_ B2].
  destruct (round_error _ _ R3) as [_ B3].
  assert (B3' : (Rabs (pmt * A - N) <= Rabs A * Binary64.eps pmt)%R).
  { replace (pmt * A - N)%R with (A * (pmt - N / A))%R by (field; exact HA0).
    rewrite Rabs_mult. apply Rmult_le_compat_l; [apply Rabs_pos | exact B3]. }
  replace (pmt * A - (fv - pv * F))%R
    with ((pmt * A - N) + (N - (fv + - m)) + - (m - pv * F))%R by ring.
  eapply Rle_trans; [apply Rabs_triang|].
  eapply Rle_trans; [apply Rplus_le_compat_r, Rabs_triang|].
  rewrite Rabs_Ropp. lra.
Qed.

(** Exact arithmetic, END timing: the walk closes on [fv], and the
    principal portions sum to [pv - fv]. *)
Lemma amortize_end_exact (n : nat) (i pv fv pmt : R) :
  (1 <= n)%nat -> (i = 0 \/ ~ Rabs i < 1e-10)%R ->
  solvePMT #(INR n) #i #pv #fv false = #pmt ->
  principal (amortize #i #pv #pmt false 1 n) = #(pv - fv)
  /\ balance (amortize #i #pv #pmt false 1 n) = #fv.
Proof.
  intros Hn Hi Hpmt. unfold amortize.
  destruct (amortLoop_end i pmt n 1 0 0 pv) as [q' E]; [lia|].
  rewrite E. cbn [principal balance].
  rewrite (endBalance_solvePMT n i pv fv pmt Hn Hi Hpmt).
  split; [f_equal; lra | reflexivity].
Qed.

(** C3, as the code has it, for payments at the END of a period.
    In exact arithmetic, for a whole [n >= 1] and a rate that is zero or
    at least 1e-10 in magnitude, a payment [pmt] that [solvePMT] returns
    as a number makes the walk over the periods [1..n] sum the principal
    portions to [PV - FV] and end on the balance [FV].
    In binary64, with any [Math.pow] and whenever the results are numbers:
    the sum of the principal portions is [PV - balance] up to the
    roundings of the ledger, one rounding unit [eps z = u*|z| + eta] for
    every value [z] the loop computes for principal and balance; the
    balance is [PV*(1+i)^n + pmt*(1 + (1+i) + ... + (1+i)^(n-1))] up to the
    roundings of the balance, those of a period multiplied by [|1+i|] for
    every period that follows; and with the payment of [solvePMT], whose
    annuity factor is the number [A] and whose compound factor is [F], the
    balance is [FV] up to these roundings, the error of [F] times [|PV|],
    the error of [A] times [|pmt|], and the three roundings of
    [solvePMT]. *)
Theorem amortize_end_closes_loop :
  (forall (n : nat) (i pv fv pmt : R),
      (1 <= n)%nat -> (i = 0 \/ ~ Rabs i < 1e-10)%R ->
      Engine.solvePMT exactEngine #(INR n) #i #pv #fv false = #pmt ->
      principal (Engine.amortize exactEngine #i #pv #pmt false 1 n)
      = #(pv - fv)
      /\ balance (Engine.amortize exactEngine #i #pv #pmt false 1 n) = #fv)
  /\ (forall (pow : num -> num -> num) (n : nat) (i pv pmt P b : R),
      principal (Engine.amortize (binary64 pow) #i #pv #pmt false 1 n) = #P ->
      balance (Engine.amortize (binary64 pow) #i #pv #pmt false 1 n) = #b ->
      (Rabs (P - (pv - b))
       <= walk_ledger_rounding #i #pmt n 1 (mkAmort #0 #0 #pv))%R
      /\ (Rabs (b - (pv * (1 + i) ^ n + pmt * geomSum (1 + i) n))
          <= walk_rounding #i #pmt n 1 (mkAmort #0 #0 #pv))%R)
  /\ (forall (pow : num -> num -> num) (n : nat) (i pv fv pmt A b : R),
      Engine.solvePMT (binary64 pow) #(INR n) #i #pv #fv false = #pmt ->
      Engine.annuityFactor (binary64 pow) #i #(INR n) false = #A ->
      balance (Engine.amortize (binary64 pow) #i #pv #pmt false 1 n) = #b ->
      exists F m N : R,
        pow (Binary64.add (Binary64.round 1) #i) #(INR n) = #F
        /\ Binary64.mul #pv #F = #m
        /\ Binary64.add #fv (Num.neg #m) = #N
        /\ (Rabs (b - fv)
            <= walk_rounding #i #pmt n 1 (mkAmort #0 #0 #pv)
               + Rabs pv * Rabs (F - (1 + i) ^ n)
               + Rabs pmt * Rabs (A - geomSum (1 + i) n)
               + (Binary64.eps m + Binary64.eps N
                  + Rabs A * Binary64.eps pmt))%R).
Proof.
  assert (W : forall (pow : num -> num -> num) (n : nat) (i pv pmt b : R),
             balance (Engine.amortize (binary64 pow) #i #pv #pmt false 1 n)
             = #b ->
             (Rabs (b - (pv * (1 + i) ^ n + pmt * geomSum (1 + i) n))
              <= walk_rounding #i #pmt n 1 (mkAmort #0 #0 #pv))%R).
  { intros pow n i pv pmt b Hb. unfold Engine.amortize in Hb.
    rewrite amortLoop_any_pow in Hb.
    cbn [binary64 e_lit] in Hb. rewrite round_zero in Hb.
    destruct (walk_balance i pmt n 1 _ b ltac:(lia) Hb) as (b0 & E0 & B).
    cbn [balance] in E0. injection E0 as <-.
    now rewrite endBalance_closed in B. }
  split; [|split].
  - intros n i pv fv pmt Hn Hi Hpmt.
    destruct exactEngine_same as (_ & _ & _ & EP & _ & _ & _ & EA).
    rewrite EP in Hpmt. rewrite EA.
    now apply amortize_end_exact.
  - intros pow n i pv pmt P b HP Hb. split; [|now apply (W pow)].
    unfold Engine.amortize in HP, Hb. rewrite amortLoop_any_pow in HP, Hb.
    cbn [binary64 e_lit] in HP, Hb. rewrite round_zero in HP, Hb.
    destruct (walk_ledger i pmt n 1 _ P b ltac:(lia) HP Hb)
      as (P0 & b0 & E0 & E0' & B).
    cbn [principal balance] in E0, E0'.
    injection E0 as <-. injection E0' as <-.
    replace (P - (pv - b))%R with (P + b - (0 + pv))%R by ring. exact B.
  - intros pow n i pv fv pmt A b Hpmt HA Hb.
    destruct (solvePMT_error pow _ _ pv fv pmt A false Hpmt HA)
      as (F & m & N & EF & Em & EN & B).
    exists F, m, N. split; [exact EF|]. split; [exact Em|].
    split; [exact EN|].
    pose proof (W pow n i pv pmt b Hb) as Bw.
    set (g := geomSum (1 + i) n) in *. set (c := ((1 + i) ^ n)%R) in *.
    replace (b - fv)%R
      with ((b - (pv * c + pmt * g))
            + (- (pv * (F - c)) + - (pmt * (A - g))
               + (pmt * A - (fv - pv * F))))%R by ring.
    eapply Rle_trans; [apply Rabs_triang|].
    eapply Rle_trans; [apply Rplus_le_compat_l, Rabs_triang|].
    eapply Rle_trans;
      [apply Rplus_le_compat_l, Rplus_le_compat_r, Rabs_triang|].
    rewrite !Rabs_Ropp, !Rabs_mult. lra.
Qed.

(* ================================================================== *)
(** * A two-period walk in binary64 *)
(* ================================================================== *)

Lemma round_value (x v : R) (m e : Z) :
  x = v -> v = (IZR m * powerRZ 2 e)%R ->
  (Z.abs m < 2 ^ 53)%Z -> (-1074 <= e <= 971)%Z ->
  Binary64.round x = #v.
Proof. intros -> Hv Hm He. now apply (round_dyadic v m e). Qed.

Ltac round_as x v := rewrite (round_eq_int x v) by (first [lra | reflexivity]).

Ltac two_period_values :=
  repeat first
    [ rewrite b64_add_eval
    | rewrite b64_mul_eval
    | progress cbn [Num.neg]
    | match goal with
      | |- context [Binary64.round ?x] =>
          first [ round_as x 0%Z | round_as x 30%Z | round_as x 40%Z
                | round_as x (-40)%Z | round_as x 50%Z | round_as x 60%Z
                | round_as x (-60)%Z | round_as x 80%Z | round_as x 100%Z
                | round_as x 225%Z | round_as x (-225)%Z
                | round_as x (-90)%Z ]
      end ].

(** Two periods at 50% on [PV = 100], [FV = 0], END timing: every value
    is a dyadic number, the payment is -90, and the walk goes through the
    balances 60 and 0. *)
Lemma two_period_run :
  Binary64.pow (Binary64.add (Binary64.round 1) #0.5) #(INR 2) = #2.25
  /\ Engine.annuityFactor (binary64 Binary64.pow) #0.5 #(INR 2) false = #2.5
  /\ Engine.solvePMT (binary64 Binary64.pow) #(INR 2) #0.5 #100 #0 false
     = #(-90)
  /\ Engine.amortize (binary64 Binary64.pow) #0.5 #100 #(-90) false 1 2
     = mkAmort #100 #80 #0.
Proof.
  assert (R1 : Binary64.round 1 = #1) by (apply (round_int 1); reflexivity).
  assert (F : Binary64.pow (Binary64.add (Binary64.round 1) #0.5) #(INR 2)
              = #2.25).
  { rewrite R1, b64_add_eval.
    rewrite (round_value (1 + 0.5) 1.5 3 (-1))
      by (first [simpl; lra | reflexivity | lia]).
    rewrite b64_pow_nat.
    apply (round_value _ 2.25 9 (-2));
      first [simpl; lra | reflexivity | lia]. }
  destruct (round_close 1e-10) as (t & Et & Bt); [rcompare; lra|].
  apply Rabs_le_inv in Bt.
  destruct (round_close 1e-15) as (w & Ew & Bw); [rcompare; lra|].
  apply Rabs_le_inv in Bw.
  assert (A : Engine.annuityFactor (binary64 Binary64.pow) #0.5 #(INR 2) false
              = #2.5).
  { unfold Engine.annuityFactor.
    cbn [binary64 e_lit e_add e_mul e_div e_pow].
    rewrite Et. cbn [Num.abs Num.lt]. rcompare.
    rewrite F, R1. cbn [Num.neg]. rewrite b64_add_eval.
    rewrite (round_value (2.25 + - (1)) 1.25 5 (-2))
      by (first [simpl; lra | reflexivity | lia]).
    rewrite b64_div_eval by lra.
    apply (round_value _ 2.5 5 (-1));
      first [simpl; lra | reflexivity | lia]. }
  split; [exact F|]. split; [exact A|]. split.
  - unfold Engine.solvePMT. rewrite A.
    cbn [binary64 e_lit e_add e_mul e_div e_pow].
    rewrite Ew, F. cbn [Num.abs Num.lt]. rcompare.
    two_period_values.
    rewrite b64_div_eval by lra.
    apply (round_eq_int _ (-90)); [lra | reflexivity].
  - unfold Engine.amortize. cbn [Engine.amortLoop].
    unfold Engine.amortPeriod.
    cbn [Nat.leb binary64 e_lit e_add e_mul principal interest balance
         Num.neg].
    two_period_values. reflexivity.
Qed.

(** The roundings of that walk stay below 1e-13. *)
Lemma two_period_rounding :
  (walk_rounding #0.5 #(-90) 2 1 (mkAmort #0 #0 #100) <= 1e-13)%R
  /\ (walk_ledger_rounding #0.5 #(-90) 2 1 (mkAmort #0 #0 #100) <= 1e-13)%R.
Proof.
  cbn [walk_rounding walk_ledger_rounding].
  rewrite !end_period by lia.
  unfold balance_rounding, ledger_rounding, end_principal, end_balance,
    end_change, end_portion, end_interest.
  cbn [principal interest balance].
  two_period_values.
  cbn [numR]. unfold Binary64.eps.
  pose proof eta_le_u. pose proof eta_pos. rewrite u_value in *.
  rcompare. simpl pow. split; lra.
Qed.

Lemma amortize_end_closes_loop_witness :
  Engine.solvePMT (binary64 Binary64.pow) #(INR 2) #0.5 #100 #0 false
  = #(-90)
  /\ Engine.amortize (binary64 Binary64.pow) #0.5 #100 #(-90) false 1 2
     = mkAmort #100 #80 #0
  /\ (Rabs (100 - (100 - 0))
      <= walk_ledger_rounding #0.5 #(-90) 2 1 (mkAmort #0 #0 #100))%R
  /\ exists F m N : R,
       Binary64.pow (Binary64.add (Binary64.round 1) #0.5) #(INR 2) = #F
       /\ Binary64.mul #100 #F = #m
       /\ Binary64.add #0 (Num.neg #m) = #N
       /\ (Rabs (0 - 0)
           <= walk_rounding #0.5 #(-90) 2 1 (mkAmort #0 #0 #100)
              + Rabs 100 * Rabs (F - (1 + 0.5) ^ 2)
              + Rabs (-90) * Rabs (2.5 - geomSum (1 + 0.5) 2)
              + (Binary64.eps m + Binary64.eps N
                 + Rabs 2.5 * Binary64.eps (-90)))%R.
Proof.
  destruct two_period_run as (F & A & P & W).
  destruct amortize_end_closes_loop as (_ & L & C).
  split; [exact P|]. split; [exact W|]. split.
  - apply (L Binary64.pow 2%nat 0.5 100 (-90) 100 0)%R; now rewrite W.
  - apply (C Binary64.pow 2%nat 0.5 100 0 (-90) 2.5 0)%R;
      [exact P | exact A | now rewrite W].
Defined.
